(** * robust-preview-server: build orchestration and preview lifecycle

  A shallow embedding of the server's validation layer
  ([utils/validation.js]), file-system helpers ([utils/fileSystem.js]),
  build service ([services/buildService.js]), build route
  ([routes/build.js]), error handler ([middleware/errorHandler.js]) and
  health check ([routes/health.js]), followed by the properties established
  about them.

  Conventions.
  - A JavaScript string is a sequence of UTF-16 code units.  The strings of
    this development are those whose code units are all below 256, written
    as [string], one [ascii] per code unit; [String.length] is the
    JavaScript [.length].
  - JavaScript numbers that hold byte counts, timestamps and exit codes
    are integers in the range where doubles are exact; they are [Z].  Where
    the code divides and rounds them (the disk usage), they are the doubles
    themselves, [float] with the IEEE 754 operations.
  - [path] is Node's POSIX implementation (the deployment targets are
    Linux hosts and containers).
  - A run leaves a trace: the calls on the host, each with its outcome,
    and the log records, in order.  A call is recorded where it completes.
    Calls started together ([Promise.all]) are in flight at once; which of
    them completes next is the host's choice, and the code that waits for
    a call runs from its completion to the next call it starts before
    anything else completes. *)

From Stdlib Require Import String Ascii List ZArith QArith Qround Bool Lia PrimFloat
  Permutation.
Import ListNotations.

Local Open Scope string_scope.
Local Open Scope Z_scope.
Local Set Warnings "-register-all".

(** ** JavaScript strings *)

Module JsString.

(** [s.includes(needle)] *)
Fixpoint includes (needle s : string) : bool :=
  if String.prefix needle s then true
  else match s with
       | EmptyString => false
       | String _ s' => includes needle s'
       end.

(** [s.split(sep)] for a one-character separator. *)
Fixpoint split (sep : ascii) (s : string) : list string :=
  match s with
  | EmptyString => [EmptyString]
  | String c s' =>
      if Ascii.eqb c sep then EmptyString :: split sep s'
      else match split sep s' with
           | h :: t => String c h :: t
           | [] => [String c EmptyString]
           end
  end.

(** [segs.join(sep)] *)
Fixpoint join (sep : string) (segs : list string) : string :=
  match segs with
  | [] => EmptyString
  | [s] => s
  | s :: rest => s ++ sep ++ join sep rest
  end.

Fixpoint repeat (c : ascii) (n : nat) : string :=
  match n with
  | O => EmptyString
  | S n' => String c (repeat c n')
  end.

(** Number of bytes of the UTF-8 encoding, as [Buffer.byteLength(s, 'utf8')]
    and as written by [fs.writeFile(_, s, 'utf8')]: code units below 128
    take one byte, the others (below 256 here) take two. *)
Fixpoint utf8ByteLength (s : string) : Z :=
  match s with
  | EmptyString => 0
  | String c s' =>
      (if (N_of_ascii c <? 128)%N then 1 else 2) + utf8ByteLength s'
  end.

Definition is_upper (c : ascii) : bool :=
  ((65 <=? N_of_ascii c) && (N_of_ascii c <=? 90))%N.

(** [s.toLowerCase()] on the code units that have a lower-case form below
    256: A-Z, and the Latin-1 capitals. *)
Definition lower_unit (c : ascii) : ascii :=
  let n := N_of_ascii c in
  if is_upper c then ascii_of_N (n + 32)
  else if ((192 <=? n) && (n <=? 222) && negb (n =? 215))%N
       then ascii_of_N (n + 32)
       else c.

Fixpoint toLowerCase (s : string) : string :=
  match s with
  | EmptyString => EmptyString
  | String c s' => String (lower_unit c) (toLowerCase s')
  end.

Definition is_space (c : ascii) : bool :=
  let n := N_of_ascii c in
  ((n =? 32) || ((9 <=? n) && (n <=? 13)) || (n =? 160))%N.

Fixpoint trimStart (s : string) : string :=
  match s with
  | EmptyString => EmptyString
  | String c s' => if is_space c then trimStart s' else s
  end.

Fixpoint rev_string (s acc : string) : string :=
  match s with
  | EmptyString => acc
  | String c s' => rev_string s' (String c acc)
  end.

(** [s.trim()] *)
Definition trim (s : string) : string :=
  rev_string (trimStart (rev_string (trimStart s) EmptyString)) EmptyString.

(** Decimal rendering of an integer inside a template literal. *)
Fixpoint digits (fuel : nat) (n : N) (acc : string) : string :=
  match fuel with
  | O => acc
  | S fuel' =>
      let acc' := String (ascii_of_N (48 + n mod 10)) acc in
      if (n / 10 =? 0)%N then acc' else digits fuel' (n / 10)%N acc'
  end.

Definition of_Z (z : Z) : string :=
  let n := Z.abs_N z in
  let body := digits (S (N.to_nat (N.log2 n))) n EmptyString in
  if z <? 0 then String "-" body else body.

End JsString.

(** ** JavaScript numbers *)

Module JsNumber.

(** [Math.round(n / d)] for integers [n] and [d > 0] whose quotient is exact
    as a double, as it is for a byte count divided by 1024 twice: halves
    round up. *)
Definition round_div (n d : Z) : Z := (2 * n + d) / (2 * d).

Local Open Scope float_scope.

(** The double that holds an integer (exact below 2^53). *)
Fixpoint of_pos (p : positive) : float :=
  match p with
  | xH => 1
  | xO p => 2 * of_pos p
  | xI p => 2 * of_pos p + 1
  end.

Definition of_Z (z : Z) : float :=
  match z with
  | Z0 => 0
  | Zpos p => of_pos p
  | Zneg p => - of_pos p
  end.

(** 2^52: from there on every double is an integer. *)
Definition two52 : float := 4503599627370496.

(** The largest integer not above [x], for [0 <= x < 2^52]: adding and
    taking away 2^52 rounds [x] to a nearest integer. *)
Definition floor_below_two52 (x : float) : float :=
  let r := (x + two52) - two52 in
  if x <? r then r - 1 else r.

(** [Math.round(x)]: the integer nearest to [x], the larger one of two that
    are equally near; a zero, an infinity and [NaN] are returned as they
    are. *)
Definition Math_round (x : float) : float :=
  if (x =? 0) || (two52 <=? abs x) then x
  else if 0 <? x then
    let f := floor_below_two52 x in
    if 0.5 <=? x - f then f + 1 else f
  else
    let f := floor_below_two52 (- x) in
    - (if 0.5 <? - x - f then f + 1 else f).

End JsNumber.

(** ** Node's [path] module, POSIX flavour *)

Module Path.
Import JsString.

Definition slash : ascii := "/"%char.
Definition dot : ascii := "."%char.

(** [path.isAbsolute(p)]: the first code unit is a slash. *)
Definition isAbsolute (p : string) : bool :=
  match p with
  | String c _ => Ascii.eqb c slash
  | EmptyString => false
  end.

Fixpoint endsWithSlash (p : string) : bool :=
  match p with
  | EmptyString => false
  | String c EmptyString => Ascii.eqb c slash
  | String _ p' => endsWithSlash p'
  end.

(** [normalizeString]: the segments between separators are handled one at
    a time.  [res] is the result so far, last segment first.  An empty
    segment and [.] are dropped; [..] removes the last segment unless there
    is none or it is [..] itself, in which case [..] is kept when the path
    may climb above its root. *)
Fixpoint normalizeSegments (allowAboveRoot : bool) (segs res : list string)
  : list string :=
  match segs with
  | [] => res
  | seg :: segs' =>
      if (seg =? "")%string || (seg =? ".")%string then
        normalizeSegments allowAboveRoot segs' res
      else if (seg =? "..")%string then
        match res with
        | top :: rest =>
            if (top =? "..")%string
            then normalizeSegments allowAboveRoot segs'
                   (if allowAboveRoot then ".." :: res else res)
            else normalizeSegments allowAboveRoot segs' rest
        | [] =>
            normalizeSegments allowAboveRoot segs'
              (if allowAboveRoot then [".."] else [])
        end
      else normalizeSegments allowAboveRoot segs' (seg :: res)
  end.

Definition normalizeString (p : string) (allowAboveRoot : bool) : string :=
  join "/" (rev (normalizeSegments allowAboveRoot (split slash p) [])).

(** [path.normalize(p)] *)
Definition normalize (p : string) : string :=
  if (p =? "")%string then "."
  else
    let isAbs := isAbsolute p in
    let trailingSeparator := endsWithSlash p in
    let body := normalizeString p (negb isAbs) in
    if (body =? "")%string then
      if isAbs then "/" else if trailingSeparator then "./" else "."
    else
      let body := if trailingSeparator then body ++ "/" else body in
      if isAbs then "/" ++ body else body.

(** [path.join(a, b)]: the non-empty arguments joined by a slash, then
    normalised. *)
Definition join (a b : string) : string :=
  let joined :=
    if (a =? "")%string then b
    else if (b =? "")%string then a
    else a ++ "/" ++ b in
  if (joined =? "")%string then "." else normalize joined.

(** [path.dirname(p)].  The scan runs from the last code unit down to
    index 1: trailing slashes are skipped, then the last component, and the
    result is what precedes the slash found there. *)
Fixpoint skipTrailingSlashes (r : list ascii) : list ascii :=
  match r with
  | c :: r' => if Ascii.eqb c slash then skipTrailingSlashes r' else r
  | [] => []
  end.

Fixpoint skipComponent (r : list ascii) : option (list ascii) :=
  match r with
  | c :: r' => if Ascii.eqb c slash then Some r' else skipComponent r'
  | [] => None
  end.

Definition dirname (p : string) : string :=
  match list_ascii_of_string p with
  | [] => "."
  | c0 :: tl =>
      let hasRoot := Ascii.eqb c0 slash in
      match skipComponent (skipTrailingSlashes (rev tl)) with
      | None => if hasRoot then "/" else "."
      | Some before =>
          if hasRoot && Nat.eqb (List.length before) 0 then "//"
          else string_of_list_ascii (c0 :: rev before)
      end
  end.

(** [path.extname(p)].  [base] is the last component with trailing slashes
    removed; the extension starts at its last dot, and is empty when there
    is no dot, when nothing but dots precedes a dot in first position, or
    when the component is [..]. *)
Fixpoint takeComponent (r : list ascii) : list ascii :=
  match r with
  | c :: r' => if Ascii.eqb c slash then [] else c :: takeComponent r'
  | [] => []
  end.

(** Scans the reversed component: returns the code units after the last
    dot (in order) and the reversed code units before it. *)
Fixpoint splitAtLastDot (r acc : list ascii)
  : option (list ascii * list ascii) :=
  match r with
  | c :: r' =>
      if Ascii.eqb c dot then Some (acc, r')
      else splitAtLastDot r' (c :: acc)
  | [] => None
  end.

Definition extname (p : string) : string :=
  let base := takeComponent (skipTrailingSlashes (rev (list_ascii_of_string p))) in
  match splitAtLastDot base [] with
  | None => ""
  | Some (after, before) =>
      (* preDotState: 0 nothing before the dot, 1 only dots, -1 otherwise *)
      if Nat.eqb (List.length before) 0 then ""
      else if forallb (Ascii.eqb dot) before
              && Nat.eqb (List.length after) 0
              && Nat.eqb (List.length before) 1 then ""
      else string_of_list_ascii (dot :: after)
  end.

End Path.

(** ** Request payloads *)

(** A parsed JSON value.  An object keeps its members in [Object.keys]
    order. *)
Inductive json : Type :=
| JNull
| JBool (b : bool)
| JNumber (n : Z)
| JString (s : string)
| JArray (items : list json)
| JObject (members : list (string * json)).

(** A file set: relative path to content, in [Object.entries] order. *)
Definition FileSet : Type := list (string * json).

Fixpoint lookup_member (k : string) (members : list (string * json))
  : option json :=
  match members with
  | [] => None
  | (k', v) :: rest => if (k' =? k)%string then Some v else lookup_member k rest
  end.

(** ** utils/validation.js *)

Module Validation.
Import JsString.

(** What Joi reports for the first rule that fails: the error code and the
    label of the value it is about. *)
Record JoiError : Type := mkJoiError {
  joi_code : string;
  joi_label : string
}.

Definition quote : string := String (ascii_of_N 34) EmptyString.

(** [error.details[0].message]: Joi's message template for the code, with
    the label in double quotes. *)
Definition joi_message (e : JoiError) : string :=
  let code := joi_code e in
  quote ++ joi_label e ++ quote ++
  (if (code =? "any.required")%string then " is required"
   else if (code =? "object.base")%string then " must be of type object"
   else if (code =? "object.unknown")%string then " is not allowed"
   else if (code =? "object.min")%string then " must have at least 1 key"
   else if (code =? "object.max")%string
        then " must have less than or equal to 100 keys"
   else if (code =? "string.empty")%string then " is not allowed to be empty"
   else if (code =? "string.max")%string
        then " length must be less than or equal to 1048576 characters long"
   else " must be one of [string, object]").

(** The custom rule named 'safe file path' (lines 8-21): [true] when the
    value is returned, [false] when [helpers.error('any.invalid')] is. *)
Definition safe_file_path (value : string) : bool :=
  if includes ".." value || Path.isAbsolute value then false
  else
    let normalizedPath := Path.normalize value in
    if negb (normalizedPath =? value)%string && negb (includes "/" value)
    then false
    else true.

(** [Joi.string().custom(...)] applied to a key: [Joi.string()] refuses the
    empty string, then the custom rule runs. *)
Definition key_schema (key : string) : bool :=
  negb (key =? "")%string && safe_file_path key.

(** [Joi.string().max(1024 * 1024)]: a non-empty string of at most that many
    code units ([max] compares [value.length]). *)
Definition text_schema (s : string) : bool :=
  negb (s =? "")%string && (Z.of_nat (String.length s) <=? 1024 * 1024).

(** [Joi.object()]: an object that is neither [null] nor an array; anything
    else, a string included, fails with [object.base]. *)
Definition object_schema (v : json) : option (list (string * json)) :=
  match v with
  | JObject members => Some members
  | _ => None
  end.

(** [Joi.alternatives().try(Joi.string().max(1024 * 1024), Joi.object())]:
    the value itself when one of the two schemas matches, and otherwise the
    code of the error reported.  A value that is neither a string nor an
    object fails both schemas on their type ([alternatives.types]); a string
    fails the object schema on its type and the string schema on one rule,
    and the error of that rule is the one reported. *)
Definition content_schema (v : json) : string + json :=
  match v with
  | JString s =>
      if (s =? "")%string then inl "string.empty"
      else if Z.of_nat (String.length s) <=? 1024 * 1024 then inr v
      else inl "string.max"
  | JObject _ => inr v
  | _ => inl "alternatives.types"
  end.

(** [Joi.object().pattern(keySchema, contentSchema)] over the members: a key
    that matches the key schema has its value validated; a key that does not
    stays unknown, and unknown keys are not allowed.  The first error
    stops the validation ([abortEarly]). *)
Fixpoint pattern_members (label : string) (members : list (string * json))
  : JoiError + (FileSet * list string) :=
  match members with
  | [] => inr ([], [])
  | (k, v) :: rest =>
      if key_schema k then
        match content_schema v with
        | inl code => inl (mkJoiError code (label ++ "." ++ k))
        | inr v' =>
            match pattern_members label rest with
            | inl e => inl e
            | inr (vs, unknown) => inr ((k, v') :: vs, unknown)
            end
        end
      else
        match pattern_members label rest with
        | inl e => inl e
        | inr (vs, unknown) => inr (vs, k :: unknown)
        end
  end.

(** The [files] schema:
    [Joi.object().pattern(...).min(1).max(100).required()]. *)
Definition files_schema (v : json) : JoiError + FileSet :=
  match object_schema v with
  | None => inl (mkJoiError "object.base" "files")
  | Some members =>
      match pattern_members "files" members with
      | inl e => inl e
      | inr (vs, k :: _) => inl (mkJoiError "object.unknown" ("files." ++ k))
      | inr (vs, []) =>
          if Z.of_nat (List.length members) <? 1
          then inl (mkJoiError "object.min" "files")
          else if 100 <? Z.of_nat (List.length members)
          then inl (mkJoiError "object.max" "files")
          else inr vs
      end
  end.

Fixpoint first_other_key (known : string) (members : list (string * json))
  : option string :=
  match members with
  | [] => None
  | (k, _) :: rest =>
      if (k =? known)%string then first_other_key known rest else Some k
  end.

(** [buildPayloadSchema.validate(body)]: [inl] is the [error] of the result,
    [inr] the [files] of its [value].  [None] is an [undefined] body. *)
Definition buildPayloadSchema_validate (body : option json)
  : JoiError + FileSet :=
  match body with
  | None => inl (mkJoiError "any.required" "value")
  | Some b =>
      match object_schema b with
      | None => inl (mkJoiError "object.base" "value")
      | Some members =>
          match lookup_member "files" members with
          | None => inl (mkJoiError "any.required" "files")
          | Some f =>
              match files_schema f with
              | inl e => inl e
              | inr files =>
                  match first_other_key "files" members with
                  | Some k => inl (mkJoiError "object.unknown" k)
                  | None => inr files
                  end
              end
          end
      end
  end.

Definition allowedExtensions : list string :=
  [ ".js"; ".jsx"; ".ts"; ".tsx"; ".json"; ".html"; ".css"; ".scss"; ".sass";
    ".vue"; ".svelte"; ".astro"; ".md"; ".mdx"; ".txt"; ".env"; ".gitignore";
    ".yml"; ".yaml"; ".toml"; ".xml"; ".svg"; ".ico"; ".png"; ".jpg"; ".jpeg";
    ".gif"; ".webp"; ".woff"; ".woff2"; ".ttf"; ".eot" ].

Definition list_includes (l : list string) (s : string) : bool :=
  existsb (String.eqb s) l.

Definition validateFileExtension (filePath : string) : bool :=
  let ext := toLowerCase (Path.extname filePath) in
  list_includes allowedExtensions ext || (ext =? "")%string.

Definition mainConfigFiles : list string :=
  [ "package.json"; "vite.config.js"; "vite.config.ts"; "astro.config.mjs";
    "astro.config.js" ].

(** [validateProjectStructure(files)]: [inl message] when it throws. *)
Definition validateProjectStructure (files : FileSet) : string + bool :=
  let fileKeys := map fst files in
  let hasMainConfig := existsb (list_includes mainConfigFiles) fileKeys in
  if negb hasMainConfig then
    inl "Projeto deve conter pelo menos um arquivo de configuração principal (package.json, vite.config.js, etc.)"
  else
    match find (fun filePath => negb (validateFileExtension filePath)) fileKeys with
    | Some filePath =>
        inl ("Extensão de arquivo não permitida: " ++ Path.extname filePath)
    | None => inr true
    end.

End Validation.

(** ** Runtime: errors, the environment, and the effect monad *)

Module Js.

Inductive ErrorClass : Type :=
| PlainError
| AppErrorClass
| ReferenceErrorClass
| TypeErrorClass.

(** A thrown error object: its class, [message], and [statusCode] (set by
    [AppError] only). *)
Record JsError : Type := mkJsError {
  errorClass : ErrorClass;
  message : string;
  statusCode : option Z
}.

(** [new Error(msg)] *)
Definition Error (msg : string) : JsError := mkJsError PlainError msg None.

(** [new AppError(msg, statusCode)] (middleware/errorHandler.js) *)
Definition AppError (msg : string) (status : Z) : JsError :=
  mkJsError AppErrorClass msg (Some status).

(** What evaluating an unbound identifier throws. *)
Definition ReferenceError (ident : string) : JsError :=
  mkJsError ReferenceErrorClass (ident ++ " is not defined") None.

Definition TypeError (msg : string) : JsError :=
  mkJsError TypeErrorClass msg None.

(** What an awaited call evaluates to, where that value is looked at:
    [undefined], or a number. *)
Inductive JsValue : Type :=
| Undefined
| Number (n : Z).

Inductive Level : Type := Debug | Info | Warn | Err.

(** Calls that change the world outside the process. *)
Inductive SysCall : Type :=
| Mkdir (p : string)                 (* fs.mkdir(p, { recursive: true }) *)
| WriteFile (p data : string)        (* fs.writeFile(p, data, 'utf8') *)
| Rm (p : string)                    (* fs.rm(p, { recursive: true, force: true }) *)
| Spawn (cmd : string) (args : list string) (cwd : string)
| Kill (pid : Z).                    (* child.kill('SIGKILL') *)

(** What a run leaves behind, in order: log records (logger context, level,
    message) and system calls with whether they succeeded. *)
Inductive Effect : Type :=
| Log (context : string) (lvl : Level) (msg : string)
| Sys (call : SysCall) (ok : bool).

(** [fs.Stats] and [fs.Dirent], the fields the code reads. *)
Record Stats : Type := mkStats {
  isDirectory : bool;
  isFile : bool;
  size : Z;
  mtimeMs : Z
}.

Record Dirent : Type := mkDirent {
  name : string;
  dirent_isDirectory : bool
}.

Record StatFs : Type := mkStatFs {
  bavail : Z;
  bsize : Z;
  blocks : Z
}.

(** What a recursive scan sees at a path: a directory with the outcome of
    [fs.readdir] on it (an error message, or its entries with what the scan
    sees at each), or an entry that is not a directory with the outcome of
    [fs.stat] on it (an error message, or [stats.size]). *)
Inductive FsNode : Type :=
| Directory (listing : string + list (string * FsNode))
| NotDirectory (st : string + Z).

(** Events of a spawned child, as the handlers registered by [runCommand]
    receive them. *)
Inductive ChildEvent : Type :=
| StdoutData (data : string)
| StderrData (data : string)
| Close (code : option Z)            (* [None] is a [null] exit code *)
| ErrorEvent (msg : string).

(** The life of one child: its process id, the events delivered before the
    timer set by [runCommand] is due, and those delivered after. *)
Record ChildScript : Type := mkChildScript {
  pid : Z;
  beforeDeadline : list ChildEvent;
  afterDeadline : list ChildEvent
}.

(** The world outside the process, as one run observes it: what each call
    answers, by its arguments.  A result of type [string + A] is the
    [message] of the error thrown, or the value.  [fs_scan] is what the
    recursive scan of [getDirectorySize] sees from a path down, and
    [child_process] the life of the child that [spawn] starts for a command
    line and a working directory.  Where several calls are in flight at
    once, [completes_next] tells which of them completes next: its position
    among them in the order in which they were started, counted modulo
    their number, given what the run has left so far. *)
Record Env : Type := mkEnv {
  JSON_parse : string -> option json;
  JSON_stringify : json -> string;           (* JSON.stringify(v, null, 2) *)
  Date_now : nat -> Z;                       (* successive readings *)
  nanoid : string;
  fs_statfs : string -> string + StatFs;
  fs_stat : string -> string + Stats;
  fs_readdir : string -> string + list Dirent;
  fs_readFile : string -> string + string;
  fs_scan : string -> FsNode;
  fs_mkdir : string -> string + unit;
  fs_writeFile : string -> string -> string + unit;
  fs_rm : string -> string + unit;
  child_process : string -> list string -> string -> ChildScript;
  completes_next : list Effect -> nat
}.

(** The settings the code reads from [config/index.js]. *)
Record Config : Type := mkConfig {
  previewsDir : string;
  maxFiles : Z;
  maxProjectSize : Z;
  previewMaxAgeMs : Z;
  buildTimeoutMs : Z;
  packageManager : string
}.

Record Ctx : Type := mkCtx {
  config : Config;
  env : Env
}.

Record World : Type := mkWorld {
  trace : list Effect;
  clockReads : nat
}.

Definition initial : World := mkWorld [] 0.

(** How an awaited computation ends: with a value, with a thrown error, or
    never ([Pending]: the promise awaited is never settled). *)
Inductive Outcome (A : Type) : Type :=
| Return (a : A)
| Throw (e : JsError)
| Pending.

Arguments Return {A} a.
Arguments Throw {A} e.
Arguments Pending {A}.

Definition M (A : Type) : Type := Ctx -> World -> Outcome A * World.

Definition ret {A} (a : A) : M A := fun _ w => (Return a, w).

Definition bind {A B} (m : M A) (k : A -> M B) : M B :=
  fun c w =>
    match m c w with
    | (Return a, w') => k a c w'
    | (Throw e, w') => (Throw e, w')
    | (Pending, w') => (Pending, w')
    end.

Definition throw {A} (e : JsError) : M A := fun _ w => (Throw e, w).

(** Awaiting a promise that is never settled. *)
Definition pending {A} : M A := fun _ w => (Pending, w).

(** [try { body } catch (error) { handler }] *)
Definition try_catch {A} (body : M A) (handler : JsError -> M A) : M A :=
  fun c w =>
    match body c w with
    | (Throw e, w') => handler e c w'
    | r => r
    end.

Definition ask : M Ctx := fun c w => (Return c, w).

(** What the run has left so far. *)
Definition history : M (list Effect) := fun _ w => (Return (trace w), w).

Definition emit (e : Effect) : M unit :=
  fun _ w => (Return tt, mkWorld (trace w ++ [e]) (clockReads w)).

Definition emit_all (es : list Effect) : M unit :=
  fun _ w => (Return tt, mkWorld (trace w ++ es) (clockReads w)).

(** [Date.now()] *)
Definition now : M Z :=
  fun c w =>
    (Return (Date_now (env c) (clockReads w)),
     mkWorld (trace w) (S (clockReads w))).

(** A call that only reads: its result, or the error thrown. *)
Definition observe {A} (f : Env -> string + A) : M A :=
  fun c w =>
    match f (env c) with
    | inl msg => (Throw (Error msg), w)
    | inr a => (Return a, w)
    end.

(** A call that changes the world: recorded with its outcome. *)
Definition perform (call : SysCall) (f : Env -> string + unit) : M unit :=
  fun c w =>
    match f (env c) with
    | inl msg => (Throw (Error msg), mkWorld (trace w ++ [Sys call false]) (clockReads w))
    | inr _ => (Return tt, mkWorld (trace w ++ [Sys call true]) (clockReads w))
    end.

Definition run {A} (m : M A) (c : Ctx) : Outcome A * World := m c initial.

End Js.

Declare Scope js_scope.
Delimit Scope js_scope with js.
Notation "x <- m ;; k" := (Js.bind m (fun x => k))
  (at level 61, m at next level, right associativity) : js_scope.
Notation "m ;; k" := (Js.bind m (fun _ => k))
  (at level 61, right associativity) : js_scope.

(** ** utils/fileSystem.js *)

Module FileSystem.
Import Js.
Local Open Scope js_scope.

Definition logger (lvl : Level) (msg : string) : M unit :=
  emit (Log "FileSystem" lvl msg).

(** [ensureDirectory(dirPath)] *)
Definition ensureDirectory (dirPath : string) : M unit :=
  try_catch
    (perform (Mkdir dirPath) (fun e => fs_mkdir e dirPath) ;;
     logger Debug ("Diretório criado/verificado: " ++ dirPath))
    (fun error =>
       logger Err ("Erro ao criar diretório " ++ dirPath ++ ":") ;;
       throw (Error ("Falha ao criar diretório: " ++ message error))).

(** [typeof content === 'string' ? content : JSON.stringify(content, null, 2)] *)
Definition fileContent (e : Env) (content : json) : string :=
  match content with
  | JString s => s
  | _ => JSON_stringify e content
  end.

(** [writeFileSecure(filePath, content)] *)
Definition writeFileSecure (filePath : string) (content : json) : M unit :=
  try_catch
    (ensureDirectory (Path.dirname filePath) ;;
     c <- ask ;;
     let data := fileContent (env c) content in
     perform (WriteFile filePath data) (fun e => fs_writeFile e filePath data) ;;
     logger Debug ("Arquivo escrito: " ++ filePath))
    (fun error =>
       logger Err ("Erro ao escrever arquivo " ++ filePath ++ ":") ;;
       throw (Error ("Falha ao escrever arquivo: " ++ message error))).

(** [writeFileSecure] waits for the file system twice.  Its first part runs
    when the [fs.mkdir] of [ensureDirectory] has completed, its second part
    when [fs.writeFile] has; an error of either part is caught by the
    [catch] block of the function. *)
Definition writeFileSecure_catch (filePath : string) (error : JsError) : M unit :=
  logger Err ("Erro ao escrever arquivo " ++ filePath ++ ":") ;;
  throw (Error ("Falha ao escrever arquivo: " ++ message error)).

Definition writeFileSecure_mkdir (filePath : string) : M unit :=
  try_catch (ensureDirectory (Path.dirname filePath))
    (writeFileSecure_catch filePath).

Definition writeFileSecure_write (filePath : string) (content : json) : M unit :=
  try_catch
    (c <- ask ;;
     let data := fileContent (env c) content in
     perform (WriteFile filePath data) (fun e => fs_writeFile e filePath data) ;;
     logger Debug ("Arquivo escrito: " ++ filePath))
    (writeFileSecure_catch filePath).

(** [directoryExists(dirPath)] *)
Definition directoryExists (dirPath : string) : M bool :=
  try_catch
    (stats <- observe (fun e => fs_stat e dirPath) ;;
     ret (isDirectory stats))
    (fun _ => ret false).

(** [fileExists(filePath)] *)
Definition fileExists (filePath : string) : M bool :=
  try_catch
    (stats <- observe (fun e => fs_stat e filePath) ;;
     ret (isFile stats))
    (fun _ => ret false).

Definition sizeErrorLog (dirPath : string) : Effect :=
  Log "FileSystem" Err ("Erro ao calcular tamanho do diretório " ++ dirPath ++ ":").

(** The [for (const file of files)] loop of [getDirectorySize], given the
    function called on a subdirectory: [inr] is [totalSize] after the last
    entry, [inl] is a [stat] that throws; both carry the records logged by
    the calls on subdirectories. *)
Definition sumEntries (recur : string -> FsNode -> Z * list Effect)
    (dirPath : string)
  : list (string * FsNode) -> Z -> list Effect -> list Effect + Z * list Effect :=
  fix loop (files : list (string * FsNode)) (totalSize : Z)
           (logs : list Effect) : list Effect + Z * list Effect :=
    match files with
    | [] => inr (totalSize, logs)
    | (fileName, file) :: rest =>
        let filePath := Path.join dirPath fileName in
        match file with
        | Directory _ =>
            let '(sub, subLogs) := recur filePath file in
            loop rest (totalSize + sub) (logs ++ subLogs)%list
        | NotDirectory (inl _) => inl logs
        | NotDirectory (inr fileSize) => loop rest (totalSize + fileSize) logs
        end
    end.

(** [getDirectorySize(dirPath)] on what the scan sees at [dirPath]: the sum
    computed and the records logged.  A throw inside the [try] block (from
    [readdir], or from a [stat] in the loop) is caught by the [catch] of the
    same call, which logs and returns 0; a recursive call has its own
    [try]/[catch]. *)
Fixpoint getDirectorySize_at (dirPath : string) (node : FsNode)
  : Z * list Effect :=
  match node with
  | NotDirectory _ => (0, [sizeErrorLog dirPath])
  | Directory (inl _) => (0, [sizeErrorLog dirPath])
  | Directory (inr files) =>
      match sumEntries getDirectorySize_at dirPath files 0 [] with
      | inl logs => (0, (logs ++ [sizeErrorLog dirPath])%list)
      | inr result => result
      end
  end.

Definition getDirectorySize (dirPath : string) : M Z :=
  c <- ask ;;
  let '(totalSize, logs) := getDirectorySize_at dirPath (fs_scan (env c) dirPath) in
  emit_all logs ;;
  ret totalSize.

(** [removeDirectory(dirPath)] *)
Definition removeDirectory (dirPath : string) : M unit :=
  try_catch
    (perform (Rm dirPath) (fun e => fs_rm e dirPath) ;;
     logger Debug ("Diretório removido: " ++ dirPath))
    (fun error =>
       logger Err ("Erro ao remover diretório " ++ dirPath ++ ":") ;;
       throw (Error ("Falha ao remover diretório: " ++ message error))).

(** The [for (const entry of entries)] loop of [cleanupOldPreviews]; the
    value is [cleanedCount] after the last entry. *)
Fixpoint cleanupEntries (previewsDir : string) (now maxAgeMs : Z)
    (entries : list Dirent) (cleanedCount : Z) : M Z :=
  match entries with
  | [] => ret cleanedCount
  | entry :: rest =>
      if dirent_isDirectory entry then
        let dirPath := Path.join previewsDir (name entry) in
        stats <- observe (fun e => fs_stat e dirPath) ;;
        let ageMs := now - mtimeMs stats in
        if ageMs >? maxAgeMs then
          removeDirectory dirPath ;;
          logger Info ("Preview antigo removido: " ++ name entry) ;;
          cleanupEntries previewsDir now maxAgeMs rest (cleanedCount + 1)
        else cleanupEntries previewsDir now maxAgeMs rest cleanedCount
      else cleanupEntries previewsDir now maxAgeMs rest cleanedCount
  end.

(** [cleanupOldPreviews()].  No [return] of the function carries a value:
    the promise it returns resolves to [undefined]. *)
Definition cleanupOldPreviews : M JsValue :=
  try_catch
    (c <- ask ;;
     let previewsDir := previewsDir (config c) in
     present <- directoryExists previewsDir ;;
     if negb present then ret Undefined
     else
       entries <- observe (fun e => fs_readdir e previewsDir) ;;
       now <- now ;;
       cleanedCount <-
         cleanupEntries previewsDir now (previewMaxAgeMs (config c)) entries 0 ;;
       (if cleanedCount >? 0 then
          logger Info ("Limpeza concluída: " ++ JsString.of_Z cleanedCount
                       ++ " previews removidos")
        else ret tt) ;;
       ret Undefined)
    (fun error =>
       logger Err "Erro durante limpeza automática:" ;;
       ret Undefined).

(** The snapshot [checkDiskSpace] returns: four doubles.  With no blocks
    at all [usagePercent] is [NaN] or an infinity. *)
Record DiskSnapshot : Type := mkDiskSnapshot {
  free : float;
  total : float;
  used : float;
  usagePercent : float
}.

(** [checkDiskSpace()]; [None] is [null]. *)
Definition checkDiskSpace : M (option DiskSnapshot) :=
  try_catch
    (c <- ask ;;
     stats <- observe (fun e => fs_statfs e (previewsDir (config c))) ;;
     let freeBytes :=
       (JsNumber.of_Z (bavail stats) * JsNumber.of_Z (bsize stats))%float in
     let totalBytes :=
       (JsNumber.of_Z (blocks stats) * JsNumber.of_Z (bsize stats))%float in
     let usedBytes := (totalBytes - freeBytes)%float in
     let usagePercent := ((usedBytes / totalBytes) * 100)%float in
     ret (Some (mkDiskSnapshot freeBytes totalBytes usedBytes
                  (JsNumber.Math_round (usagePercent * 100) / 100)%float)))
    (fun error =>
       logger Err "Erro ao verificar espaço em disco:" ;;
       ret None).

End FileSystem.

(** ** services/buildService.js *)

Module BuildService.
Import Js.
Local Open Scope js_scope.

Definition logger (lvl : Level) (msg : string) : Effect :=
  Log "BuildService" lvl msg.

(** How the promise returned by [runCommand] is settled. *)
Inductive Settlement : Type :=
| Resolved (out err : string)        (* resolve({ stdout, stderr }) *)
| Rejected (e : JsError).

(** The variables the callbacks of one [runCommand] call share, with what
    they have done so far: [timerArmed] holds while the timeout is scheduled
    (set by [setTimeout], reset by [clearTimeout] and by its own firing),
    [settled] is the state of the promise, [effects] the log records and
    signals sent. *)
Record ChildState : Type := mkChildState {
  stdout : string;
  stderr : string;
  isTimedOut : bool;
  timerArmed : bool;
  settled : option Settlement;
  effects : list Effect
}.

Definition initialChildState : ChildState :=
  mkChildState "" "" false true None [].

(** [resolve] and [reject] settle the promise once; later calls do nothing. *)
Definition settle (s : Settlement) (st : ChildState) : ChildState :=
  match settled st with
  | Some _ => st
  | None =>
      mkChildState (stdout st) (stderr st) (isTimedOut st) (timerArmed st)
        (Some s) (effects st)
  end.

Definition record (es : list Effect) (st : ChildState) : ChildState :=
  mkChildState (stdout st) (stderr st) (isTimedOut st) (timerArmed st)
    (settled st) (effects st ++ es).

Definition clearTimeout (st : ChildState) : ChildState :=
  mkChildState (stdout st) (stderr st) (isTimedOut st) false
    (settled st) (effects st).

Definition commandLine (cmd : string) (args : list string) : string :=
  cmd ++ " " ++ JsString.join " " args.

Definition timeoutMessage (cmd : string) (args : list string) (timeoutMs : Z)
  : string :=
  "Comando expirou após " ++ JsString.of_Z timeoutMs ++ "ms: "
  ++ commandLine cmd args.

Definition showCode (code : option Z) : string :=
  match code with
  | Some n => JsString.of_Z n
  | None => "null"
  end.

(** [a || b] on strings: the empty string is falsy. *)
Definition orElse (a b : string) : string :=
  if (a =? "")%string then b else a.

Definition exitMessage (code : option Z) (out err : string) : string :=
  "Comando falhou (código " ++ showCode code ++ "): "
  ++ orElse (JsString.trim err) (JsString.trim out).

Section RunCommand.

Variables (cmd : string) (args : list string) (projectDir : string)
          (timeoutMs : Z) (childPid : Z).

(** The callback given to [setTimeout] (lines 26-30). *)
Definition onTimeout (st : ChildState) : ChildState :=
  let st := mkChildState (stdout st) (stderr st) true false
              (settled st) (effects st) in
  let st := record [Sys (Kill childPid) true] st in
  settle (Rejected (Error (timeoutMessage cmd args timeoutMs))) st.

(** [child.stdout.on('data', ...)] and [child.stderr.on('data', ...)] *)
Definition onStdout (data : string) (st : ChildState) : ChildState :=
  record [logger Debug ("STDOUT: " ++ JsString.trim data)]
    (mkChildState (stdout st ++ data) (stderr st) (isTimedOut st)
       (timerArmed st) (settled st) (effects st)).

Definition onStderr (data : string) (st : ChildState) : ChildState :=
  record [logger Debug ("STDERR: " ++ JsString.trim data)]
    (mkChildState (stdout st) (stderr st ++ data) (isTimedOut st)
       (timerArmed st) (settled st) (effects st)).

(** [child.on('close', ...)] (lines 45-63) *)
Definition onClose (code : option Z) (st : ChildState) : ChildState :=
  let st := clearTimeout st in
  if isTimedOut st then st
  else
    match code with
    | Some 0 =>
        settle (Resolved (JsString.trim (stdout st)) (JsString.trim (stderr st)))
          (record [logger Info ("Comando executado com sucesso: " ++ cmd)] st)
    | _ =>
        settle (Rejected (Error (exitMessage code (stdout st) (stderr st))))
          (record [logger Err ("Comando falhou com código " ++ showCode code ++ ":")] st)
    end.

(** [child.on('error', ...)] (lines 65-69) *)
Definition onError (msg : string) (st : ChildState) : ChildState :=
  let st := clearTimeout st in
  settle (Rejected (Error ("Erro ao executar comando: " ++ msg)))
    (record [logger Err "Erro ao executar comando:"] st).

Definition onChildEvent (ev : ChildEvent) (st : ChildState) : ChildState :=
  match ev with
  | StdoutData data => onStdout data st
  | StderrData data => onStderr data st
  | Close code => onClose code st
  | ErrorEvent msg => onError msg st
  end.

(** The timer coming due: its callback runs only while it is scheduled. *)
Definition timerDue (st : ChildState) : ChildState :=
  if timerArmed st then onTimeout st else st.

Definition deliver (evs : list ChildEvent) (st : ChildState) : ChildState :=
  fold_left (fun st ev => onChildEvent ev st) evs st.

(** The callbacks run in the order of the script: the events before the
    deadline, the timer, the events after it. *)
Definition supervise (script : ChildScript) : ChildState :=
  deliver (afterDeadline script)
    (timerDue (deliver (beforeDeadline script) initialChildState)).

(** The same callbacks, one by one. *)
Definition callbacks (script : ChildScript) : list (ChildState -> ChildState) :=
  (map onChildEvent (beforeDeadline script)
   ++ timerDue :: map onChildEvent (afterDeadline script))%list.

(** The callbacks up to the one that settles the promise.  The code that
    awaits the promise goes on as soon as it is settled; what the callbacks
    after that one log is written later. *)
Fixpoint untilSettled (fs : list (ChildState -> ChildState)) (st : ChildState)
  : ChildState :=
  match settled st, fs with
  | None, f :: rest => untilSettled rest (f st)
  | _, _ => st
  end.

Definition atSettlement (script : ChildScript) : ChildState :=
  untilSettled (callbacks script) initialChildState.

End RunCommand.

(** [runCommand(cmd, args, projectDir, timeoutMs)], awaited: the records
    are those written when the promise is settled. *)
Definition runCommand (cmd : string) (args : list string) (projectDir : string)
    (timeoutMs : Z) : M (string * string) :=
  emit (logger Info ("Executando comando: " ++ commandLine cmd args)) ;;
  emit (Sys (Spawn cmd args projectDir) true) ;;
  c <- ask ;;
  let script := child_process (env c) cmd args projectDir in
  let st := atSettlement cmd args timeoutMs (pid script) script in
  emit_all (effects st) ;;
  match settled st with
  | Some (Resolved out err) => ret (out, err)
  | Some (Rejected e) => throw e
  | None => pending
  end.

(** [runCommand(cmd, args, projectDir)]: the default timeout is
    [config.buildTimeoutMs]. *)
Definition runCommandDefault (cmd : string) (args : list string)
    (projectDir : string) : M (string * string) :=
  c <- ask ;;
  runCommand cmd args projectDir (buildTimeoutMs (config c)).

(** JavaScript truthiness of a parsed value. *)
Definition truthy (v : json) : bool :=
  match v with
  | JNull => false
  | JBool b => b
  | JNumber n => negb (n =? 0)
  | JString s => negb (s =? "")%string
  | JArray _ | JObject _ => true
  end.

(** [packageJson.dependencies]: [inl] when reading the property throws
    ([packageJson] is [null]), [inr None] when it is [undefined]. *)
Definition getProperty (v : json) (k : string) : JsError + option json :=
  match v with
  | JNull => inl (TypeError ("Cannot read properties of null (reading '" ++ k ++ "')"))
  | JObject members => inr (lookup_member k members)
  | _ => inr None
  end.

(** The named members [{ ...v }] copies: those of an object; a string or an
    array contributes index keys only, and nothing else contributes. *)
Definition spreadMembers (v : option json) : list (string * json) :=
  match v with
  | Some (JObject members) => members
  | _ => []
  end.

(** [deps[k]] for [deps = { ...dependencies, ...devDependencies }], as a
    condition: the later spread wins. *)
Definition depTruthy (dependencies devDependencies : option json) (k : string)
  : bool :=
  match lookup_member k (spreadMembers devDependencies) with
  | Some v => truthy v
  | None =>
      match lookup_member k (spreadMembers dependencies) with
      | Some v => truthy v
      | None => false
      end
  end.

Definition classifyDependencies (dependencies devDependencies : option json)
  : string :=
  let has := depTruthy dependencies devDependencies in
  if has "astro" then "astro"
  else if has "vite" || has "@vitejs/plugin-react" then "vite"
  else if has "react" then "react"
  else if has "vue" then "vue"
  else if has "svelte" then "svelte"
  else "generic".

Definition lift {A} (r : JsError + A) : M A :=
  match r with
  | inl e => throw e
  | inr a => ret a
  end.

(** [a || b] on awaited conditions: [b] is awaited only when [a] is false. *)
Definition orM (a b : M bool) : M bool :=
  x <- a ;; if x then ret true else b.

(** [detectProjectType(projectDir)] *)
Definition detectProjectType (projectDir : string) : M string :=
  let packageJsonPath := Path.join projectDir "package.json" in
  hasManifest <- FileSystem.fileExists packageJsonPath ;;
  fromManifest <-
    (if hasManifest then
       try_catch
         (text <- observe (fun e => fs_readFile e packageJsonPath) ;;
          c <- ask ;;
          packageJson <-
            match JSON_parse (env c) text with
            | Some v => ret v
            | None => throw (Error "Unexpected token in JSON")
            end ;;
          dependencies <- lift (getProperty packageJson "dependencies") ;;
          devDependencies <- lift (getProperty packageJson "devDependencies") ;;
          ret (Some (classifyDependencies dependencies devDependencies)))
         (fun error =>
            emit (logger Warn "Erro ao ler package.json:") ;;
            ret None)
     else ret None) ;;
  match fromManifest with
  | Some projectType => ret projectType
  | None =>
      isAstro <- orM (FileSystem.fileExists (Path.join projectDir "astro.config.mjs"))
                     (FileSystem.fileExists (Path.join projectDir "astro.config.js")) ;;
      if isAstro then ret "astro"
      else
        isVite <- orM (FileSystem.fileExists (Path.join projectDir "vite.config.js"))
                      (FileSystem.fileExists (Path.join projectDir "vite.config.ts")) ;;
        if isVite then ret "vite" else ret "generic"
  end.

(** The [tools] array of [checkBuildTools] (lines 112-118). *)
Definition requiredTools (packageManager : string) : list string :=
  (["node"; "npm"]
   ++ (if (packageManager =? "pnpm")%string then ["pnpm"]
       else if (packageManager =? "yarn")%string then ["yarn"]
       else []))%list.

(** The [for (const tool of tools)] loop of [checkBuildTools]. *)
Fixpoint probeTools (cwd : string) (tools : list string) : M unit :=
  match tools with
  | [] => ret tt
  | tool :: rest =>
      try_catch
        (runCommand "which" [tool] cwd 5000 ;;
         emit (logger Debug ("Ferramenta encontrada: " ++ tool)))
        (fun error =>
           throw (Error ("Ferramenta necessária não encontrada: " ++ tool))) ;;
      probeTools cwd rest
  end.

(** [checkBuildTools()]; [cwd] is what [process.cwd()] returns. *)
Definition checkBuildTools (cwd : string) : M bool :=
  c <- ask ;;
  probeTools cwd (requiredTools (packageManager (config c))) ;;
  ret true.

(** [installDependencies(projectDir)] *)
Definition installDependencies (projectDir : string) : M unit :=
  emit (logger Info "Instalando dependências...") ;;
  try_catch
    (c <- ask ;;
     let packageManager := packageManager (config c) in
     let installCmd := packageManager in
     let installArgs :=
       if (packageManager =? "npm")%string then ["install"; "--silent"]
       else ["install"] in
     try_catch
       (if (packageManager =? "pnpm")%string then
          runCommand "which" ["pnpm"] projectDir 5000 ;;
          runCommandDefault installCmd installArgs projectDir ;;
          ret tt
        else
          runCommandDefault installCmd installArgs projectDir ;;
          ret tt)
       (fun error =>
          if (packageManager =? "pnpm")%string then
            emit (logger Warn "pnpm falhou, tentando com npm...") ;;
            runCommandDefault "npm" ["install"; "--silent"] projectDir ;;
            ret tt
          else throw error) ;;
     emit (logger Info "Dependências instaladas com sucesso"))
    (fun error =>
       emit (logger Err "Erro ao instalar dependências:") ;;
       throw (Error ("Falha na instalação de dependências: " ++ message error))).

Definition possibleDistDirs : list string := ["dist"; "build"; "out"; ".next"].

(** The [for (const dir of possibleDistDirs)] loop of [runBuild]: the first
    candidate that is a directory, or [None] for [null]. *)
Fixpoint findDistDir (projectDir : string) (dirs : list string)
  : M (option string) :=
  match dirs with
  | [] => ret None
  | dir :: rest =>
      found <- FileSystem.directoryExists (Path.join projectDir dir) ;;
      if found then ret (Some dir) else findDistDir projectDir rest
  end.

(** What [runBuild] resolves to. *)
Record BuildResult : Type := mkBuildResult {
  projectType : string;
  distDir : string
}.

(** [runBuild(projectDir)] *)
Definition runBuild (projectDir : string) : M BuildResult :=
  emit (logger Info "Iniciando processo de build...") ;;
  try_catch
    (projectType <- detectProjectType projectDir ;;
     emit (logger Info ("Tipo de projeto detectado: " ++ projectType)) ;;
     runCommand "which" ["node"] projectDir 5000 ;;
     runCommand "which" ["npm"] projectDir 5000 ;;
     installDependencies projectDir ;;
     let buildCmd := "npm" in
     let buildArgs := ["run"; "build"] in
     runCommandDefault buildCmd buildArgs projectDir ;;
     distDir <- findDistDir projectDir possibleDistDirs ;;
     match distDir with
     | None =>
         throw (Error "Diretório de build não encontrado. Verifique se o script de build está configurado corretamente.")
     | Some distDir =>
         emit (logger Info ("Build concluído com sucesso. Diretório: " ++ distDir)) ;;
         ret (mkBuildResult projectType distDir)
     end)
    (fun error =>
       emit (logger Err "Erro durante o processo de build:") ;;
       throw error).

End BuildService.

(** ** routes/build.js *)

Module BuildRoute.
Import Js.
Local Open Scope js_scope.

Definition logger (lvl : Level) (msg : string) : M unit :=
  emit (Log "BuildRoute" lvl msg).

(** The parts of the Express request the handler reads. *)
Record Request : Type := mkRequest {
  body : option json;
  requestId : string;
  protocol : string;
  host : string
}.

(** The [data] of the success response. *)
Record BuildData : Type := mkBuildData {
  projectId : string;
  url : string;
  projectType : string;
  buildTime : Z;
  fileCount : Z;
  projectSize : Z
}.

(** How the handler answers: [res.json({ success: true, data })] or
    [next(error)]. *)
Inductive Reply : Type :=
| Json (data : BuildData)
| Next (error : JsError).

(** The identifiers bound where line 83 is evaluated: the imports and
    constants of the module, the parameters of the handler, and the
    variables the handler declares. *)
Definition moduleBindings : list string :=
  [ "express"; "nanoid"; "path"; "createContextLogger"; "buildPayloadSchema";
    "validateProjectStructure"; "writeFileSecure"; "ensureDirectory";
    "getDirectorySize"; "checkDiskSpace"; "removeDirectory"; "runBuild";
    "AppError"; "config"; "router"; "logger" ].

Definition handlerBindings : list string :=
  [ "req"; "res"; "next"; "startTime"; "projectId"; "projectDir";
    "diskSpace"; "error"; "value"; "files"; "fileCount"; "writePromises";
    "projectSize"; "buildResult"; "previewUrl"; "duration" ].

(** Properties of the global object of Node that a module can name. *)
Definition globalBindings : list string :=
  [ "globalThis"; "global"; "process"; "console"; "Buffer"; "URL";
    "URLSearchParams"; "TextEncoder"; "TextDecoder"; "AbortController";
    "AbortSignal"; "Event"; "EventTarget"; "fetch"; "performance";
    "queueMicrotask"; "structuredClone"; "setTimeout"; "clearTimeout";
    "setInterval"; "clearInterval"; "setImmediate"; "clearImmediate";
    "Object"; "Function"; "Array"; "Number"; "String"; "Boolean"; "Symbol";
    "BigInt"; "Math"; "JSON"; "Date"; "RegExp"; "Promise"; "Proxy";
    "Reflect"; "Map"; "Set"; "WeakMap"; "WeakSet"; "Error"; "TypeError";
    "RangeError"; "ReferenceError"; "SyntaxError"; "EvalError"; "URIError";
    "parseInt"; "parseFloat"; "isNaN"; "isFinite"; "NaN"; "Infinity";
    "undefined"; "encodeURIComponent"; "decodeURIComponent"; "encodeURI";
    "decodeURI"; "escape"; "unescape"; "eval"; "Intl"; "WebAssembly";
    "ArrayBuffer"; "DataView"; "Int8Array"; "Uint8Array"; "Atomics";
    "SharedArrayBuffer" ].

Definition scopeAtLine83 : list string :=
  (handlerBindings ++ moduleBindings ++ globalBindings)%list.

(** Evaluating an identifier: a [ReferenceError] unless it is bound. *)
Definition resolveIdentifier (ident : string) : M unit :=
  if Validation.list_includes scopeAtLine83 ident then ret tt
  else throw (ReferenceError ident).

(** A call on the file system that has been started and has not completed:
    the [fs.mkdir] ([mkdirDone] false) or the [fs.writeFile] ([mkdirDone]
    true) of a [writeFileSecure] started by line 65, or the [fs.rm] of the
    [removeDirectory] of line 124. *)
Inductive InFlight : Type :=
| Writing (fullPath : string) (content : json) (mkdirDone : bool)
| Removing (dirPath : string).

(** The calls on the file system that the promise behind a call in flight
    still has to wait for. *)
Definition callsLeft (op : InFlight) : nat :=
  match op with
  | Writing _ _ false => 2
  | _ => 1
  end.

Definition callsLeftIn (pool : list InFlight) : nat :=
  list_sum (map callsLeft pool).

(** The call in flight that completes next, and the others. *)
Definition pick (e : Env) (past : list Effect) (first : InFlight)
    (others : list InFlight) : InFlight * list InFlight :=
  let pool := first :: others in
  let i := Nat.modulo (completes_next e past) (List.length pool) in
  (nth i pool first, (firstn i pool ++ skipn (S i) pool)%list).

(** What runs when a call in flight completes, up to the next call on the
    file system: the value is that call, or [None] when the promise is
    fulfilled; a throw is its rejection. *)
Definition complete (op : InFlight) : M (option InFlight) :=
  match op with
  | Writing fullPath content false =>
      FileSystem.writeFileSecure_mkdir fullPath ;;
      ret (Some (Writing fullPath content true))
  | Writing fullPath content true =>
      FileSystem.writeFileSecure_write fullPath content ;;
      ret None
  | Removing dirPath =>
      FileSystem.removeDirectory dirPath ;;
      ret None
  end.

(** One of the calls in flight completes.  The value is that call, how its
    promise is settled by it ([None] while it goes on with another call,
    which is then the last one started), and the calls in flight
    afterwards. *)
Definition completeNext (first : InFlight) (others : list InFlight)
  : M (InFlight * option (JsError + unit) * list InFlight) :=
  c <- ask ;;
  past <- history ;;
  let '(op, rest) := pick (env c) past first others in
  settled <-
    try_catch (next <- complete op ;; ret (inr next))
      (fun error => ret (inl error)) ;;
  match settled with
  | inr (Some next) => ret (op, None, (rest ++ [next])%list)
  | inr None => ret (op, Some (inr tt), rest)
  | inl error => ret (op, Some (inl error), rest)
  end.

(** [await Promise.all(writePromises)] with the calls of [pool] in flight:
    [inr tt] once every promise is fulfilled, and [inl] at the first
    rejection, with the error and the calls still in flight then.  [steps]
    bounds the number of completions; [callsLeftIn pool] are enough. *)
Fixpoint Promise_all_steps (steps : nat) (pool : list InFlight)
  : M (JsError * list InFlight + unit) :=
  match pool, steps with
  | [], _ => ret (inr tt)
  | first :: others, S steps =>
      completed <- completeNext first others ;;
      let '(_, settled, pool) := completed in
      match settled with
      | Some (inl error) => ret (inl (error, pool))
      | _ => Promise_all_steps steps pool
      end
  | _ :: _, O => pending
  end.

Definition Promise_all (pool : list InFlight)
  : M (JsError * list InFlight + unit) :=
  Promise_all_steps (callsLeftIn pool) pool.

(** [await removeDirectory(...)] of line 124 with the calls of [pool] in
    flight, the [fs.rm] among them: how the promise of [removeDirectory] is
    settled, and the calls still in flight then.  A write that settles in
    the meantime is waited for by nobody. *)
Fixpoint awaitRemoval_steps (steps : nat) (pool : list InFlight)
  : M ((JsError + unit) * list InFlight) :=
  match pool, steps with
  | first :: others, S steps =>
      completed <- completeNext first others ;;
      let '(op, settled, pool) := completed in
      match op, settled with
      | Removing _, Some removed => ret (removed, pool)
      | _, _ => awaitRemoval_steps steps pool
      end
  | _, _ => pending
  end.

Definition awaitRemoval (pool : list InFlight)
  : M ((JsError + unit) * list InFlight) :=
  awaitRemoval_steps (callsLeftIn pool) pool.

(** What is still in flight when the handler has answered goes on until
    it is settled. *)
Fixpoint settleAll_steps (steps : nat) (pool : list InFlight) : M unit :=
  match pool, steps with
  | [], _ => ret tt
  | first :: others, S steps =>
      completed <- completeNext first others ;;
      let '(_, _, pool) := completed in
      settleAll_steps steps pool
  | _ :: _, O => pending
  end.

Definition settleAll (pool : list InFlight) : M unit :=
  settleAll_steps (callsLeftIn pool) pool.

(** Lines 63-66: every [writeFileSecure] is called, in [Object.entries]
    order, and runs up to its [fs.mkdir], which is then in flight. *)
Definition startWrites (projectDir : string) (files : FileSet) : list InFlight :=
  map (fun entry =>
         let '(filePath, content) := entry in
         let fullPath := Path.join projectDir filePath in
         Writing fullPath content false) files.

(** Lines 63-68: the writes are started together and awaited with
    [Promise.all], which rethrows the first rejection. *)
Definition writeFiles (projectDir : string) (files : FileSet) : M unit :=
  settled <- Promise_all (startWrites projectDir files) ;;
  match settled with
  | inl (error, _) => throw error
  | inr _ => ret tt
  end.

(** [Math.round(bytes / 1024 / 1024)] *)
Definition megabytes (bytes : Z) : Z := JsNumber.round_div bytes (1024 * 1024).

(** Lines 20-47: the [try] block up to the point where [projectId] and
    [projectDir] are assigned.  Its value is [files] and [fileCount]. *)
Definition accept_request (req : Request) : M (FileSet * Z) :=
  logger Info "Nova requisição de build recebida" ;;
  diskSpace <- FileSystem.checkDiskSpace ;;
  match diskSpace with
  | Some snapshot =>
      if (90 <? FileSystem.usagePercent snapshot)%float
      then throw (AppError "Espaço em disco insuficiente" 507)
      else ret tt
  | None => ret tt
  end ;;
  c <- ask ;;
  files <-
    match Validation.buildPayloadSchema_validate (body req) with
    | inl error =>
        throw (AppError ("Erro de validação: " ++ Validation.joi_message error) 400)
    | inr files => ret files
    end ;;
  match Validation.validateProjectStructure files with
  | inl msg => throw (Error msg)
  | inr _ => ret tt
  end ;;
  let fileCount := Z.of_nat (List.length files) in
  if fileCount >? maxFiles (config c) then
    throw (AppError ("Muitos arquivos: " ++ JsString.of_Z fileCount
                     ++ ". Máximo permitido: " ++ JsString.of_Z (maxFiles (config c))) 400)
  else ret (files, fileCount).

(** Lines 53-71: the project directory is created, the files are written
    and the directory is measured.  The value is [projectSize]. *)
Definition stage_project (projectDir : string) (files : FileSet) : M Z :=
  logger Info "Iniciando criação do projeto" ;;
  FileSystem.ensureDirectory projectDir ;;
  writeFiles projectDir files ;;
  FileSystem.getDirectorySize projectDir.

(** Lines 72-80: the check of the staged size. *)
Definition check_project_size (projectSize : Z) : M unit :=
  c <- ask ;;
  (if projectSize >? maxProjectSize (config c) then
     throw (AppError ("Projeto muito grande: " ++ JsString.of_Z (megabytes projectSize)
                      ++ "MB. Máximo: "
                      ++ JsString.of_Z (megabytes (maxProjectSize (config c)))
                      ++ "MB") 413)
   else ret tt) ;;
  logger Info "Arquivos escritos, iniciando build".

(** Lines 82-109: the build and the success response.  Line 83,
    [await runBuild(projectDir, id)], evaluates the two arguments before the
    call; [runBuild] has one parameter. *)
Definition run_and_respond (req : Request) (startTime : Z)
    (projectId projectDir : string) (fileCount projectSize : Z) : M Reply :=
  resolveIdentifier "projectDir" ;;
  resolveIdentifier "id" ;;
  buildResult <- BuildService.runBuild projectDir ;;
  let previewUrl :=
    protocol req ++ "://" ++ host req ++ "/preview/" ++ projectId ++ "/"
    ++ BuildService.distDir buildResult ++ "/" in
  finished <- now ;;
  let duration := finished - startTime in
  logger Info "Build concluído com sucesso" ;;
  ret (Json (mkBuildData projectId previewUrl
               (BuildService.projectType buildResult) duration fileCount
               (megabytes projectSize))).

(** Lines 53-109: the [try] block from the point where [projectId] and
    [projectDir] are assigned. *)
Definition build_project (req : Request) (startTime : Z)
    (projectId projectDir : string) (files : FileSet) (fileCount : Z)
  : M Reply :=
  projectSize <- stage_project projectDir files ;;
  check_project_size projectSize ;;
  run_and_respond req startTime projectId projectDir fileCount projectSize.

(** The writes of line 65 that the [try] block, started in a given world,
    leaves in flight when it throws: those [Promise.all] was still waiting
    for when one of them was rejected.  An error thrown before line 63 or
    after line 68 leaves none. *)
Definition leftInFlight (projectDir : string) (files : FileSet)
  : Ctx -> World -> list InFlight :=
  fun c w =>
    match (logger Info "Iniciando criação do projeto" ;;
           FileSystem.ensureDirectory projectDir ;;
           Promise_all (startWrites projectDir files)) c w with
    | (Return (inl (_, inFlight)), _) => inFlight
    | _ => []
    end.

(** Lines 111-133: the [catch] block up to [next(error)], with the values
    [projectId] and [projectDir] have when the error is caught ([None] is
    [null]) and the calls in flight then.  Its value is the calls still in
    flight where [next(error)] is called. *)
Definition clean_up (startTime : Z) (projectId projectDir : option string)
    (inFlight : list InFlight) : M (list InFlight) :=
  finished <- now ;;
  let duration := finished - startTime in
  logger Err "Erro durante build:" ;;
  match projectDir with
  | Some dir =>
      awaited <- awaitRemoval (inFlight ++ [Removing dir])%list ;;
      let '(removed, inFlight) := awaited in
      match removed with
      | inr _ => logger Debug "Diretório de projeto removido após erro"
      | inl cleanupError => logger Err "Erro ao limpar diretório após falha:"
      end ;;
      ret inFlight
  | None => ret inFlight
  end.

(** Lines 111-135: the [catch] block.  It waits for the removal only: the
    calls still in flight at [next(error)] are left to themselves. *)
Definition on_error (startTime : Z) (projectId projectDir : option string)
    (inFlight : list InFlight) (error : JsError) : M Reply :=
  clean_up startTime projectId projectDir inFlight ;;
  ret (Next error).

(** The [catch] block, followed until the calls it leaves in flight have
    settled: the world returned is the one they leave. *)
Definition on_error_settled (startTime : Z) (projectId projectDir : option string)
    (inFlight : list InFlight) (error : JsError) : M Reply :=
  inFlight <- clean_up startTime projectId projectDir inFlight ;;
  settleAll inFlight ;;
  ret (Next error).

(** [try { body } catch (error) { handler }] for a body that starts calls
    without waiting for each: the handler runs with the calls that the
    body, started in the same world, has left in flight. *)
Definition try_catch_beside {A} (body : M A)
    (left : Ctx -> World -> list InFlight)
    (handler : list InFlight -> JsError -> M A) : M A :=
  fun c w =>
    match body c w with
    | (Throw e, w') => handler (left c w) e c w'
    | r => r
    end.

(** Lines 16-136: the handler of [POST /build], over its [catch] block.
    [projectId] and [projectDir] are [null] until lines 50-51 assign them,
    so the one [try]/[catch] of the source is written as its two halves,
    each with the [catch] block at the values the two variables have
    there. *)
Definition post_build_with
    (on_error : Z -> option string -> option string -> list InFlight ->
                JsError -> M Reply)
    (req : Request) : M Reply :=
  startTime <- now ;;
  accepted <-
    try_catch
      (x <- accept_request req ;; ret (inr x))
      (fun error => reply <- on_error startTime None None [] error ;; ret (inl reply)) ;;
  match accepted with
  | inl reply => ret reply
  | inr (files, fileCount) =>
      c <- ask ;;
      let projectId := nanoid (env c) in
      let projectDir := Path.join (previewsDir (config c)) projectId in
      try_catch_beside
        (build_project req startTime projectId projectDir files fileCount)
        (leftInFlight projectDir files)
        (on_error startTime (Some projectId) (Some projectDir))
  end.

(** The handler of [POST /build], up to the call of [next] or the
    response. *)
Definition post_build (req : Request) : M Reply :=
  post_build_with on_error req.


End BuildRoute.

(** ** middleware/errorHandler.js *)

Module ErrorHandler.
Import Js.
Local Open Scope js_scope.

Definition logger (lvl : Level) (msg : string) : M unit :=
  emit (Log "ErrorHandler" lvl msg).

(** The value handed to [errorHandler], as the handler looks at it:
    [err.message]; the own enumerable properties that [{ ...err }] copies
    and that are read afterwards ([statusCode], [timestamp] and [stack];
    the [stack] of an [Error] object is not enumerable, so it is absent
    there); [err.isJoi] and the [message] of each of [err.details], [None]
    where [err.details] is [undefined]; whether [err] is a [SyntaxError];
    [err.status]; whether [err] has a [body] property; [err.code]. *)
Record Caught : Type := mkCaught {
  caught_message : string;
  own_statusCode : option Z;
  own_timestamp : option string;
  own_stack : option string;
  isJoi : bool;
  details : option (list string);
  isSyntaxError : bool;
  err_status : option Z;
  hasBody : bool;
  code : option string
}.

(** Where a timestamp was taken: carried by the value caught, set by the
    constructor of an [AppError] created in the handler, or read when the
    response is built (line 70). *)
Inductive Instant : Type :=
| Carried (iso : string)
| Constructed
| Responded.

(** A stack trace: carried by the value caught, or captured by the
    constructor of an [AppError] created in the handler. *)
Inductive Stack : Type :=
| CarriedStack (trace : string)
| Captured.

(** The variable [error] of the handler. *)
Record ErrorObject : Type := mkErrorObject {
  error_message : string;
  error_statusCode : option Z;
  error_timestamp : option Instant;
  error_stack : option Stack
}.

(** [let error = { ...err }; error.message = err.message;] *)
Definition spread (err : Caught) : ErrorObject :=
  mkErrorObject (caught_message err) (own_statusCode err)
    (option_map Carried (own_timestamp err))
    (option_map CarriedStack (own_stack err)).

(** [new AppError(message, statusCode)] inside the handler. *)
Definition newAppError (message : string) (statusCode : Z) : ErrorObject :=
  mkErrorObject message (Some statusCode) (Some Constructed) (Some Captured).

(** The [error] member of the response body; [stack] is absent unless the
    handler sets it to a value. *)
Record ErrorBody : Type := mkErrorBody {
  body_message : string;
  body_timestamp : Instant;
  body_requestId : string;
  body_stack : option Stack
}.

(** [res.status(statusCode).json({ success: false, error })] *)
Record Response : Type := mkResponse {
  status : Z;
  error : ErrorBody
}.

Definition hasCode (err : Caught) (name : string) : bool :=
  match code err with
  | Some c => (c =? name)%string
  | None => false
  end.

(** [error.timestamp || new Date().toISOString()] *)
Definition timestampOf (error : ErrorObject) : Instant :=
  match error_timestamp error with
  | Some (Carried iso) => if (iso =? "")%string then Responded else Carried iso
  | Some t => t
  | None => Responded
  end.

(** [error.statusCode || 500] *)
Definition statusOf (error : ErrorObject) : Z :=
  match error_statusCode error with
  | Some n => if n =? 0 then 500 else n
  | None => 500
  end.

(** [errorHandler(err, req, res, next)]; [nodeEnv] is [config.nodeEnv] and
    [requestId] is [req.id], empty where it is [undefined]. *)
Definition errorHandler (nodeEnv : string) (err : Caught) (requestId : string)
  : M Response :=
  let error := spread err in
  logger Err "Erro capturado:" ;;
  error <-
    (if isJoi err then
       match details err with
       | Some messages =>
           ret (newAppError ("Erro de validação: " ++ JsString.join ", " messages) 400)
       | None =>
           throw (TypeError "Cannot read properties of undefined (reading 'map')")
       end
     else ret error) ;;
  let error :=
    if isSyntaxError err
       && match err_status err with Some n => n =? 400 | None => false end
       && hasBody err
    then newAppError "JSON malformado no corpo da requisição" 400 else error in
  let error :=
    if hasCode err "LIMIT_FILE_SIZE" then newAppError "Arquivo muito grande" 413
    else error in
  let error :=
    if hasCode err "ENOENT"
    then newAppError "Arquivo ou diretório não encontrado" 404 else error in
  let error :=
    if hasCode err "EACCES" then newAppError "Permissão negada" 403 else error in
  let error :=
    if hasCode err "ENOSPC"
    then newAppError "Espaço em disco insuficiente" 507 else error in
  let response :=
    mkErrorBody
      (BuildService.orElse (error_message error) "Erro interno do servidor")
      (timestampOf error)
      (BuildService.orElse requestId "unknown")
      (if (nodeEnv =? "development")%string then error_stack error else None) in
  ret (mkResponse (statusOf error) response).


(** [notFoundHandler(req, res, next)]: the error given to [next]. *)
Definition notFoundHandler (originalUrl : string) : JsError :=
  AppError ("Rota não encontrada: " ++ originalUrl) 404.

End ErrorHandler.

(** ** routes/health.js *)

Module HealthRoute.
Import Js.
Local Open Scope js_scope.

Definition logger (lvl : Level) (msg : string) : M unit :=
  emit (Log "HealthRoute" lvl msg).

(** [process.memoryUsage()], in bytes, and [checks.memory], in megabytes. *)
Record MemoryUsage : Type := mkMemoryUsage {
  rss : Z;
  heapTotal : Z;
  heapUsed : Z;
  external : Z
}.

Record Directories : Type := mkDirectories {
  previews : bool;
  logs : bool
}.

Record BuildTools : Type := mkBuildTools {
  available : bool;
  toolsError : option string
}.

Record Uptime : Type := mkUptime {
  processUptime : Z;
  systemUptime : Z
}.

Record Checks : Type := mkChecks {
  directories : Directories;
  diskSpace : option FileSystem.DiskSnapshot;
  buildTools : BuildTools;
  memory : MemoryUsage;
  uptime : Uptime
}.

(** The [config] member of the response. *)
Record ConfigSummary : Type := mkConfigSummary {
  summary_nodeEnv : string;
  summary_packageManager : string;
  summary_maxFiles : Z;
  summary_maxProjectSize : Z;
  summary_buildTimeout : Q
}.

(** The body of the response of [GET /health]; its [timestamp] is read
    when the body is built. *)
Record HealthBody : Type := mkHealthBody {
  healthStatus : string;
  responseTime : Z;
  checks : Checks;
  configSummary : ConfigSummary
}.

Inductive Reply : Type :=
| Respond (statusCode : Z) (body : HealthBody)
| Next (error : JsError).

(** [Math.round(x)] *)
Definition round (x : Q) : Z := Qfloor (x + (1 # 2)).

Section Handlers.

(** [config.nodeEnv] and [config.logsDir]; what [process.cwd()],
    [process.memoryUsage()], [process.uptime()] and [os.uptime()] give. *)
Variables (nodeEnv logsDir cwd : string).
Variable memUsage : MemoryUsage.
Variables (process_uptime os_uptime : Q).

(** The handler of [GET /health] (lines 22-96). *)
Definition get_health : M Reply :=
  try_catch
    (startTime <- now ;;
     c <- ask ;;
     previews <- FileSystem.directoryExists (previewsDir (config c)) ;;
     logs <- FileSystem.directoryExists logsDir ;;
     diskSpace <- FileSystem.checkDiskSpace ;;
     buildTools <-
       try_catch
         (BuildService.checkBuildTools cwd ;;
          ret (mkBuildTools true None))
         (fun error => ret (mkBuildTools false (Some (message error)))) ;;
     let memory :=
       mkMemoryUsage (BuildRoute.megabytes (rss memUsage))
         (BuildRoute.megabytes (heapTotal memUsage))
         (BuildRoute.megabytes (heapUsed memUsage))
         (BuildRoute.megabytes (external memUsage)) in
     let uptime := mkUptime (round process_uptime) (round os_uptime) in
     let checks :=
       mkChecks (mkDirectories previews logs) diskSpace buildTools memory uptime in
     let isHealthy :=
       previews && logs && available buildTools
       && match diskSpace with
          | None => true
          | Some snapshot => (FileSystem.usagePercent snapshot <? 95)%float
          end in
     finished <- now ;;
     let responseTime := finished - startTime in
     let response :=
       mkHealthBody (if isHealthy then "healthy" else "degraded") responseTime
         checks
         (mkConfigSummary nodeEnv (packageManager (config c))
            (maxFiles (config c))
            (BuildRoute.megabytes (maxProjectSize (config c)))
            (inject_Z (buildTimeoutMs (config c)) / 1000)) in
     if isHealthy then ret (Respond 200 response)
     else ret (Respond 503 response))
    (fun error =>
       logger Err "Erro durante health check:" ;;
       ret (Next error)).

End Handlers.

End HealthRoute.

(** ** Concrete environments and requests

    Used to run the definitions above on explicit inputs. *)

Module Scenario.
Import Js.

(** A host on which every call succeeds, nothing exists yet under the
    preview root, every command exits with code 0, and calls in flight at
    once complete in the order in which they were started. *)
Definition quietEnv : Env :=
  mkEnv (fun _ => None) (fun _ => "{}")
    (fun n => 1700000000000 + 250 * Z.of_nat n) "V1StGXR8_Z5jdHi6B-myT"
    (fun _ => inr (mkStatFs 500 4096 1000))
    (fun _ => inl "ENOENT: no such file or directory")
    (fun _ => inl "ENOENT: no such file or directory")
    (fun _ => inl "ENOENT: no such file or directory")
    (fun _ => Directory (inr []))
    (fun _ => inr tt) (fun _ _ => inr tt) (fun _ => inr tt)
    (fun _ _ _ => mkChildScript 4242 [Close (Some 0)] [])
    (fun _ => 0%nat).

Definition withScan (e : Env) (scan : string -> FsNode) : Env :=
  mkEnv (JSON_parse e) (JSON_stringify e) (Date_now e) (nanoid e) (fs_statfs e)
    (fs_stat e) (fs_readdir e) (fs_readFile e) scan (fs_mkdir e)
    (fs_writeFile e) (fs_rm e) (child_process e) (completes_next e).

Definition withListing (e : Env) (stat : string -> string + Stats)
    (readdir : string -> string + list Dirent) : Env :=
  mkEnv (JSON_parse e) (JSON_stringify e) (Date_now e) (nanoid e) (fs_statfs e)
    stat readdir (fs_readFile e) (fs_scan e) (fs_mkdir e)
    (fs_writeFile e) (fs_rm e) (child_process e) (completes_next e).

Definition withRm (e : Env) (rm : string -> string + unit) : Env :=
  mkEnv (JSON_parse e) (JSON_stringify e) (Date_now e) (nanoid e) (fs_statfs e)
    (fs_stat e) (fs_readdir e) (fs_readFile e) (fs_scan e) (fs_mkdir e)
    (fs_writeFile e) rm (child_process e) (completes_next e).

Definition withChildren (e : Env)
    (children : string -> list string -> string -> ChildScript) : Env :=
  mkEnv (JSON_parse e) (JSON_stringify e) (Date_now e) (nanoid e) (fs_statfs e)
    (fs_stat e) (fs_readdir e) (fs_readFile e) (fs_scan e) (fs_mkdir e)
    (fs_writeFile e) (fs_rm e) children (completes_next e).

(** The settings of [env.example], with the preview root at an absolute
    path. *)
Definition defaults : Config :=
  mkConfig "/srv/previews" 100 104857600 86400000 300000 "pnpm".

Definition withPackageManager (cfg : Config) (pm : string) : Config :=
  mkConfig (previewsDir cfg) (maxFiles cfg) (maxProjectSize cfg)
    (previewMaxAgeMs cfg) (buildTimeoutMs cfg) pm.

Definition withMaxProjectSize (cfg : Config) (n : Z) : Config :=
  mkConfig (previewsDir cfg) (maxFiles cfg) n
    (previewMaxAgeMs cfg) (buildTimeoutMs cfg) (packageManager cfg).

Definition quiet : Ctx := mkCtx defaults quietEnv.

(** A host where the project directory cannot be listed when it is
    measured. *)
Definition unlistable : Ctx :=
  mkCtx defaults (withScan quietEnv (fun _ => Directory (inl "EACCES: permission denied"))).

Definition requestWith (files : list (string * json)) : BuildRoute.Request :=
  BuildRoute.mkRequest (Some (JObject [("files", JObject files)]))
    "k3j9x2m1q" "http" "localhost:3001".

(** A small project, as in test/test.js. *)
Definition smallProject : list (string * json) :=
  [ ("package.json", JObject [("name", JString "test-react-app")]);
    ("index.html", JString "<div id=root></div>");
    ("src/main.jsx", JString "import React from 'react'") ].

(** The same project with one file addressed through its parent. *)
Definition escapingProject : list (string * json) :=
  [ ("package.json", JObject [("name", JString "test-react-app")]);
    ("../../../etc/cron.d/job", JString "* * * * * root true") ].

(** A workspace with one file of 2,048 bytes and a subdirectory that cannot
    be listed. *)
Definition partlyUnreadable : FsNode :=
  Directory (inr [ ("bundle.js", NotDirectory (inr 2048));
                   ("node_modules", Directory (inl "EACCES: permission denied")) ]).

(** A workspace that cannot be listed at all. *)
Definition unreadable : FsNode :=
  Directory (inl "EACCES: permission denied").

(** A host where the scan of the project directory sees [partlyUnreadable],
    with a maximum project size of 1,024 bytes. *)
Definition smallQuota : Ctx :=
  mkCtx (withMaxProjectSize defaults 1024)
        (withScan quietEnv (fun _ => partlyUnreadable)).

(** The instant of the sweeps below, and the modification times of three
    entries of the preview root: one second, and twice twenty-five hours,
    before it. *)
Definition sweepTime : Z := 1700000000000.

Definition directoryAt (mtime : Z) : string + Stats :=
  inr (mkStats true false 4096 mtime).

Definition previewStats (p : string) : string + Stats :=
  if (p =? "/srv/previews")%string then directoryAt (sweepTime - 3600000)
  else if (p =? "/srv/previews/fresh")%string then directoryAt (sweepTime - 1000)
  else if (p =? "/srv/previews/stale")%string
       then directoryAt (sweepTime - 25 * 3600 * 1000)
  else if (p =? "/srv/previews/locked")%string
       then directoryAt (sweepTime - 25 * 3600 * 1000)
  else inl "ENOENT: no such file or directory".

(** A preview root with a directory touched one second ago, one untouched
    for twenty-five hours and a plain file; the maximum age is twenty-four
    hours. *)
Definition sweepHost : Ctx :=
  mkCtx defaults
    (withListing quietEnv previewStats
       (fun _ => inr [ mkDirent "fresh" true; mkDirent "stale" true;
                       mkDirent ".gitkeep" false ])).

(** A preview root with two directories untouched for twenty-five hours,
    the first of which cannot be removed. *)
Definition lockedHost : Ctx :=
  mkCtx defaults
    (withRm
       (withListing quietEnv previewStats
          (fun _ => inr [ mkDirent "locked" true; mkDirent "stale" true ]))
       (fun p => if (p =? "/srv/previews/locked")%string
                 then inl "EBUSY: resource busy or locked"
                 else inr tt)).

Definition exits (code : Z) (err : string) : ChildScript :=
  mkChildScript 4242 [StderrData err; Close (Some code)] [].

(** A host configured for yarn on which [yarn install] fails and every
    other command succeeds. *)
Definition yarnFails : Ctx :=
  mkCtx (withPackageManager defaults "yarn")
    (withChildren quietEnv
       (fun cmd args _ =>
          if (cmd =? "yarn")%string
          then exits 1 "error An unexpected error occurred"
          else exits 0 "")).

(** A host configured for pnpm on which both install commands fail. *)
Definition registryDown : Ctx :=
  mkCtx defaults
    (withChildren quietEnv
       (fun cmd args _ =>
          match args with
          | "install" :: _ =>
              if (cmd =? "pnpm")%string
              then exits 1 "ERR_PNPM_FETCH_500"
              else exits 1 "npm ERR! network request failed"
          | _ => exits 0 ""
          end)).

(** A build that prints and then hangs past its deadline, and the
    processes of its group: the shell spawned by [runCommand] and the
    bundler it started. *)
Definition stuckBuild : ChildScript :=
  mkChildScript 4242 [StdoutData "vite v4.3.0 building for production..."]
    [Close None].

(** Processes as the operating system keeps them. *)
Record Process : Type := mkProcess {
  processId : Z;
  processGroup : Z;
  alive : bool
}.

Definition buildProcesses : list Process :=
  [ mkProcess 4242 4242 true; mkProcess 4243 4242 true ].

(** [child.kill('SIGKILL')] is [kill(2)] on the process id of the child: it
    ends that process and no other member of its group. *)
Definition signalled (target : Z) (ps : list Process) : list Process :=
  map (fun p => if processId p =? target
                then mkProcess (processId p) (processGroup p) false
                else p) ps.

Definition afterEffects (es : list Effect) (ps : list Process) : list Process :=
  fold_left (fun ps e => match e with
                         | Sys (Kill target) _ => signalled target ps
                         | _ => ps
                         end) es ps.

(** The members of a group still alive. *)
Definition survivors (group : Z) (ps : list Process) : list Z :=
  map processId
    (filter (fun p => (processGroup p =? group) && alive p) ps).

(** A text of 600,000 code units, each the letter e with an acute accent
    (code unit 233), which UTF-8 encodes in two bytes. *)
Definition accentedText : string :=
  JsString.repeat (ascii_of_N 233) (Z.to_nat 600000).

(** A project directory with files at three depths: 120, 300 and 80
    bytes. *)
Definition nestedTree : FsNode :=
  Directory (inr [ ("index.html", NotDirectory (inr 120));
                   ("src", Directory (inr [ ("main.jsx", NotDirectory (inr 300));
                                            ("lib", Directory (inr [ ("a.js", NotDirectory (inr 80)) ])) ])) ]).

Definition nested : Ctx :=
  mkCtx defaults (withScan quietEnv (fun _ => nestedTree)).

Definition withManifest (e : Env) (parse : string -> option json)
    (readFile : string -> string + string) : Env :=
  mkEnv parse (JSON_stringify e) (Date_now e) (nanoid e) (fs_statfs e)
    (fs_stat e) (fs_readdir e) readFile (fs_scan e) (fs_mkdir e)
    (fs_writeFile e) (fs_rm e) (child_process e) (completes_next e).

Definition fileAt (fileSize : Z) : string + Stats :=
  inr (mkStats false true fileSize (sweepTime - 1000)).

(** The [package.json] of a React project built with Vite. *)
Definition reactManifest : json :=
  JObject [ ("name", JString "test-react-app");
            ("dependencies", JObject [("react", JString "^18.2.0")]);
            ("devDependencies", JObject [("vite", JString "^4.3.0")]) ].

(** A project directory that holds that [package.json] beside an
    [astro.config.mjs]. *)
Definition reactProject : Ctx :=
  mkCtx defaults
    (withManifest
       (withListing quietEnv
          (fun p => if (p =? "/srv/previews/p1/package.json")%string then fileAt 310
                    else if (p =? "/srv/previews/p1/astro.config.mjs")%string
                         then fileAt 64
                    else inl "ENOENT: no such file or directory")
          (fun _ => inl "ENOENT: no such file or directory"))
       (fun _ => Some reactManifest)
       (fun _ => inr "{ ... }")).

(** A host on which the build of [/srv/previews/p1] has left a [dist]
    directory. *)
Definition builtHost : Ctx :=
  mkCtx defaults
    (withListing quietEnv
       (fun p => if (p =? "/srv/previews/p1/dist")%string then directoryAt sweepTime
                 else inl "ENOENT: no such file or directory")
       (fun _ => inl "ENOENT: no such file or directory")).

(** A host without node. *)
Definition nodeMissing : Ctx :=
  mkCtx defaults
    (withChildren quietEnv
       (fun cmd args _ =>
          match args with
          | ["node"] => exits 1 ""
          | _ => exits 0 ""
          end)).

Definition withStatFs (e : Env) (statfs : string -> string + StatFs) : Env :=
  mkEnv (JSON_parse e) (JSON_stringify e) (Date_now e) (nanoid e) statfs
    (fs_stat e) (fs_readdir e) (fs_readFile e) (fs_scan e) (fs_mkdir e)
    (fs_writeFile e) (fs_rm e) (child_process e) (completes_next e).

(** A host with its two directories in place, every tool installed, and
    92 percent of the disk in use. *)
Definition nearlyFull : Ctx :=
  mkCtx defaults
    (withStatFs
       (withListing quietEnv
          (fun p => if (p =? "/srv/previews")%string then directoryAt sweepTime
                    else if (p =? "/srv/logs")%string then directoryAt sweepTime
                    else inl "ENOENT: no such file or directory")
          (fun _ => inr []))
       (fun _ => inr (mkStatFs 80 4096 1000))).







(** A project without any of the main configuration files. *)
Definition looseFiles : list (string * json) :=
  [ ("index.html", JString "<div id=root></div>");
    ("src/main.jsx", JString "import React from 'react'") ].

End Scenario.

(** * Properties *)

(** ** Strings and paths *)

Lemma prefix_append (needle rest : string) :
  String.prefix needle (needle ++ rest) = true.
Proof.
  induction needle as [|c needle IH]; simpl.
  - destruct rest; reflexivity.
  - destruct (ascii_dec c c) as [_|ne]; [exact IH | now elim ne].
Qed.

Lemma includes_unfold (needle s : string) :
  JsString.includes needle s =
  if String.prefix needle s then true
  else match s with
       | EmptyString => false
       | String _ s' => JsString.includes needle s'
       end.
Proof. destruct s; reflexivity. Qed.

Lemma includes_append (needle before rest : string) :
  JsString.includes needle (before ++ needle ++ rest) = true.
Proof.
  induction before as [|c before IH].
  - simpl. rewrite includes_unfold, prefix_append. reflexivity.
  - rewrite includes_unfold.
    change (String c before ++ needle ++ rest)
      with (String c (before ++ needle ++ rest)).
    cbv iota. rewrite IH. destruct (String.prefix needle _); reflexivity.
Qed.

Lemma split_nonempty (sep : ascii) (s : string) : JsString.split sep s <> [].
Proof.
  destruct s as [|c s]; simpl; [discriminate|].
  destruct (Ascii.eqb c sep); [discriminate|].
  destruct (JsString.split sep s); discriminate.
Qed.

Lemma split_head_prefix (sep : ascii) (s h : string) (t : list string) :
  JsString.split sep s = h :: t -> exists rest, s = h ++ rest.
Proof.
  revert h t. induction s as [|c s IH]; intros h t; simpl.
  - intros [= <- <-]. now exists "".
  - destruct (Ascii.eqb c sep).
    + intros [= <- <-]. now exists (String c s).
    + destruct (JsString.split sep s) as [|h' t'] eqn:E.
      * now elim (split_nonempty sep s).
      * intros [= <- <-]. destruct (IH h' t' eq_refl) as [rest ->].
        now exists rest.
Qed.

Lemma split_segment_infix (sep : ascii) (s seg : string) :
  In seg (JsString.split sep s) ->
  exists before rest, s = before ++ seg ++ rest.
Proof.
  revert seg. induction s as [|c s IH]; intros seg; simpl.
  - intros [<-|[]]. now exists "", "".
  - destruct (Ascii.eqb c sep).
    + intros [<-|Hin].
      * now exists "", (String c s).
      * destruct (IH seg Hin) as (before & rest & ->).
        now exists (String c before), rest.
    + destruct (JsString.split sep s) as [|h t] eqn:E.
      * now elim (split_nonempty sep s).
      * intros [<-|Hin].
        -- destruct (split_head_prefix sep s h t E) as [rest ->].
           now exists "", rest.
        -- destruct (IH seg (or_intror Hin)) as (before & rest & ->).
           now exists (String c before), rest.
Qed.

Lemma length_repeat (c : ascii) (n : nat) :
  String.length (JsString.repeat c n) = n.
Proof. induction n as [|n IH]; simpl; [reflexivity | now rewrite IH]. Qed.

Lemma utf8ByteLength_repeat (c : ascii) (n : nat) :
  JsString.utf8ByteLength (JsString.repeat c n)
  = (if (N_of_ascii c <? 128)%N then 1 else 2) * Z.of_nat n.
Proof.
  induction n as [|n IH]; [simpl; lia|].
  cbn [JsString.repeat JsString.utf8ByteLength]. rewrite IH.
  destruct (N_of_ascii c <? 128)%N; lia.
Qed.

Lemma repeat_not_empty (c : ascii) (n : nat) :
  (0 < n)%nat -> (JsString.repeat c n =? "")%string = false.
Proof. destruct n; [lia | reflexivity]. Qed.

Module PathFacts.
Import Path.
Local Open Scope string_scope.

Lemma append_assoc (a b c : string) : (a ++ b) ++ c = a ++ b ++ c.
Proof. induction a as [|x a IH]; cbn [append]; [reflexivity | now rewrite IH]. Qed.

Lemma append_empty_r (a : string) : a ++ "" = a.
Proof. induction a as [|x a IH]; cbn [append]; [reflexivity | now rewrite IH]. Qed.

Lemma split_append (sep : ascii) (a b : string) :
  JsString.split sep (a ++ String sep b)
  = (JsString.split sep a ++ JsString.split sep b)%list.
Proof.
  induction a as [|c a IH]; cbn [append JsString.split].
  - now rewrite Ascii.eqb_refl.
  - rewrite IH. destruct (Ascii.eqb c sep); [reflexivity|].
    destruct (JsString.split sep a) as [|h t] eqn:E;
      [now elim (split_nonempty sep a)|].
    reflexivity.
Qed.

Lemma normalizeSegments_app (above : bool) (s1 s2 res : list string) :
  normalizeSegments above (s1 ++ s2) res
  = normalizeSegments above s2 (normalizeSegments above s1 res).
Proof.
  revert res. induction s1 as [|seg s1 IH]; intros res; [reflexivity|].
  cbn [app normalizeSegments].
  destruct ((seg =? "") || (seg =? ".")); [apply IH|].
  destruct (seg =? ".."); [|apply IH].
  destruct res as [|top rest]; [apply IH|].
  destruct (top =? ".."); apply IH.
Qed.

(** The segments [normalizeString] keeps as they are. *)
Definition kept (seg : string) : bool :=
  negb ((seg =? "") || (seg =? ".")).

Lemma normalizeSegments_plain (above : bool) (segs res : list string) :
  ~ In ".." segs ->
  normalizeSegments above segs res = (rev (filter kept segs) ++ res)%list.
Proof.
  revert res. induction segs as [|seg segs IH]; intros res Hin; [reflexivity|].
  cbn [normalizeSegments filter]. unfold kept at 1.
  assert (Hrest : ~ In ".." segs) by (intros H; apply Hin; now right).
  destruct ((seg =? "") || (seg =? ".")); cbn [negb]; [now apply IH|].
  destruct (String.eqb_spec seg "..") as [->|_]; [elim Hin; now left|].
  rewrite (IH _ Hrest). cbn [rev]. now rewrite <- app_assoc.
Qed.

Lemma join_append (a b : list string) :
  a <> [] -> b <> [] ->
  JsString.join "/" (a ++ b) = JsString.join "/" a ++ "/" ++ JsString.join "/" b.
Proof.
  intros Ha Hb. induction a as [|s a IH]; [now elim Ha|].
  destruct a as [|s' a].
  - cbn [app]. destruct b as [|t b]; [now elim Hb|]. reflexivity.
  - change ((s :: s' :: a) ++ b)%list with (s :: ((s' :: a) ++ b))%list.
    assert (E : forall x y l, JsString.join "/" (x :: y :: l)
                              = x ++ "/" ++ JsString.join "/" (y :: l))
      by reflexivity.
    cbn [app]. rewrite !E. cbn [app] in IH. rewrite IH by discriminate.
    now rewrite !append_assoc.
Qed.

Lemma endsWithSlash_append (a b : string) :
  b <> "" -> endsWithSlash (a ++ b) = endsWithSlash b.
Proof.
  intros Hb. induction a as [|c a IH]; [reflexivity|].
  cbn [append]. destruct (a ++ b) eqn:E.
  - destruct a; [cbn in E; congruence | discriminate].
  - cbn [endsWithSlash]. exact IH.
Qed.

Lemma isAbsolute_append (a b : string) :
  a <> "" -> isAbsolute (a ++ b) = isAbsolute a.
Proof. destruct a; [now intros H | reflexivity]. Qed.

Lemma prefix_of_append (a b rest : string) :
  b = a ++ rest -> String.prefix a b = true.
Proof. intros ->. apply prefix_append. Qed.

Lemma join_not_empty (l : list string) :
  l <> [] -> (forall s, In s l -> s <> "") -> JsString.join "/" l <> "".
Proof.
  destruct l as [|s l]; [now intros H|]. intros _ H.
  assert (Hs : s <> "") by (apply H; now left).
  destruct l; cbn [JsString.join]; [exact Hs|].
  destruct s; [now elim Hs | discriminate].
Qed.

Lemma kept_not_empty (s : string) : kept s = true -> s <> "".
Proof. intros H ->. discriminate. Qed.

Lemma includes_slash_cons (c : ascii) (s : string) :
  JsString.includes "/" (String c s) = Ascii.eqb c "/" || JsString.includes "/" s.
Proof.
  rewrite includes_unfold. cbn [String.prefix].
  destruct (ascii_dec "/" c) as [<-|Hne].
  - destruct s; reflexivity.
  - rewrite (proj2 (Ascii.eqb_neq c "/")) by congruence. reflexivity.
Qed.

Lemma split_no_slash (s : string) :
  JsString.includes "/" s = false -> JsString.split Path.slash s = [s].
Proof.
  induction s as [|c s IH]; [reflexivity|].
  rewrite includes_slash_cons. intros H.
  apply orb_false_iff in H as [Hc Hs].
  specialize (IH Hs). unfold Path.slash in *.
  cbn [JsString.split]. rewrite Hc, IH. reflexivity.
Qed.

Lemma endsWithSlash_no_slash (s : string) :
  JsString.includes "/" s = false -> Path.endsWithSlash s = false.
Proof.
  induction s as [|c s IH]; [reflexivity|].
  rewrite includes_slash_cons. intros H.
  apply orb_false_iff in H as [Hc Hs].
  cbn [Path.endsWithSlash]. destruct s; [exact Hc | now apply IH].
Qed.

Lemma isAbsolute_no_slash (s : string) :
  JsString.includes "/" s = false -> Path.isAbsolute s = false.
Proof.
  destruct s as [|c s]; [reflexivity|].
  rewrite includes_slash_cons. intros H.
  apply orb_false_iff in H as [Hc _]. exact Hc.
Qed.

Lemma normalize_single_segment (value : string) :
  JsString.includes "/" value = false ->
  JsString.includes ".." value = false ->
  value <> "" ->
  Path.normalize value = value.
Proof.
  intros Hslash Hdots Hne.
  unfold Path.normalize, Path.normalizeString.
  rewrite (proj2 (String.eqb_neq value "")) by exact Hne.
  rewrite (split_no_slash _ Hslash), (endsWithSlash_no_slash _ Hslash),
    (isAbsolute_no_slash _ Hslash).
  cbn [Path.normalizeSegments negb].
  rewrite (proj2 (String.eqb_neq value "")) by exact Hne.
  destruct (String.eqb_spec value ".") as [->|Hdot]; [reflexivity|].
  destruct (String.eqb_spec value "..") as [->|Hup]; [discriminate Hdots|].
  cbn [orb rev app JsString.join].
  now rewrite (proj2 (String.eqb_neq value "")) by exact Hne.
Qed.

Lemma list_ascii_of_string_app (a b : string) :
  list_ascii_of_string (a ++ b)
  = (list_ascii_of_string a ++ list_ascii_of_string b)%list.
Proof. induction a as [|c a IH]; [reflexivity|]. cbn. now rewrite IH. Qed.

Definition plain (c : ascii) : bool :=
  negb (Ascii.eqb c Path.dot) && negb (Ascii.eqb c Path.slash).

Lemma takeComponent_plain (l rest : list ascii) :
  forallb plain l = true ->
  Path.takeComponent (l ++ rest) = (l ++ Path.takeComponent rest)%list.
Proof.
  induction l as [|c l IH]; [reflexivity|]. cbn [forallb app Path.takeComponent].
  intros H. apply andb_true_iff in H as [Hc Hl].
  apply andb_true_iff in Hc as [_ Hs]. apply negb_true_iff in Hs.
  rewrite Hs. now rewrite IH.
Qed.

Lemma splitAtLastDot_plain (l rest acc : list ascii) :
  forallb plain l = true ->
  Path.splitAtLastDot (l ++ Path.dot :: rest) acc = Some ((rev l ++ acc)%list, rest).
Proof.
  revert acc. induction l as [|c l IH]; intros acc H.
  - cbn. reflexivity.
  - cbn [forallb] in H. apply andb_true_iff in H as [Hc Hl].
    apply andb_true_iff in Hc as [Hd _]. apply negb_true_iff in Hd.
    cbn [app Path.splitAtLastDot]. rewrite Hd, (IH _ Hl).
    cbn [rev]. now rewrite <- app_assoc.
Qed.

Lemma forallb_rev {A} (f : A -> bool) (l : list A) :
  forallb f (rev l) = forallb f l.
Proof.
  induction l as [|a l IH]; [reflexivity|].
  cbn [rev forallb]. rewrite forallb_app, IH. cbn. now rewrite andb_true_r, andb_comm.
Qed.

Lemma endsWithSlash_last (s : string) :
  Path.endsWithSlash s = false -> s <> "" ->
  exists c r, rev (list_ascii_of_string s) = c :: r /\ Ascii.eqb c Path.slash = false.
Proof.
  induction s as [|c s IH]; [congruence|]. intros H _.
  destruct s as [|c' s'].
  - exists c, []. split; [reflexivity | exact H].
  - change (Path.endsWithSlash (String c' s') = false) in H.
    destruct (IH H ltac:(discriminate)) as [x [r [Hr Hx]]].
    exists x, (r ++ [c])%list. split; [|exact Hx].
    change (list_ascii_of_string (String c (String c' s')))
      with (c :: list_ascii_of_string (String c' s')).
    cbn [rev]. rewrite Hr. reflexivity.
Qed.

Lemma extname_suffix (base ext : string) :
  base <> "" -> Path.endsWithSlash base = false ->
  ext <> "" -> forallb plain (list_ascii_of_string ext) = true ->
  Path.extname (base ++ "." ++ ext) = "." ++ ext.
Proof.
  intros Hbase Hslash Hext Hplain. unfold Path.extname.
  rewrite list_ascii_of_string_app, list_ascii_of_string_app, !rev_app_distr.
  change (rev (list_ascii_of_string ".")) with [Path.dot].
  rewrite <- app_assoc. cbn [app].
  destruct (endsWithSlash_last base Hslash Hbase) as [c [r [Hr Hc]]].
  assert (Hrev : forallb plain (rev (list_ascii_of_string ext)) = true)
    by now rewrite forallb_rev.
  assert (Hskip : forall rest,
             Path.skipTrailingSlashes (rev (list_ascii_of_string ext) ++ rest)
             = (rev (list_ascii_of_string ext) ++ rest)%list).
  { intros rest. destruct ext as [|e ext]; [congruence|].
    destruct (rev (list_ascii_of_string (String e ext))) as [|x l] eqn:Hx.
    - apply (f_equal (@List.length _)) in Hx. rewrite length_rev in Hx. discriminate.
    - cbn [forallb] in Hrev. apply andb_true_iff in Hrev as [Hp _].
      apply andb_true_iff in Hp as [_ Hp]. apply negb_true_iff in Hp.
      cbn [app Path.skipTrailingSlashes]. now rewrite Hp. }
  rewrite Hskip, (takeComponent_plain _ _ Hrev).
  cbn [Path.takeComponent]. replace (Ascii.eqb Path.dot Path.slash) with false by reflexivity.
  rewrite (splitAtLastDot_plain _ _ [] Hrev), rev_involutive, app_nil_r.
  rewrite Hr. cbn [Path.takeComponent]. rewrite Hc.
  cbn [List.length Nat.eqb].
  destruct ext as [|e ext]; [congruence|].
  cbn [list_ascii_of_string List.length Nat.eqb]. rewrite !andb_false_r.
  cbn [string_of_list_ascii]. rewrite string_of_list_ascii_of_string. reflexivity.
Qed.

End PathFacts.

(** ** Payload validation *)

Module ValidationFacts.
Import Validation.

(** A key has a parent-directory segment when one of the segments between its
    slashes is [..]. *)
Definition hasParentSegment (key : string) : bool :=
  existsb (String.eqb "..") (JsString.split "/" key).

(** The keys the path-safety property is about. *)
Definition unsafeKey (key : string) : bool :=
  hasParentSegment key || Path.isAbsolute key.

Lemma hasParentSegment_includes (key : string) :
  hasParentSegment key = true -> JsString.includes ".." key = true.
Proof.
  unfold hasParentSegment. rewrite existsb_exists.
  intros (seg & Hin & Heq). apply String.eqb_eq in Heq. subst seg.
  destruct (split_segment_infix _ _ _ Hin) as (before & rest & ->).
  apply includes_append.
Qed.

Lemma unsafeKey_rejected (key : string) :
  unsafeKey key = true -> key_schema key = false.
Proof.
  unfold unsafeKey, key_schema, safe_file_path. intros H.
  apply orb_true_iff in H as [H|H].
  - rewrite (hasParentSegment_includes _ H). simpl. apply andb_false_r.
  - rewrite H, orb_true_r. apply andb_false_r.
Qed.

(** A key the key rule accepts has no parent-directory segment. *)
Lemma key_schema_no_parent (key : string) :
  key_schema key = true -> ~ In ".." (JsString.split "/" key).
Proof.
  unfold key_schema, safe_file_path. intros H Hin.
  destruct (split_segment_infix _ _ _ Hin) as (before & rest & ->).
  rewrite includes_append in H. cbn [orb] in H. now rewrite andb_false_r in H.
Qed.

Lemma pattern_members_bad_key (label : string) (members : list (string * json)) :
  (exists k v, In (k, v) members /\ key_schema k = false) ->
  match pattern_members label members with
  | inl _ => True
  | inr (_, unknown) => unknown <> []
  end.
Proof.
  induction members as [|[k v] rest IH]; intros (k0 & v0 & Hin & Hbad).
  - destruct Hin.
  - cbn [pattern_members]. destruct (key_schema k) eqn:Hk.
    + destruct Hin as [[= -> ->]|Hin]; [congruence|].
      destruct (content_schema v); [exact I|].
      specialize (IH (ex_intro _ k0 (ex_intro _ v0 (conj Hin Hbad)))).
      destruct (pattern_members label rest) as [e|[vs unknown]];
        [exact I | exact IH].
    + destruct (pattern_members label rest) as [e|[vs unknown]];
        [exact I | discriminate].
Qed.

Lemma files_schema_bad_key (members : list (string * json)) :
  (exists k v, In (k, v) members /\ key_schema k = false) ->
  exists e, files_schema (JObject members) = inl e.
Proof.
  intros H. apply (pattern_members_bad_key "files") in H.
  unfold files_schema. cbn [object_schema].
  destruct (pattern_members "files" members) as [e|[vs [|k unknown]]];
    eauto. now elim H.
Qed.

Lemma files_schema_count (members : list (string * json)) (files : FileSet) :
  files_schema (JObject members) = inr files ->
  1 <= Z.of_nat (List.length members) <= 100.
Proof.
  unfold files_schema. cbn [object_schema].
  destruct (pattern_members "files" members) as [e|[vs [|k unknown]]];
    try discriminate.
  destruct (Z.ltb_spec (Z.of_nat (List.length members)) 1); [discriminate|].
  destruct (Z.ltb_spec 100 (Z.of_nat (List.length members))); [discriminate|].
  intros _. lia.
Qed.

Lemma pattern_members_content (label : string) (members : list (string * json))
    (k : string) (v : json) (code : string) :
  In (k, v) members -> content_schema v = inl code ->
  match pattern_members label members with
  | inl _ => True
  | inr (_, unknown) => unknown <> []
  end.
Proof.
  induction members as [|[k' v'] rest IH]; intros Hin Hv; [destruct Hin|].
  cbn [pattern_members]. destruct (key_schema k') eqn:Hk.
  - destruct Hin as [[= -> ->]|Hin]; [now rewrite Hv|].
    destruct (content_schema v'); [exact I|].
    specialize (IH Hin Hv).
    destruct (pattern_members label rest) as [e|[vs unknown]];
      [exact I | exact IH].
  - destruct (pattern_members label rest) as [e|[vs unknown]];
      [exact I | discriminate].
Qed.

Lemma files_schema_content (members : list (string * json))
    (k : string) (v : json) (code : string) :
  In (k, v) members -> content_schema v = inl code ->
  exists e, files_schema (JObject members) = inl e.
Proof.
  intros Hin Hv. pose proof (pattern_members_content "files" _ _ _ _ Hin Hv) as H.
  unfold files_schema. cbn [object_schema].
  destruct (pattern_members "files" members) as [e|[vs [|k' unknown]]];
    eauto. now elim H.
Qed.

(** The payload is rejected as soon as its [files] member is. *)
Lemma validate_files_rejected (members : list (string * json)) (f : json) :
  lookup_member "files" members = Some f ->
  (exists e, files_schema f = inl e) ->
  exists e, buildPayloadSchema_validate (Some (JObject members)) = inl e.
Proof.
  intros Hf [e He]. unfold buildPayloadSchema_validate. cbn [object_schema].
  rewrite Hf, He. eauto.
Qed.

(** The content rule accepts a text exactly when the text rule does, and it
    passes it on as it is. *)
Lemma content_schema_text (s : string) :
  content_schema (JString s)
  = if text_schema s then inr (JString s)
    else inl (if (s =? "")%string then "string.empty" else "string.max").
Proof.
  unfold content_schema, text_schema.
  destruct (s =? "")%string; [reflexivity|].
  now destruct (Z.of_nat (String.length s) <=? 1024 * 1024).
Qed.

(** A text longer than the limit is not accepted. *)
Lemma content_schema_long_text (s : string) :
  1024 * 1024 < Z.of_nat (String.length s) ->
  exists code, content_schema (JString s) = inl code.
Proof.
  intros Hlen. rewrite content_schema_text. unfold text_schema.
  destruct (Z.leb_spec (Z.of_nat (String.length s)) (1024 * 1024)); [lia|].
  rewrite andb_false_r. eauto.
Qed.

(** A one-file project whose manifest is a text the text rule accepts. *)
Lemma validate_manifest_text (s : string) :
  text_schema s = true ->
  buildPayloadSchema_validate
    (Some (JObject [("files", JObject [("package.json", JString s)])]))
  = inr [("package.json", JString s)].
Proof.
  intros Hs.
  unfold buildPayloadSchema_validate, files_schema.
  cbn [object_schema lookup_member String.eqb Ascii.eqb Bool.eqb
       pattern_members].
  replace (key_schema "package.json") with true by reflexivity.
  rewrite content_schema_text, Hs. reflexivity.
Qed.

(** The fixed caps of the schema.  Whatever the configured limits, a
    payload the schema accepts has between 1 and 100 files, and each text
    among them has at most 1,048,576 code units. *)
Lemma schema_fixed_caps (members : list (string * json)) (files : FileSet) :
  files_schema (JObject members) = inr files ->
  1 <= Z.of_nat (List.length members) <= 100 /\
  forall k s, In (k, JString s) members ->
    Z.of_nat (String.length s) <= 1024 * 1024.
Proof.
  intros H. split; [exact (files_schema_count _ _ H)|].
  intros k s Hin.
  destruct (Z.leb_spec (Z.of_nat (String.length s)) (1024 * 1024)) as [Hle|Hgt];
    [exact Hle|].
  destruct (content_schema_long_text s Hgt) as [code Hcode].
  destruct (files_schema_content members k (JString s) code Hin Hcode) as [e He].
  congruence.
Qed.

(** C10.  The limit on a text counts UTF-16 code units, not bytes: a text
    of 600,000 code units that takes 1,200,000 bytes in UTF-8, more than
    1,048,576, is accepted by the schema. *)
Theorem schema_accepts_text_over_one_mebibyte :
  JsString.utf8ByteLength Scenario.accentedText = 1200000 /\
  1024 * 1024 < JsString.utf8ByteLength Scenario.accentedText /\
  buildPayloadSchema_validate
    (Some (JObject [("files",
                     JObject [("package.json", JString Scenario.accentedText)])]))
  = inr [("package.json", JString Scenario.accentedText)].
Proof.
  assert (Hbytes : JsString.utf8ByteLength Scenario.accentedText = 1200000).
  { unfold Scenario.accentedText. rewrite utf8ByteLength_repeat.
    replace (N_of_ascii (ascii_of_N 233) <? 128)%N with false by reflexivity.
    rewrite Z2Nat.id by lia. reflexivity. }
  split; [exact Hbytes|]. split; [rewrite Hbytes; lia|].
  apply validate_manifest_text.
  unfold text_schema, Scenario.accentedText.
  rewrite repeat_not_empty by lia.
  rewrite length_repeat, Z2Nat.id by lia. reflexivity.
Qed.

(** X1.  The key rule of the schema accepts a key exactly when it is not
    empty, does not contain [..] and is not absolute: the comparison with
    the normalised path (lines 15-18) never refuses a key, so keys that are
    not in normal form, such as [a//b] or [./a], are accepted. *)
Theorem key_rule_is_three_checks (key : string) :
  key_schema key
  = negb (key =? "")%string && negb (JsString.includes ".." key)
    && negb (Path.isAbsolute key).
Proof.
  unfold key_schema, safe_file_path.
  destruct (String.eqb_spec key "") as [->|Hne]; [reflexivity|].
  destruct (JsString.includes ".." key) eqn:Hdots; [reflexivity|].
  destruct (Path.isAbsolute key) eqn:Habs; [reflexivity|].
  cbn [orb negb andb].
  destruct (JsString.includes "/" key) eqn:Hslash.
  - now rewrite andb_false_r.
  - rewrite (PathFacts.normalize_single_segment key Hslash Hdots Hne), String.eqb_refl.
    reflexivity.
Qed.

Lemma list_includes_In (l : list string) (s : string) :
  list_includes l s = true <-> In s l.
Proof.
  unfold list_includes. rewrite existsb_exists. split.
  - intros [x [Hin Heq]]. apply String.eqb_eq in Heq. now subst.
  - intros Hin. exists s. split; [exact Hin | apply String.eqb_refl].
Qed.

Definition missingConfigMessage : string :=
  "Projeto deve conter pelo menos um arquivo de configuração principal (package.json, vite.config.js, etc.)".

Lemma find_first {A} (f : A -> bool) (before : list A) (x : A) (after : list A) :
  (forall b, In b before -> f b = false) -> f x = true ->
  find f (before ++ x :: after) = Some x.
Proof.
  intros Hb Hx. induction before as [|b before IH]; cbn [app find].
  - now rewrite Hx.
  - rewrite (Hb b) by now left. apply IH. intros b' Hin. apply Hb. now right.
Qed.

(** X2.  [validateProjectStructure] looks at the keys only.  Without one of
    the five main configuration files among them, named exactly, it throws
    the message about the missing configuration, whatever the extensions; it
    returns [true] exactly when such a key exists and every key passes
    [validateFileExtension]; otherwise it throws for the first key, in
    [Object.keys] order, whose extension is not allowed, naming that
    extension. *)
Theorem project_structure_verdict (files : FileSet) :
  let keys := map fst files in
  ((forall k, In k keys -> ~ In k mainConfigFiles) ->
   validateProjectStructure files = inl missingConfigMessage) /\
  (validateProjectStructure files = inr true <->
   (exists k, In k keys /\ In k mainConfigFiles) /\
   (forall k, In k keys -> validateFileExtension k = true)) /\
  (forall before k after,
     (exists m, In m keys /\ In m mainConfigFiles) ->
     keys = (before ++ k :: after)%list ->
     (forall b, In b before -> validateFileExtension b = true) ->
     validateFileExtension k = false ->
     validateProjectStructure files
     = inl ("Extensão de arquivo não permitida: " ++ Path.extname k)).
Proof.
  intros keys. unfold validateProjectStructure. fold keys.
  assert (Hmain : existsb (list_includes mainConfigFiles) keys = true
                  <-> exists k, In k keys /\ In k mainConfigFiles).
  { rewrite existsb_exists. split; intros [k [Hin Hk]]; exists k;
      (split; [exact Hin | now apply list_includes_In]). }
  split; [|split].
  - intros Hnone.
    destruct (existsb (list_includes mainConfigFiles) keys) eqn:Hex; [|reflexivity].
    destruct (proj1 Hmain eq_refl) as [k [Hin Hk]]. now elim (Hnone k).
  - destruct (existsb (list_includes mainConfigFiles) keys) eqn:Hex; cbn [negb].
    + destruct (find _ keys) as [bad|] eqn:Hfind.
      * split; [discriminate|]. intros [_ Hall].
        apply find_some in Hfind as [Hin Hbad].
        rewrite (Hall bad Hin) in Hbad. discriminate.
      * split; [|reflexivity]. intros _. split; [now apply Hmain|].
        intros k Hin. pose proof (find_none _ _ Hfind k Hin) as Hk.
        now apply negb_false_iff in Hk.
    + split; [discriminate|]. intros [Hk _]. apply Hmain in Hk. discriminate.
  - intros before k after Hk Hkeys Hbefore Hbad.
    rewrite (proj2 Hmain Hk). cbn [negb].
    rewrite Hkeys, (find_first _ before k after); [reflexivity| |].
    + intros b Hin. now rewrite (Hbefore b Hin).
    + now rewrite Hbad.
Qed.

(** X3.  For a path whose last component is a name followed by a dot and
    an extension, [validateFileExtension] looks up the extension, put in
    lower case, in the list of allowed ones: [src/App.JSX] passes and
    [run.sh] does not, wherever the file is. *)
Theorem extension_check_reads_last_suffix (base ext : string) :
  base <> "" -> Path.endsWithSlash base = false ->
  ext <> "" -> forallb PathFacts.plain (list_ascii_of_string ext) = true ->
  validateFileExtension (base ++ "." ++ ext)
  = list_includes allowedExtensions ("." ++ JsString.toLowerCase ext).
Proof.
  intros Hbase Hslash Hext Hplain. unfold validateFileExtension.
  rewrite (PathFacts.extname_suffix base ext Hbase Hslash Hext Hplain).
  cbn [append JsString.toLowerCase].
  replace (JsString.lower_unit ".") with "."%char by reflexivity.
  now rewrite orb_false_r.
Qed.









End ValidationFacts.

(** ** Reasoning about computations *)

Module JsFacts.
Import Js.
Local Open Scope js_scope.

(** A computation settles when awaiting it never hangs. *)
Definition settles {A} (m : M A) : Prop :=
  forall c w, fst (m c w) <> Pending.

(** A computation fails when it always throws. *)
Definition fails {A} (m : M A) : Prop :=
  forall c w, exists e, fst (m c w) = Throw e.

(** A computation that never throws and never hangs. *)
Definition always_returns {A} (m : M A) : Prop :=
  forall c w, exists a, fst (m c w) = Return a.

Lemma bind_Return {A B} (m : M A) (k : A -> M B) c w a w' :
  m c w = (Return a, w') -> bind m k c w = k a c w'.
Proof. unfold bind. now intros ->. Qed.

Lemma bind_Throw {A B} (m : M A) (k : A -> M B) c w e w' :
  m c w = (Throw e, w') -> bind m k c w = (Throw e, w').
Proof. unfold bind. now intros ->. Qed.

Lemma try_catch_Return {A} (m : M A) (h : JsError -> M A) c w a w' :
  m c w = (Return a, w') -> try_catch m h c w = (Return a, w').
Proof. unfold try_catch. now intros ->. Qed.

Lemma try_catch_Throw {A} (m : M A) (h : JsError -> M A) c w e w' :
  m c w = (Throw e, w') -> try_catch m h c w = h e c w'.
Proof. unfold try_catch. now intros ->. Qed.

Lemma settles_ret {A} (a : A) : settles (ret a).
Proof. intros c w. discriminate. Qed.

Lemma settles_throw {A} (e : JsError) : settles (@throw A e).
Proof. intros c w. discriminate. Qed.

Lemma settles_ask : settles ask.
Proof. intros c w. discriminate. Qed.

Lemma settles_now : settles now.
Proof. intros c w. discriminate. Qed.

Lemma settles_emit (e : Effect) : settles (emit e).
Proof. intros c w. discriminate. Qed.

Lemma settles_emit_all (es : list Effect) : settles (emit_all es).
Proof. intros c w. discriminate. Qed.

Lemma settles_observe {A} (f : Env -> string + A) : settles (observe f).
Proof. intros c w. unfold observe. destruct (f (env c)); discriminate. Qed.

Lemma settles_perform (call : SysCall) (f : Env -> string + unit) :
  settles (perform call f).
Proof. intros c w. unfold perform. destruct (f (env c)); discriminate. Qed.

Lemma settles_bind {A B} (m : M A) (k : A -> M B) :
  settles m -> (forall a, settles (k a)) -> settles (bind m k).
Proof.
  intros Hm Hk c w. unfold bind. specialize (Hm c w).
  destruct (m c w) as [[a|e|] w']; simpl in *;
    [apply Hk | discriminate | now elim Hm].
Qed.

Lemma settles_try_catch {A} (m : M A) (h : JsError -> M A) :
  settles m -> (forall e, settles (h e)) -> settles (try_catch m h).
Proof.
  intros Hm Hh c w. unfold try_catch. specialize (Hm c w).
  destruct (m c w) as [[a|e|] w']; simpl in *;
    [discriminate | apply Hh | now elim Hm].
Qed.

Lemma settles_if {A} (b : bool) (m1 m2 : M A) :
  settles m1 -> settles m2 -> settles (if b then m1 else m2).
Proof. now destruct b. Qed.

Lemma fails_throw {A} (e : JsError) : fails (@throw A e).
Proof. intros c w. now exists e. Qed.

Lemma fails_bind_l {A B} (m : M A) (k : A -> M B) :
  fails m -> fails (bind m k).
Proof.
  intros Hm c w. unfold bind. destruct (Hm c w) as [e He].
  destruct (m c w) as [[a|e'|] w']; simpl in *; try discriminate.
  now exists e'.
Qed.

Lemma fails_bind_r {A B} (m : M A) (k : A -> M B) :
  settles m -> (forall a, fails (k a)) -> fails (bind m k).
Proof.
  intros Hm Hk c w. unfold bind. specialize (Hm c w).
  destruct (m c w) as [[a|e|] w']; simpl in *;
    [apply Hk | now exists e | now elim Hm].
Qed.

Lemma always_returns_ret {A} (a : A) : always_returns (ret a).
Proof. intros c w. now exists a. Qed.

Lemma always_returns_emit (e : Effect) : always_returns (emit e).
Proof. intros c w. now exists tt. Qed.

Lemma always_returns_bind {A B} (m : M A) (k : A -> M B) :
  always_returns m -> (forall a, always_returns (k a)) -> always_returns (bind m k).
Proof.
  intros Hm Hk c w. unfold bind. destruct (Hm c w) as [a Ha].
  destruct (m c w) as [[a'|e|] w']; simpl in *; try discriminate.
  apply Hk.
Qed.

Lemma always_returns_settles {A} (m : M A) : always_returns m -> settles m.
Proof. intros H c w. destruct (H c w) as [a ->]. discriminate. Qed.

(** Every effect a computation adds to the trace, in a given context,
    satisfies [P]. *)
Definition emits (P : Effect -> Prop) (c : Ctx) {A} (m : M A) : Prop :=
  forall w, exists es, trace (snd (m c w)) = (trace w ++ es)%list /\ Forall P es.

Section Emits.
Variable P : Effect -> Prop.
Variable c : Ctx.

Lemma emits_nothing {A} (m : M A) :
  (forall w, trace (snd (m c w)) = trace w) -> emits P c m.
Proof.
  intros H w. exists []. rewrite app_nil_r. split; [apply H | constructor].
Qed.

Lemma emits_ret {A} (a : A) : emits P c (ret a).
Proof. now apply emits_nothing. Qed.

Lemma emits_throw {A} (e : JsError) : emits P c (@throw A e).
Proof. now apply emits_nothing. Qed.

Lemma emits_pending {A} : emits P c (@pending A).
Proof. now apply emits_nothing. Qed.

Lemma emits_ask : emits P c ask.
Proof. now apply emits_nothing. Qed.

Lemma emits_now : emits P c now.
Proof. now apply emits_nothing. Qed.

Lemma emits_observe {A} (f : Env -> string + A) : emits P c (observe f).
Proof.
  apply emits_nothing. intros w. unfold observe.
  now destruct (f (env c)).
Qed.

Lemma emits_emit (e : Effect) : P e -> emits P c (emit e).
Proof. intros H w. exists [e]. split; [reflexivity | now constructor]. Qed.

Lemma emits_emit_all (es : list Effect) : Forall P es -> emits P c (emit_all es).
Proof. intros H w. now exists es. Qed.

Lemma emits_bind {A B} (m : M A) (k : A -> M B) :
  emits P c m -> (forall a, emits P c (k a)) -> emits P c (bind m k).
Proof.
  intros Hm Hk w. unfold bind. destruct (Hm w) as (es & Hes & HP).
  destruct (m c w) as [[a|e|] w']; cbn [snd] in *.
  - destruct (Hk a w') as (es' & Hes' & HP').
    exists (es ++ es')%list. rewrite Hes', Hes, app_assoc.
    split; [reflexivity | now apply Forall_app].
  - now exists es.
  - now exists es.
Qed.

(** When the first part does not return, the rest is not run. *)
Lemma emits_bind_stop {A B} (m : M A) (k : A -> M B) :
  emits P c m -> (forall w a, fst (m c w) <> Return a) -> emits P c (bind m k).
Proof.
  intros Hm Hstop w. unfold bind. destruct (Hm w) as (es & Hes & HP).
  specialize (Hstop w).
  destruct (m c w) as [[a|e|] w']; cbn [fst snd] in *.
  - now elim (Hstop a).
  - now exists es.
  - now exists es.
Qed.

Lemma emits_try_catch {A} (m : M A) (h : JsError -> M A) :
  emits P c m -> (forall e, emits P c (h e)) -> emits P c (try_catch m h).
Proof.
  intros Hm Hh w. unfold try_catch. destruct (Hm w) as (es & Hes & HP).
  destruct (m c w) as [[a|e|] w']; cbn [snd] in *.
  - now exists es.
  - destruct (Hh e w') as (es' & Hes' & HP').
    exists (es ++ es')%list. rewrite Hes', Hes, app_assoc.
    split; [reflexivity | now apply Forall_app].
  - now exists es.
Qed.

Lemma emits_if {A} (b : bool) (m1 m2 : M A) :
  emits P c m1 -> emits P c m2 -> emits P c (if b then m1 else m2).
Proof. now destruct b. Qed.

End Emits.

Create HintDb emits.
#[export] Hint Resolve emits_ret emits_throw emits_pending emits_ask emits_now
  emits_observe emits_bind emits_try_catch emits_if : emits.

Create HintDb settles.
#[export] Hint Resolve settles_ret settles_throw settles_ask settles_now
  settles_emit settles_emit_all settles_observe settles_perform
  settles_bind settles_try_catch settles_if : settles.

(** Every error the computation throws in context [c] satisfies [P]. *)
Definition raises (P : JsError -> Prop) (c : Ctx) {A} (m : M A) : Prop :=
  forall w e, fst (m c w) = Throw e -> P e.

Section Raises.
Variable P : JsError -> Prop.
Variable c : Ctx.

Lemma raises_never {A} (m : M A) :
  (forall w, exists a, fst (m c w) = Return a) -> raises P c m.
Proof. intros H w e He. destruct (H w) as [a Ha]. congruence. Qed.

Lemma raises_ret {A} (a : A) : raises P c (ret a).
Proof. intros w e H. discriminate H. Qed.

Lemma raises_emit (e : Effect) : raises P c (emit e).
Proof. intros w e' H. discriminate H. Qed.

Lemma raises_ask : raises P c ask.
Proof. intros w e H. discriminate H. Qed.

Lemma raises_now : raises P c now.
Proof. intros w e H. discriminate H. Qed.

Lemma raises_throw {A} (e : JsError) : P e -> raises P c (@throw A e).
Proof. intros H w e' He. injection He as <-. exact H. Qed.

Lemma raises_bind {A B} (m : M A) (k : A -> M B) :
  raises P c m -> (forall a, raises P c (k a)) -> raises P c (bind m k).
Proof.
  intros Hm Hk w e. unfold bind.
  destruct (m c w) as [[a|e0|] w1] eqn:Hmw.
  - apply Hk.
  - cbn. intros [= <-]. apply (Hm w). now rewrite Hmw.
  - discriminate.
Qed.

Lemma raises_bind_value {A B} (m : M A) (k : A -> M B) (v : A) :
  (forall w, fst (m c w) = Return v) -> raises P c (k v) -> raises P c (bind m k).
Proof.
  intros Hm Hk w e. unfold bind. specialize (Hm w).
  destruct (m c w) as [[a|e0|] w1]; cbn [fst] in Hm; try discriminate Hm.
  injection Hm as ->. apply Hk.
Qed.

Lemma raises_try_catch {A} (m : M A) (h : JsError -> M A) :
  (forall e, raises P c (h e)) -> raises P c (try_catch m h).
Proof.
  intros Hh w e. unfold try_catch.
  destruct (m c w) as [[a|e0|] w1]; try discriminate. apply Hh.
Qed.

Lemma raises_if {A} (b : bool) (m1 m2 : M A) :
  raises P c m1 -> raises P c m2 -> raises P c (if b then m1 else m2).
Proof. now destruct b. Qed.

End Raises.

Lemma raises_bind_from {A B} P c (m : M A) (k : A -> M B) :
  raises P c m ->
  (forall a, (exists w, fst (m c w) = Return a) -> raises P c (k a)) ->
  raises P c (bind m k).
Proof.
  intros Hm Hk w e. unfold bind.
  destruct (m c w) as [[a|e0|] w1] eqn:Hmw.
  - apply Hk. exists w. now rewrite Hmw.
  - cbn. intros [= <-]. apply (Hm w). now rewrite Hmw.
  - discriminate.
Qed.

Lemma bind_Return_inv {A B} (m : M A) (k : A -> M B) c w b w' :
  bind m k c w = (Return b, w') ->
  exists a w1, m c w = (Return a, w1) /\ k a c w1 = (Return b, w').
Proof.
  unfold bind. destruct (m c w) as [[a|e|] w1]; intros H; try discriminate H.
  now exists a, w1.
Qed.

Lemma try_catch_Return_inv {A} (m : M A) (h : JsError -> M A) c w a w' :
  (forall e c w, exists e', fst (h e c w) = Throw e') ->
  try_catch m h c w = (Return a, w') -> m c w = (Return a, w').
Proof.
  intros Hh. unfold try_catch. destruct (m c w) as [[a0|e|] w1]; intros H.
  - exact H.
  - destruct (Hh e c w1) as [e' He']. rewrite H in He'. discriminate He'.
  - exact H.
Qed.

Lemma emits_perform P c (call : SysCall) (f : Env -> string + unit) :
  (forall ok, P (Sys call ok)) -> emits P c (perform call f).
Proof.
  intros HP w. unfold perform.
  destruct (f (env c)); cbn [snd trace]; eexists; (split; [reflexivity|]);
    repeat constructor; apply HP.
Qed.

End JsFacts.

(** ** File-system helpers *)

Module FileSystemFacts.
Import Js JsFacts FileSystem.
Local Open Scope js_scope.

Lemma settles_logger lvl msg : settles (logger lvl msg).
Proof. apply settles_emit. Qed.

Lemma settles_ensureDirectory dirPath : settles (ensureDirectory dirPath).
Proof. unfold ensureDirectory, logger. auto 10 with settles. Qed.

Lemma settles_writeFileSecure filePath content :
  settles (writeFileSecure filePath content).
Proof.
  unfold writeFileSecure, logger.
  pose proof settles_ensureDirectory. auto 12 with settles.
Qed.

Lemma settles_removeDirectory dirPath : settles (removeDirectory dirPath).
Proof. unfold removeDirectory, logger. auto 10 with settles. Qed.

Lemma settles_getDirectorySize dirPath : settles (getDirectorySize dirPath).
Proof.
  unfold getDirectorySize. apply settles_bind; [auto with settles|].
  intros c. destruct (getDirectorySize_at _ _). auto with settles.
Qed.

Lemma settles_checkDiskSpace : settles checkDiskSpace.
Proof. unfold checkDiskSpace, logger. auto 12 with settles. Qed.

(** [getDirectorySize] never throws. *)
Lemma getDirectorySize_returns dirPath : always_returns (getDirectorySize dirPath).
Proof.
  intros c w. unfold getDirectorySize, bind, ask, emit_all, ret.
  destruct (getDirectorySize_at _ _) as [n logs]. now exists n.
Qed.

Lemma checkDiskSpace_returns : always_returns checkDiskSpace.
Proof.
  intros c w. unfold checkDiskSpace, try_catch, bind, ask, observe, logger, emit, ret.
  destruct (fs_statfs _ _); simpl; eauto.
Qed.

(** An error in the scan of the directory itself: it is not a directory,
    it cannot be listed, or the [stat] of one of its own entries throws. *)
Definition directStatError (files : list (string * FsNode)) : bool :=
  existsb (fun entry => match snd entry with
                        | NotDirectory (inl _) => true
                        | _ => false
                        end) files.

Definition topLevelError (node : FsNode) : bool :=
  match node with
  | NotDirectory _ => true
  | Directory (inl _) => true
  | Directory (inr files) => directStatError files
  end.

(** What one entry adds to the sum of its directory. *)
Definition entrySize (dirPath : string) (entry : string * FsNode) : Z :=
  match snd entry with
  | Directory _ =>
      fst (getDirectorySize_at (Path.join dirPath (fst entry)) (snd entry))
  | NotDirectory (inr fileSize) => fileSize
  | NotDirectory (inl _) => 0
  end.

Definition sumZ (l : list Z) : Z := fold_right Z.add 0 l.

Lemma sumEntries_error recur dirPath files totalSize logs :
  directStatError files = true ->
  exists logs', sumEntries recur dirPath files totalSize logs = inl logs'.
Proof.
  revert totalSize logs.
  induction files as [|[fileName file] rest IH]; intros totalSize logs H;
    [discriminate|].
  cbn [sumEntries]. cbn [directStatError existsb snd] in H.
  destruct file as [listing|[msg|fileSize]].
  - destruct (recur _ _) as [sub subLogs]. apply IH. exact H.
  - eauto.
  - apply IH. exact H.
Qed.

Lemma sumEntries_sum dirPath files totalSize logs :
  directStatError files = false ->
  exists logs',
    sumEntries getDirectorySize_at dirPath files totalSize logs
    = inr (totalSize + sumZ (map (entrySize dirPath) files), logs').
Proof.
  revert totalSize logs.
  induction files as [|[fileName file] rest IH]; intros totalSize logs H.
  - exists logs. cbn. now rewrite Z.add_0_r.
  - cbn [sumEntries]. cbn [directStatError existsb snd] in H.
    cbn [map sumZ fold_right]. fold (sumZ (map (entrySize dirPath) rest)).
    destruct file as [listing|[msg|fileSize]]; [| discriminate |].
    + unfold entrySize at 1. cbn [fst snd].
      destruct (getDirectorySize_at _ _) as [sub subLogs]. cbn [fst].
      destruct (IH (totalSize + sub) (logs ++ subLogs)%list H) as [logs' ->].
      exists logs'. now rewrite Z.add_assoc.
    + unfold entrySize at 1. cbn [fst snd].
      destruct (IH (totalSize + fileSize) logs H) as [logs' ->].
      exists logs'. now rewrite Z.add_assoc.
Qed.

Lemma getDirectorySize_at_top_level_error dirPath node :
  topLevelError node = true -> fst (getDirectorySize_at dirPath node) = 0.
Proof.
  destruct node as [[msg|files]|st]; cbn [topLevelError getDirectorySize_at];
    try reflexivity.
  intros H.
  destruct (sumEntries_error getDirectorySize_at dirPath files 0 [] H)
    as [logs' ->].
  reflexivity.
Qed.

Lemma getDirectorySize_at_sum dirPath files :
  directStatError files = false ->
  fst (getDirectorySize_at dirPath (Directory (inr files)))
  = sumZ (map (entrySize dirPath) files).
Proof.
  intros H. cbn [getDirectorySize_at].
  destruct (sumEntries_sum dirPath files 0 [] H) as [logs' ->].
  reflexivity.
Qed.

Lemma getDirectorySize_value dirPath c w :
  fst (getDirectorySize dirPath c w)
  = Return (fst (getDirectorySize_at dirPath (fs_scan (env c) dirPath))).
Proof.
  unfold getDirectorySize, bind, ask, emit_all, ret.
  destruct (getDirectorySize_at _ _). reflexivity.
Qed.

(** *** The retention sweep *)

Definition entryPath (c : Ctx) (entry : Dirent) : string :=
  Path.join (previewsDir (config c)) (name entry).

(** The entries a sweep at time [now] finds over age: directories whose
    [stat] succeeds and whose time since the last modification exceeds
    [previewMaxAgeMs]. *)
Definition overAge (c : Ctx) (now : Z) (entry : Dirent) : bool :=
  dirent_isDirectory entry &&
  match fs_stat (env c) (entryPath c entry) with
  | inr stats => now - mtimeMs stats >? previewMaxAgeMs (config c)
  | inl _ => false
  end.

(** The entries the loop gets past: those that are not directories, and the
    directories whose [stat] succeeds and which are young or removed without
    error. *)
Definition passes (c : Ctx) (now : Z) (entry : Dirent) : bool :=
  negb (dirent_isDirectory entry) ||
  match fs_stat (env c) (entryPath c entry) with
  | inr stats =>
      negb (now - mtimeMs stats >? previewMaxAgeMs (config c)) ||
      match fs_rm (env c) (entryPath c entry) with
      | inr _ => true
      | inl _ => false
      end
  | inl _ => false
  end.

(** What the loop leaves for an entry it gets past. *)
Definition sweepEffects (c : Ctx) (now : Z) (entry : Dirent) : list Effect :=
  if overAge c now entry then
    [ Sys (Rm (entryPath c entry)) true;
      Log "FileSystem" Debug ("Diretório removido: " ++ entryPath c entry);
      Log "FileSystem" Info ("Preview antigo removido: " ++ name entry) ]
  else [].

(** The directories removed, and those whose removal was attempted. *)
Definition removals (es : list Effect) : list string :=
  flat_map (fun e => match e with Sys (Rm p) true => [p] | _ => [] end) es.

Definition removalAttempts (es : list Effect) : list string :=
  flat_map (fun e => match e with Sys (Rm p) _ => [p] | _ => [] end) es.

Definition countOf (c : Ctx) (now : Z) (entries : list Dirent) : Z :=
  Z.of_nat (List.length (filter (overAge c now) entries)).

Lemma cleanupEntries_passes c now entries rest cleanedCount w :
  forallb (passes c now) entries = true ->
  cleanupEntries (previewsDir (config c)) now (previewMaxAgeMs (config c))
    (entries ++ rest) cleanedCount c w
  = cleanupEntries (previewsDir (config c)) now (previewMaxAgeMs (config c))
      rest (cleanedCount + countOf c now entries) c
      (mkWorld (trace w ++ flat_map (sweepEffects c now) entries) (clockReads w)).
Proof.
  revert cleanedCount w.
  induction entries as [|entry entries IH]; intros cleanedCount w H.
  - unfold countOf. cbn [app flat_map filter List.length Z.of_nat].
    rewrite app_nil_r, Z.add_0_r. now destruct w.
  - cbn [forallb] in H. apply andb_true_iff in H as [Hentry Hrest].
    assert (Hcount : forall b, overAge c now entry = b ->
              countOf c now (entry :: entries)
              = (if b then 1 else 0) + countOf c now entries).
    { intros b Hb. unfold countOf. cbn [filter]. rewrite Hb.
      destruct b; [cbn [List.length]; lia | reflexivity]. }
    cbn [app cleanupEntries flat_map]. unfold sweepEffects at 1.
    unfold passes in Hentry. fold (entryPath c entry).
    destruct (dirent_isDirectory entry) eqn:Hd.
    + cbv beta iota zeta delta [bind observe].
      destruct (fs_stat (env c) (entryPath c entry)) as [msg|stats] eqn:Hs;
        [discriminate|].
      destruct (now - mtimeMs stats >? previewMaxAgeMs (config c)) eqn:Ha.
      * assert (Hover : overAge c now entry = true)
          by (unfold overAge; now rewrite Hd, Hs, Ha).
        destruct (fs_rm (env c) (entryPath c entry)) as [msg|[]] eqn:Hrm;
          [discriminate|].
        cbv beta iota zeta delta
          [removeDirectory logger try_catch bind perform emit].
        rewrite Hrm. cbn [trace clockReads].
        rewrite (IH _ _ Hrest), (Hcount _ Hover), Hover.
        cbn [trace clockReads]. rewrite <- !app_assoc. cbn [app].
        rewrite Z.add_assoc. reflexivity.
      * assert (Hover : overAge c now entry = false)
          by (unfold overAge; now rewrite Hd, Hs, Ha).
        rewrite (IH _ _ Hrest), (Hcount _ Hover), Hover.
        rewrite app_nil_l. reflexivity.
    + assert (Hover : overAge c now entry = false)
        by (unfold overAge; now rewrite Hd).
      rewrite (IH _ _ Hrest), (Hcount _ Hover), Hover.
      rewrite app_nil_l. reflexivity.
Qed.

Lemma removals_app a b : removals (a ++ b) = (removals a ++ removals b)%list.
Proof. apply flat_map_app. Qed.

Lemma removalAttempts_app a b :
  removalAttempts (a ++ b) = (removalAttempts a ++ removalAttempts b)%list.
Proof. apply flat_map_app. Qed.

Lemma removals_sweep c now entries :
  removals (flat_map (sweepEffects c now) entries)
  = map (entryPath c) (filter (overAge c now) entries).
Proof.
  induction entries as [|entry entries IH]; [reflexivity|].
  cbn [flat_map filter]. rewrite removals_app, IH. unfold sweepEffects.
  destruct (overAge c now entry); reflexivity.
Qed.

Lemma removalAttempts_sweep c now entries :
  removalAttempts (flat_map (sweepEffects c now) entries)
  = map (entryPath c) (filter (overAge c now) entries).
Proof.
  induction entries as [|entry entries IH]; [reflexivity|].
  cbn [flat_map filter]. rewrite removalAttempts_app, IH. unfold sweepEffects.
  destruct (overAge c now entry); reflexivity.
Qed.

(** The record that closes a sweep which removed something. *)
Definition summary (cleanedCount : Z) : list Effect :=
  if cleanedCount >? 0 then
    [ Log "FileSystem" Info
        ("Limpeza concluída: " ++ JsString.of_Z cleanedCount ++ " previews removidos") ]
  else [].

(** A sweep in which no call fails. *)
Lemma cleanupOldPreviews_clean c stats entries :
  fs_stat (env c) (previewsDir (config c)) = inr stats ->
  isDirectory stats = true ->
  fs_readdir (env c) (previewsDir (config c)) = inr entries ->
  forallb (passes c (Date_now (env c) 0)) entries = true ->
  run cleanupOldPreviews c
  = (Return Undefined,
     mkWorld (flat_map (sweepEffects c (Date_now (env c) 0)) entries
              ++ summary (countOf c (Date_now (env c) 0) entries)) 1).
Proof.
  intros Hstat Hdir Hreaddir Hpass.
  unfold run, cleanupOldPreviews.
  cbv beta iota zeta delta
    [directoryExists try_catch bind ask observe now ret initial].
  rewrite Hstat. cbv beta iota. rewrite Hdir. cbn [negb].
  rewrite Hreaddir. cbv beta iota. cbn [trace clockReads].
  rewrite <- (app_nil_r entries) at 1.
  rewrite (cleanupEntries_passes _ _ _ _ _ _ Hpass).
  cbn [cleanupEntries ret trace clockReads app]. rewrite Z.add_0_l.
  unfold summary, logger, emit, ret.
  destruct (countOf c (Date_now (env c) 0) entries >? 0);
    cbn [trace clockReads]; rewrite ?app_nil_r; reflexivity.
Qed.

(** A sweep that meets a removal error. *)
Lemma cleanupOldPreviews_stuck c stats (before : list Dirent) failing rest msg :
  fs_stat (env c) (previewsDir (config c)) = inr stats ->
  isDirectory stats = true ->
  fs_readdir (env c) (previewsDir (config c))
  = inr (before ++ failing :: rest)%list ->
  forallb (passes c (Date_now (env c) 0)) before = true ->
  overAge c (Date_now (env c) 0) failing = true ->
  fs_rm (env c) (entryPath c failing) = inl msg ->
  run cleanupOldPreviews c
  = (Return Undefined,
     mkWorld (flat_map (sweepEffects c (Date_now (env c) 0)) before
              ++ [ Sys (Rm (entryPath c failing)) false;
                   Log "FileSystem" Err
                     ("Erro ao remover diretório " ++ entryPath c failing ++ ":");
                   Log "FileSystem" Err "Erro durante limpeza automática:" ]) 1).
Proof.
  intros Hstat Hdir Hreaddir Hpass Hover Hrm.
  unfold run, cleanupOldPreviews.
  cbv beta iota zeta delta
    [directoryExists try_catch bind ask observe now ret initial].
  rewrite Hstat. cbv beta iota. rewrite Hdir. cbn [negb].
  rewrite Hreaddir. cbv beta iota. cbn [trace clockReads].
  rewrite (cleanupEntries_passes _ _ _ _ _ _ Hpass).
  cbn [cleanupEntries trace clockReads app].
  unfold overAge in Hover. fold (entryPath c failing).
  destruct (dirent_isDirectory failing); [|discriminate].
  cbv beta iota zeta delta [bind observe].
  destruct (fs_stat (env c) (entryPath c failing)) as [e|st]; [discriminate|].
  cbn [andb] in Hover. rewrite Hover.
  cbv beta iota zeta delta
    [removeDirectory logger try_catch bind perform emit throw ret].
  rewrite Hrm. cbn [trace clockReads]. rewrite <- !app_assoc. reflexivity.
Qed.

(** C4 (as amended).  A sweep in which no call fails removes exactly the
    top-level directories of the preview root whose time since the last
    modification exceeds [previewMaxAgeMs], in the order of the listing, and
    attempts no other removal.  It counts them and, when there are any,
    logs the count; the function itself returns no value. *)
Theorem sweep_removes_overage_directories (c : Ctx) (stats : Stats)
    (entries : list Dirent) :
  fs_stat (env c) (previewsDir (config c)) = inr stats ->
  isDirectory stats = true ->
  fs_readdir (env c) (previewsDir (config c)) = inr entries ->
  forallb (passes c (Date_now (env c) 0)) entries = true ->
  let now := Date_now (env c) 0 in
  let r := run cleanupOldPreviews c in
  fst r = Return Undefined /\
  removals (trace (snd r)) = map (entryPath c) (filter (overAge c now) entries) /\
  removalAttempts (trace (snd r)) = removals (trace (snd r)) /\
  (0 < countOf c now entries ->
   In (Log "FileSystem" Info
         ("Limpeza concluída: " ++ JsString.of_Z (countOf c now entries)
          ++ " previews removidos")) (trace (snd r))).
Proof.
  intros Hstat Hdir Hreaddir Hpass. cbv zeta.
  rewrite (cleanupOldPreviews_clean c stats entries Hstat Hdir Hreaddir Hpass).
  cbn [fst snd trace].
  assert (Hsummary : removals (summary (countOf c (Date_now (env c) 0) entries)) = []
                     /\ removalAttempts (summary (countOf c (Date_now (env c) 0) entries)) = []).
  { unfold summary. now destruct (_ >? 0). }
  destruct Hsummary as [Hs1 Hs2].
  rewrite removals_app, removalAttempts_app, Hs1, Hs2, !app_nil_r.
  rewrite removals_sweep, removalAttempts_sweep.
  repeat split.
  intros Hpos. apply in_or_app. right. unfold summary.
  destruct (Z.gtb_spec (countOf c (Date_now (env c) 0) entries) 0); [now left | lia].
Qed.

(** C3 (as amended).  An error while removing an over-age directory is
    logged, by [removeDirectory] and by the sweep, and the sweep ends there
    without throwing: the entries listed before it have been handled, and no
    entry listed after it is visited. *)
Theorem sweep_stops_at_removal_error (c : Ctx) (stats : Stats)
    (before : list Dirent) (failing : Dirent) (rest : list Dirent)
    (msg : string) :
  fs_stat (env c) (previewsDir (config c)) = inr stats ->
  isDirectory stats = true ->
  fs_readdir (env c) (previewsDir (config c))
  = inr (before ++ failing :: rest)%list ->
  forallb (passes c (Date_now (env c) 0)) before = true ->
  overAge c (Date_now (env c) 0) failing = true ->
  fs_rm (env c) (entryPath c failing) = inl msg ->
  let now := Date_now (env c) 0 in
  let r := run cleanupOldPreviews c in
  fst r = Return Undefined /\
  In (Log "FileSystem" Err
        ("Erro ao remover diretório " ++ entryPath c failing ++ ":"))
     (trace (snd r)) /\
  In (Log "FileSystem" Err "Erro durante limpeza automática:") (trace (snd r)) /\
  removals (trace (snd r)) = map (entryPath c) (filter (overAge c now) before) /\
  removalAttempts (trace (snd r))
  = (map (entryPath c) (filter (overAge c now) before) ++ [entryPath c failing])%list.
Proof.
  intros Hstat Hdir Hreaddir Hpass Hover Hrm. cbv zeta.
  rewrite (cleanupOldPreviews_stuck c stats before failing rest msg
             Hstat Hdir Hreaddir Hpass Hover Hrm).
  cbn [fst snd trace].
  rewrite removals_app, removalAttempts_app, removals_sweep, removalAttempts_sweep.
  split; [reflexivity|].
  split; [apply in_or_app; right; right; now left|].
  split; [apply in_or_app; right; right; right; now left|].
  split; [now rewrite app_nil_r | reflexivity].
Qed.

Definition isDirectoryAt (c : Ctx) (p : string) : bool :=
  match fs_stat (env c) p with
  | inr stats => isDirectory stats
  | inl _ => false
  end.

Lemma directoryExists_at dirPath c w :
  FileSystem.directoryExists dirPath c w = (Return (isDirectoryAt c dirPath), w).
Proof.
  unfold isDirectoryAt.
  cbv beta iota zeta delta [FileSystem.directoryExists try_catch bind observe ret].
  now destruct (fs_stat (env c) dirPath).
Qed.

(** [fileExists(p)] as a function of the host. *)
Definition isFileAt (c : Ctx) (p : string) : bool :=
  match fs_stat (env c) p with
  | inr stats => isFile stats
  | inl _ => false
  end.

Lemma fileExists_eq filePath c w :
  FileSystem.fileExists filePath c w = (Return (isFileAt c filePath), w).
Proof.
  unfold isFileAt.
  cbv beta iota zeta delta [FileSystem.fileExists try_catch bind observe ret].
  now destruct (fs_stat (env c) filePath).
Qed.

(** [checkDiskSpace] as a function of the host. *)
Definition diskSnapshot (c : Ctx) : option DiskSnapshot :=
  match fs_statfs (env c) (previewsDir (config c)) with
  | inr stats =>
      let freeBytes :=
        (JsNumber.of_Z (bavail stats) * JsNumber.of_Z (bsize stats))%float in
      let totalBytes :=
        (JsNumber.of_Z (blocks stats) * JsNumber.of_Z (bsize stats))%float in
      let usedBytes := (totalBytes - freeBytes)%float in
      let usagePercent := ((usedBytes / totalBytes) * 100)%float in
      Some (mkDiskSnapshot freeBytes totalBytes usedBytes
              (JsNumber.Math_round (usagePercent * 100) / 100)%float)
  | inl _ => None
  end.

Lemma checkDiskSpace_value c w :
  fst (checkDiskSpace c w) = Return (diskSnapshot c).
Proof.
  unfold diskSnapshot.
  cbv beta iota zeta delta [checkDiskSpace try_catch bind ask observe ret logger emit].
  now destruct (fs_statfs (env c) (previewsDir (config c))).
Qed.

(** [Math.round] at the halves, next to a half, and where it returns its
    argument. *)
Lemma Math_round_values :
  map JsNumber.Math_round
    [2.5; -2.5; 0x1.fffffffffffffp-2; -0.5; -0.25; 9499.5; 4503599627370497;
     infinity]%float
  = [3; -2; 0; -0; -0; 9500; 4503599627370497; infinity]%float.
Proof. vm_compute. reflexivity. Qed.

(** The usage reported on a disk of 4096-byte blocks with 500 of 1000
    blocks available, with 1001 of 20000, and with no blocks at all. *)
Lemma reported_usage_values :
  map (fun stats =>
         option_map usagePercent
           (diskSnapshot
              (mkCtx Scenario.defaults
                 (Scenario.withStatFs Scenario.quietEnv (fun _ => inr stats)))))
    [mkStatFs 500 4096 1000; mkStatFs 1001 4096 20000; mkStatFs 0 4096 0]
  = [Some 50; Some (9499 / 100); Some nan]%float.
Proof. vm_compute. reflexivity. Qed.

(** The disk is above the ceiling of line 28. *)
Definition diskFull (c : Ctx) : bool :=
  match diskSnapshot c with
  | Some snapshot => (90 <? usagePercent snapshot)%float
  | None => false
  end.

Lemma checkDiskSpace_eq c w :
  exists w', checkDiskSpace c w = (Return (diskSnapshot c), w').
Proof.
  pose proof (checkDiskSpace_value c w) as H.
  destruct (checkDiskSpace c w) as [o w']. cbn [fst] in H. subst o. now exists w'.
Qed.

Lemma raises_ensureDirectory P c dirPath :
  (forall msg, P (Error ("Falha ao criar diretório: " ++ msg))) ->
  raises P c (ensureDirectory dirPath).
Proof.
  intros HP. unfold ensureDirectory. apply raises_try_catch. intros e.
  apply raises_bind; [apply raises_emit|]. intros _. apply raises_throw, HP.
Qed.

Lemma raises_writeFileSecure P c filePath content :
  (forall msg, P (Error ("Falha ao escrever arquivo: " ++ msg))) ->
  raises P c (writeFileSecure filePath content).
Proof.
  intros HP. unfold writeFileSecure. apply raises_try_catch. intros e.
  apply raises_bind; [apply raises_emit|]. intros _. apply raises_throw, HP.
Qed.

Lemma raises_getDirectorySize P c dirPath : raises P c (getDirectorySize dirPath).
Proof.
  apply raises_never. intros w. eexists. apply getDirectorySize_value.
Qed.

Definition writeEffects (c : Ctx) (filePath : string) (content : json) : list Effect :=
  let dir := Path.dirname filePath in
  let data := fileContent (env c) content in
  match fs_mkdir (env c) dir with
  | inl _ =>
      [ Sys (Mkdir dir) false;
        Log "FileSystem" Err ("Erro ao criar diretório " ++ dir ++ ":");
        Log "FileSystem" Err ("Erro ao escrever arquivo " ++ filePath ++ ":") ]
  | inr _ =>
      [ Sys (Mkdir dir) true;
        Log "FileSystem" Debug ("Diretório criado/verificado: " ++ dir) ]
      ++ match fs_writeFile (env c) filePath data with
         | inl _ =>
             [ Sys (WriteFile filePath data) false;
               Log "FileSystem" Err ("Erro ao escrever arquivo " ++ filePath ++ ":") ]
         | inr _ =>
             [ Sys (WriteFile filePath data) true;
               Log "FileSystem" Debug ("Arquivo escrito: " ++ filePath) ]
         end
  end%list.

(** X4.  [writeFileSecure] creates the parent directory and then writes.
    When the directory cannot be created the write is not attempted and the
    error thrown nests the two messages; when the write fails the error
    carries its message; each failure is logged by the helper it occurs
    in. *)
Theorem write_reports_first_failure (filePath : string) (content : json)
    (c : Ctx) (w : World) :
  let dir := Path.dirname filePath in
  let data := fileContent (env c) content in
  writeFileSecure filePath content c w
  = (match fs_mkdir (env c) dir with
     | inl msg =>
         Throw (Error ("Falha ao escrever arquivo: Falha ao criar diretório: " ++ msg))
     | inr _ =>
         match fs_writeFile (env c) filePath data with
         | inl msg => Throw (Error ("Falha ao escrever arquivo: " ++ msg))
         | inr _ => Return tt
         end
     end,
     mkWorld (trace w ++ writeEffects c filePath content) (clockReads w)).
Proof.
  cbv zeta. unfold writeEffects.
  cbv beta iota zeta delta
    [writeFileSecure ensureDirectory logger bind try_catch ask emit ret perform throw].
  destruct (fs_mkdir (env c) (Path.dirname filePath)) as [msg|[]];
    cbn [trace clockReads message Error].
  - rewrite <- !app_assoc. reflexivity.
  - destruct (fs_writeFile (env c) filePath (fileContent (env c) content)) as [msg|[]];
      cbn [trace clockReads message Error]; rewrite <- !app_assoc; reflexivity.
Qed.

(** The bytes of all the files below a node, at any depth. *)
Fixpoint treeSize (node : FsNode) : Z :=
  match node with
  | NotDirectory (inr fileSize) => fileSize
  | NotDirectory (inl _) => 0
  | Directory (inl _) => 0
  | Directory (inr files) =>
      (fix total (l : list (string * FsNode)) : Z :=
         match l with
         | [] => 0
         | (_, file) :: rest => treeSize file + total rest
         end) files
  end.

Definition treeSizes (files : list (string * FsNode)) : Z :=
  sumZ (map (fun entry => treeSize (snd entry)) files).

Lemma treeSize_directory files :
  treeSize (Directory (inr files)) = treeSizes files.
Proof.
  unfold treeSizes. cbn [treeSize].
  induction files as [|[fileName file] rest IH]; [reflexivity|].
  cbn [map sumZ fold_right snd]. fold (sumZ (map (fun entry => treeSize (snd entry)) rest)).
  now rewrite IH.
Qed.

(** Every [readdir] and [stat] below the node succeeds. *)
Fixpoint readable (node : FsNode) : bool :=
  match node with
  | NotDirectory (inr _) => true
  | NotDirectory (inl _) => false
  | Directory (inl _) => false
  | Directory (inr files) =>
      (fix all (l : list (string * FsNode)) : bool :=
         match l with
         | [] => true
         | (_, file) :: rest => readable file && all rest
         end) files
  end.

Lemma readable_directory files :
  readable (Directory (inr files)) = forallb (fun entry => readable (snd entry)) files.
Proof.
  cbn [readable].
  induction files as [|[fileName file] rest IH]; [reflexivity|].
  cbn [forallb snd]. now rewrite IH.
Qed.

(** No file below the node has a negative size. *)
Fixpoint sized (node : FsNode) : bool :=
  match node with
  | NotDirectory (inr fileSize) => 0 <=? fileSize
  | NotDirectory (inl _) => true
  | Directory (inl _) => true
  | Directory (inr files) =>
      (fix all (l : list (string * FsNode)) : bool :=
         match l with
         | [] => true
         | (_, file) :: rest => sized file && all rest
         end) files
  end.

Lemma sized_directory files :
  sized (Directory (inr files)) = forallb (fun entry => sized (snd entry)) files.
Proof.
  cbn [sized].
  induction files as [|[fileName file] rest IH]; [reflexivity|].
  cbn [forallb snd]. now rewrite IH.
Qed.

Section FsNodeInduction.
Variable P : FsNode -> Prop.
Hypothesis Hleaf : forall st, P (NotDirectory st).
Hypothesis Hclosed : forall msg, P (Directory (inl msg)).
Hypothesis Hlisted :
  forall files, Forall (fun entry => P (snd entry)) files -> P (Directory (inr files)).

Fixpoint FsNode_nested_ind (node : FsNode) : P node :=
  match node with
  | NotDirectory st => Hleaf st
  | Directory (inl msg) => Hclosed msg
  | Directory (inr files) =>
      Hlisted files
        ((fix all (l : list (string * FsNode))
            : Forall (fun entry => P (snd entry)) l :=
            match l with
            | [] => Forall_nil _
            | (fileName, file) :: rest =>
                Forall_cons (fileName, file) (FsNode_nested_ind file) (all rest)
            end) files)
  end.
End FsNodeInduction.

Lemma sumZ_cons x l : sumZ (x :: l) = x + sumZ l.
Proof. reflexivity. Qed.

Lemma sumEntries_readable dirPath files :
  Forall (fun entry =>
            readable (snd entry) = true ->
            forall p, match snd entry with
                      | Directory _ => getDirectorySize_at p (snd entry)
                                       = (treeSize (snd entry), [])
                      | NotDirectory _ => True
                      end) files ->
  forallb (fun entry => readable (snd entry)) files = true ->
  forall totalSize logs,
    sumEntries getDirectorySize_at dirPath files totalSize logs
    = inr (totalSize + treeSizes files, logs).
Proof.
  unfold treeSizes.
  induction 1 as [|[fileName file] rest Hfile _ IH]; intros Hall totalSize logs.
  - cbn. now rewrite Z.add_0_r.
  - cbn [forallb snd] in Hall. apply andb_true_iff in Hall as [Hr Hrest].
    cbn [snd] in Hfile. specialize (Hfile Hr).
    cbn [sumEntries map snd]. rewrite sumZ_cons.
    destruct file as [listing|[msg|fileSize]].
    + rewrite (Hfile (Path.join dirPath fileName)).
      rewrite (IH Hrest), app_nil_r. f_equal. f_equal. lia.
    + discriminate Hr.
    + rewrite (IH Hrest). cbn [treeSize]. f_equal. f_equal. lia.
Qed.

Lemma getDirectorySize_at_readable node :
  readable node = true ->
  forall p, match node with
            | Directory _ => getDirectorySize_at p node = (treeSize node, [])
            | NotDirectory _ => True
            end.
Proof.
  induction node as [st|msg|files IH] using FsNode_nested_ind; intros Hr p.
  - exact I.
  - discriminate Hr.
  - rewrite readable_directory in Hr. rewrite treeSize_directory.
    cbn [getDirectorySize_at].
    rewrite (sumEntries_readable p files IH Hr 0 []). reflexivity.
Qed.

Lemma sumEntries_bounded dirPath files :
  Forall (fun entry =>
            sized (snd entry) = true ->
            forall p, 0 <= fst (getDirectorySize_at p (snd entry))
                      <= treeSize (snd entry)) files ->
  forallb (fun entry => sized (snd entry)) files = true ->
  forall totalSize logs,
    match sumEntries getDirectorySize_at dirPath files totalSize logs with
    | inl _ => True
    | inr (n, _) => totalSize <= n <= totalSize + treeSizes files
    end.
Proof.
  unfold treeSizes.
  induction 1 as [|[fileName file] rest Hfile _ IH]; intros Hall totalSize logs.
  - cbn. lia.
  - cbn [forallb snd] in Hall. apply andb_true_iff in Hall as [Hs Hrest].
    cbn [snd] in Hfile. specialize (Hfile Hs).
    cbn [sumEntries map snd]. rewrite sumZ_cons.
    destruct file as [listing|[msg|fileSize]].
    + specialize (Hfile (Path.join dirPath fileName)).
      destruct (getDirectorySize_at (Path.join dirPath fileName) (Directory listing))
        as [sub subLogs]. cbn [fst] in Hfile.
      specialize (IH Hrest (totalSize + sub) (logs ++ subLogs)%list).
      destruct (sumEntries _ _ rest _ _) as [|[n l]]; [exact I | lia].
    + exact I.
    + cbn [sized] in Hs. apply Z.leb_le in Hs.
      specialize (IH Hrest (totalSize + fileSize) logs).
      destruct (sumEntries _ _ rest _ _) as [|[n l]]; [exact I|].
      cbn [treeSize]. lia.
Qed.

Lemma treeSizes_nonneg files :
  Forall (fun entry => sized (snd entry) = true -> 0 <= treeSize (snd entry)) files ->
  forallb (fun entry => sized (snd entry)) files = true ->
  0 <= treeSizes files.
Proof.
  unfold treeSizes.
  induction 1 as [|[fileName file] rest Hfile _ IH]; intros Hall; [cbn; lia|].
  cbn [forallb snd] in Hall. apply andb_true_iff in Hall as [Hs Hrest].
  cbn [map snd]. rewrite sumZ_cons. specialize (Hfile Hs). specialize (IH Hrest).
  cbn [snd] in Hfile. lia.
Qed.

Lemma treeSize_nonneg node : sized node = true -> 0 <= treeSize node.
Proof.
  induction node as [[msg|n]|msg|files IH] using FsNode_nested_ind; intros Hs.
  - cbn; lia.
  - cbn in *. now apply Z.leb_le.
  - cbn; lia.
  - rewrite sized_directory in Hs. rewrite treeSize_directory.
    now apply treeSizes_nonneg.
Qed.

Lemma getDirectorySize_at_bounded node :
  sized node = true ->
  forall p, 0 <= fst (getDirectorySize_at p node) <= treeSize node.
Proof.
  induction node as [st|msg|files IH] using FsNode_nested_ind; intros Hs p.
  - cbn [getDirectorySize_at fst]. pose proof (treeSize_nonneg _ Hs). lia.
  - cbn. lia.
  - pose proof (treeSize_nonneg _ Hs) as Hnonneg.
    rewrite sized_directory in Hs. rewrite treeSize_directory in *.
    cbn [getDirectorySize_at].
    pose proof (sumEntries_bounded p files IH Hs 0 []) as Hsum.
    destruct (sumEntries getDirectorySize_at p files 0 []) as [logs|[n logs]];
      cbn [fst]; lia.
Qed.

(** X5.  A scan that meets no error gives the bytes of all the files below
    the directory, at any depth, and logs nothing. *)
Theorem size_of_readable_tree (dirPath : string) (c : Ctx) (w : World)
    (files : list (string * FsNode)) :
  fs_scan (env c) dirPath = Directory (inr files) ->
  readable (Directory (inr files)) = true ->
  getDirectorySize dirPath c w = (Return (treeSize (Directory (inr files))), w).
Proof.
  intros Hscan Hr. unfold getDirectorySize.
  cbv beta iota zeta delta [bind ask ret emit_all]. rewrite Hscan.
  rewrite (getDirectorySize_at_readable _ Hr dirPath).
  cbn [trace clockReads]. rewrite app_nil_r. now destruct w.
Qed.

(** X6.  Whatever fails during the scan, [getDirectorySize] returns a
    number between 0 and the bytes of all the files below the directory: an
    error only lowers the result. *)
Theorem size_never_overcounts (dirPath : string) (c : Ctx) (w : World) :
  sized (fs_scan (env c) dirPath) = true ->
  exists n,
    fst (getDirectorySize dirPath c w) = Return n /\
    0 <= n <= treeSize (fs_scan (env c) dirPath).
Proof.
  intros Hs. rewrite getDirectorySize_value. eexists. split; [reflexivity|].
  now apply getDirectorySize_at_bounded.
Qed.

Lemma settles_cleanupEntries previewsDir now maxAgeMs entries cleanedCount :
  settles (cleanupEntries previewsDir now maxAgeMs entries cleanedCount).
Proof.
  revert cleanedCount.
  induction entries as [|entry rest IH]; intros cleanedCount; cbn [cleanupEntries].
  - auto with settles.
  - destruct (dirent_isDirectory entry); [|apply IH].
    apply settles_bind; [auto with settles|]. intros stats.
    destruct (_ >? _); [|apply IH].
    apply settles_bind; [apply settles_removeDirectory|]. intros _.
    apply settles_bind; [apply settles_logger|]. intros _. apply IH.
Qed.

(** X7.  The promise of [cleanupOldPreviews] never rejects: whatever
    fails, it resolves to [undefined].  Where the preview root is missing or
    is not a directory the sweep does nothing at all: nothing is listed,
    removed or logged, and the clock is not read. *)
Theorem sweep_never_rejects (c : Ctx) (w : World) :
  fst (cleanupOldPreviews c w) = Return Undefined /\
  ((forall stats, fs_stat (env c) (previewsDir (config c)) = inr stats ->
                  isDirectory stats = false) ->
   cleanupOldPreviews c w = (Return Undefined, w)).
Proof.
  unfold cleanupOldPreviews.
  set (body := bind ask _).
  assert (Hbody : forall a, fst (body c w) = Return a -> a = Undefined).
  { subst body. cbv beta iota zeta delta [bind ask].
    rewrite directoryExists_at; unfold isDirectoryAt. cbv beta iota.
    destruct (negb _); [cbn; congruence|].
    cbv beta iota zeta delta [observe].
    destruct (fs_readdir (env c) (previewsDir (config c))) as [msg|entries];
      [cbn; congruence|].
    cbv beta iota zeta delta [now].
    destruct (cleanupEntries _ _ _ entries 0 c _) as [[n| |] w1];
      [|cbn; congruence..].
    destruct (n >? 0); cbv beta iota zeta delta [logger emit ret];
      cbn; congruence. }
  assert (Hsettles : fst (body c w) <> Pending).
  { subst body. apply settles_bind; [auto with settles|]. intros c'.
    apply settles_bind.
    { intros c0 w0. now rewrite directoryExists_at; unfold isDirectoryAt. }
    intros present. destruct (negb present); [auto with settles|].
    apply settles_bind; [auto with settles|]. intros entries.
    apply settles_bind; [auto with settles|]. intros now.
    apply settles_bind; [apply settles_cleanupEntries|]. intros n.
    apply settles_bind; [|auto with settles].
    destruct (n >? 0); [apply settles_logger | auto with settles]. }
  split.
  - unfold try_catch. destruct (body c w) as [[a|e|] w1] eqn:Hb; cbn [fst] in *.
    + now rewrite (Hbody a eq_refl).
    + reflexivity.
    + now elim Hsettles.
  - intros Hmissing. subst body.
    cbv beta iota zeta delta [try_catch bind ask].
    rewrite directoryExists_at; unfold isDirectoryAt.
    destruct (fs_stat (env c) (previewsDir (config c))) as [msg|stats] eqn:Hstat.
    + reflexivity.
    + now rewrite (Hmissing stats eq_refl).
Qed.

Definition sweepTarget (c : Ctx) (now : Z) (entries : list Dirent) (e : Effect)
  : Prop :=
  match e with
  | Log _ _ _ => True
  | Sys call _ =>
      exists entry,
        In entry entries /\ overAge c now entry = true /\
        call = Rm (entryPath c entry)
  end.

Lemma sweepTarget_incl c now entries entries' e :
  (forall x, In x entries -> In x entries') ->
  sweepTarget c now entries e -> sweepTarget c now entries' e.
Proof.
  intros Hincl. destruct e as [? ? ?|call ok]; [trivial|].
  intros [entry [Hin H]]. exists entry. split; [now apply Hincl | exact H].
Qed.

Lemma cleanupEntries_targets c now entries cleanedCount w :
  exists es,
    trace (snd (cleanupEntries (previewsDir (config c)) now
                  (previewMaxAgeMs (config c)) entries cleanedCount c w))
    = (trace w ++ es)%list /\
    Forall (sweepTarget c now entries) es.
Proof.
  revert cleanedCount w.
  induction entries as [|entry rest IH]; intros cleanedCount w; cbn [cleanupEntries].
  - exists []. split; [now rewrite app_nil_r | constructor].
  - assert (Hrest : forall n w',
               exists es,
                 trace (snd (cleanupEntries (previewsDir (config c)) now
                               (previewMaxAgeMs (config c)) rest n c w'))
                 = (trace w' ++ es)%list /\
                 Forall (sweepTarget c now (entry :: rest)) es).
    { intros n w'. destruct (IH n w') as [es [Htr Hes]]. exists es.
      split; [exact Htr|]. eapply Forall_impl; [|exact Hes].
      intros e. apply sweepTarget_incl. intros x Hx. now right. }
    destruct (dirent_isDirectory entry) eqn:Hdir; [|apply Hrest].
    cbv beta iota zeta delta [bind observe].
    destruct (fs_stat (env c) (Path.join (previewsDir (config c)) (name entry)))
      as [msg|stats] eqn:Hstat.
    { exists []. split; [now rewrite app_nil_r | constructor]. }
    cbv beta iota.
    destruct (now - mtimeMs stats >? previewMaxAgeMs (config c)) eqn:Hage;
      [|apply Hrest].
    assert (Hover : overAge c now entry = true).
    { unfold overAge, entryPath. now rewrite Hdir, Hstat, Hage. }
    assert (Htarget : forall ok,
               sweepTarget c now (entry :: rest)
                 (Sys (Rm (Path.join (previewsDir (config c)) (name entry))) ok)).
    { intros ok. exists entry. split; [now left|]. split; [exact Hover|reflexivity]. }
    cbv beta iota zeta delta [removeDirectory try_catch bind perform logger emit throw].
    destruct (fs_rm (env c) (Path.join (previewsDir (config c)) (name entry)));
      cbn [trace clockReads snd].
    + eexists. rewrite <- !app_assoc. split; [reflexivity|].
      repeat constructor. apply Htarget.
    + match goal with
      | |- context [cleanupEntries _ _ _ rest ?n c ?w'] =>
          destruct (Hrest n w') as [es [Htr Hes]]
      end.
      rewrite Htr. cbn [trace]. rewrite <- !app_assoc.
      eexists. split; [reflexivity|].
      cbn [app]. repeat constructor; [apply Htarget | exact Hes].
Qed.

(** X8.  Whatever fails, the only system calls of a sweep are removals of
    directories listed in the preview root whose age, at the one reading of
    the clock, exceeds the maximum: a plain file, or a directory modified
    within the maximum age, is never touched. *)
Theorem sweep_touches_only_overage_directories (c : Ctx) (call : SysCall)
    (ok : bool) :
  In (Sys call ok) (trace (snd (run cleanupOldPreviews c))) ->
  exists entries entry,
    fs_readdir (env c) (previewsDir (config c)) = inr entries /\
    In entry entries /\
    overAge c (Date_now (env c) 0) entry = true /\
    call = Rm (entryPath c entry).
Proof.
  unfold run, cleanupOldPreviews.
  cbv beta iota zeta delta [try_catch bind ask].
  rewrite directoryExists_at; unfold isDirectoryAt. cbv beta iota.
  destruct (negb _); [intros []|].
  cbv beta iota zeta delta [observe].
  destruct (fs_readdir (env c) (previewsDir (config c))) as [msg|entries].
  { cbn. intros [H|[]]. discriminate H. }
  cbv beta iota zeta delta [now]. cbn [clockReads trace initial].
  destruct (cleanupEntries_targets c (Date_now (env c) 0) entries 0
              (mkWorld [] 1)) as [es [Htr Hes]].
  cbn [trace app] in Htr.
  assert (Hin : forall tail,
             (forall call ok, ~ In (Sys call ok) tail) ->
             In (Sys call ok) (es ++ tail)%list ->
             exists entries0 entry,
               (inr entries : string + list Dirent) = inr entries0 /\
               In entry entries0 /\
               overAge c (Date_now (env c) 0) entry = true /\
               call = Rm (entryPath c entry)).
  { intros tail Htail H. apply in_app_or in H as [H|H]; [|now elim (Htail call ok)].
    rewrite Forall_forall in Hes. destruct (Hes _ H) as [entry Hentry].
    exists entries, entry. split; [reflexivity | exact Hentry]. }
  destruct (cleanupEntries _ _ _ entries 0 c _) as [[n|e|] w1];
    cbn [snd] in Htr.
  - destruct (n >? 0); cbv beta iota zeta delta [logger emit ret];
      cbn [trace clockReads snd]; rewrite Htr.
    + apply Hin. intros call' ok' [H|[]]. discriminate H.
    + intros H. apply (Hin []); [intros ? ? [] | now rewrite app_nil_r].
  - cbv beta iota zeta delta [logger emit ret bind]. cbn [trace clockReads snd].
    rewrite Htr. apply Hin. intros call' ok' [H|[]]. discriminate H.
  - cbn [snd]. rewrite Htr. intros H.
    apply (Hin []); [intros ? ? [] | now rewrite app_nil_r].
Qed.

End FileSystemFacts.

(** ** The build route *)

Module BuildRouteFacts.
Import Js JsFacts FileSystemFacts BuildRoute.
Local Open Scope js_scope.

Lemma settles_route_logger lvl msg : settles (logger lvl msg).
Proof. apply settles_emit. Qed.

(** What the completion of a call in flight leaves on a host, and how the
    promise behind it goes on: with another call in flight, fulfilled, or
    rejected. *)
Definition completionEffects (c : Ctx) (op : InFlight) : list Effect :=
  match op with
  | Writing fullPath content false =>
      let dir := Path.dirname fullPath in
      match fs_mkdir (env c) dir with
      | inr _ =>
          [ Sys (Mkdir dir) true;
            Log "FileSystem" Debug ("Diretório criado/verificado: " ++ dir) ]
      | inl _ =>
          [ Sys (Mkdir dir) false;
            Log "FileSystem" Err ("Erro ao criar diretório " ++ dir ++ ":");
            Log "FileSystem" Err ("Erro ao escrever arquivo " ++ fullPath ++ ":") ]
      end
  | Writing fullPath content true =>
      let data := FileSystem.fileContent (env c) content in
      match fs_writeFile (env c) fullPath data with
      | inr _ =>
          [ Sys (WriteFile fullPath data) true;
            Log "FileSystem" Debug ("Arquivo escrito: " ++ fullPath) ]
      | inl _ =>
          [ Sys (WriteFile fullPath data) false;
            Log "FileSystem" Err ("Erro ao escrever arquivo " ++ fullPath ++ ":") ]
      end
  | Removing dir =>
      match fs_rm (env c) dir with
      | inr _ =>
          [ Sys (Rm dir) true;
            Log "FileSystem" Debug ("Diretório removido: " ++ dir) ]
      | inl _ =>
          [ Sys (Rm dir) false;
            Log "FileSystem" Err ("Erro ao remover diretório " ++ dir ++ ":") ]
      end
  end.

Definition completion (c : Ctx) (op : InFlight) : JsError + option InFlight :=
  match op with
  | Writing fullPath content false =>
      match fs_mkdir (env c) (Path.dirname fullPath) with
      | inr _ => inr (Some (Writing fullPath content true))
      | inl msg =>
          inl (Error ("Falha ao escrever arquivo: "
                      ++ "Falha ao criar diretório: " ++ msg))
      end
  | Writing fullPath content true =>
      match fs_writeFile (env c) fullPath
              (FileSystem.fileContent (env c) content) with
      | inr _ => inr None
      | inl msg => inl (Error ("Falha ao escrever arquivo: " ++ msg))
      end
  | Removing dir =>
      match fs_rm (env c) dir with
      | inr _ => inr None
      | inl msg => inl (Error ("Falha ao remover diretório: " ++ msg))
      end
  end.

Lemma complete_eq op c w :
  complete op c w
  = (match completion c op with
     | inr next => Return next
     | inl e => Throw e
     end,
     mkWorld (trace w ++ completionEffects c op) (clockReads w)).
Proof.
  destruct op as [fullPath content [|]|dir];
    cbv beta iota zeta delta
      [complete completion completionEffects FileSystem.writeFileSecure_mkdir
       FileSystem.writeFileSecure_write FileSystem.writeFileSecure_catch
       FileSystem.ensureDirectory FileSystem.removeDirectory FileSystem.logger
       bind try_catch ask emit ret perform throw trace clockReads message Error].
  - destruct (fs_writeFile _ _ _); rewrite <- ?app_assoc; reflexivity.
  - destruct (fs_mkdir _ _); rewrite <- ?app_assoc; reflexivity.
  - destruct (fs_rm _ _); rewrite <- ?app_assoc; reflexivity.
Qed.

(** The two parts of [writeFileSecure], one after the other, are the
    function itself. *)
Lemma writeFileSecure_parts filePath content c w :
  FileSystem.writeFileSecure filePath content c w
  = (FileSystem.writeFileSecure_mkdir filePath ;;
     FileSystem.writeFileSecure_write filePath content) c w.
Proof.
  cbv beta iota zeta delta
    [FileSystem.writeFileSecure FileSystem.writeFileSecure_mkdir
     FileSystem.writeFileSecure_write FileSystem.writeFileSecure_catch
     FileSystem.ensureDirectory FileSystem.logger
     bind try_catch ask emit ret perform throw trace clockReads].
  destruct (fs_mkdir _ _); [reflexivity|].
  destruct (fs_writeFile _ _ _); reflexivity.
Qed.

Lemma nth_split_at {A} (l : list A) (i : nat) (d : A) :
  (i < List.length l)%nat ->
  l = (firstn i l ++ nth i l d :: skipn (S i) l)%list.
Proof.
  revert i. induction l as [|a l IH]; intros i Hi; [inversion Hi|].
  destruct i as [|i]; [reflexivity|].
  cbn [firstn nth skipn app]. f_equal. apply IH. cbn [List.length] in Hi. lia.
Qed.

Lemma pick_split e past first others op rest :
  pick e past first others = (op, rest) ->
  exists before after,
    first :: others = (before ++ op :: after)%list /\ rest = (before ++ after)%list.
Proof.
  unfold pick.
  set (pool := first :: others).
  set (i := Nat.modulo (completes_next e past) (List.length pool)).
  cbv zeta. intros H. apply pair_equal_spec in H as [<- <-].
  assert (Hi : (i < List.length pool)%nat)
    by (apply Nat.mod_upper_bound; discriminate).
  exists (firstn i pool), (skipn (S i) pool). split; [|reflexivity].
  now apply nth_split_at.
Qed.

Lemma callsLeftIn_app a b :
  callsLeftIn (a ++ b) = (callsLeftIn a + callsLeftIn b)%nat.
Proof. unfold callsLeftIn. now rewrite map_app, list_sum_app. Qed.

Lemma callsLeftIn_cons op pool :
  callsLeftIn (op :: pool) = (callsLeft op + callsLeftIn pool)%nat.
Proof. reflexivity. Qed.

(** One completion: the call picked is one of those in flight, its records
    are written, and the calls in flight afterwards are the others and, if
    the promise goes on, its next call; fewer calls are left to wait for. *)
Lemma completeNext_spec first others c w :
  exists op before after settled pool,
    first :: others = (before ++ op :: after)%list /\
    completeNext first others c w
    = (Return (op, settled, pool),
       mkWorld (trace w ++ completionEffects c op) (clockReads w)) /\
    match completion c op with
    | inr (Some next) =>
        settled = None /\ pool = (before ++ after ++ [next])%list
    | inr None => settled = Some (inr tt) /\ pool = (before ++ after)%list
    | inl e => settled = Some (inl e) /\ pool = (before ++ after)%list
    end /\
    (callsLeftIn pool < callsLeftIn (first :: others))%nat.
Proof.
  unfold completeNext.
  cbv beta iota zeta delta [bind ask history try_catch ret].
  cbn [trace].
  destruct (pick (env c) (trace w) first others) as [op rest] eqn:Hpick.
  destruct (pick_split _ _ _ _ _ _ Hpick) as (before & after & Hpool & ->).
  exists op, before, after. rewrite complete_eq, Hpool.
  rewrite !callsLeftIn_app, callsLeftIn_cons.
  destruct op as [fullPath content [|]|dir]; cbn [completion callsLeft];
    [destruct (fs_writeFile _ _ _) | destruct (fs_mkdir _ _) | destruct (fs_rm _ _)];
    do 2 eexists;
    (split; [reflexivity|]); (split; [reflexivity|]);
    (split; [split; [reflexivity | rewrite <- ?app_assoc; reflexivity]|]);
    rewrite ?callsLeftIn_app; cbn [callsLeftIn map list_sum fold_right callsLeft];
    lia.
Qed.

Lemma callsLeftIn_positive first others : (0 < callsLeftIn (first :: others))%nat.
Proof. rewrite callsLeftIn_cons. destruct first as [? ? []|]; cbn; lia. Qed.

(** [Promise.all] is always settled; it does not read the clock. *)
Lemma Promise_all_steps_returns c steps :
  forall pool w,
    (callsLeftIn pool <= steps)%nat ->
    exists settled es,
      Promise_all_steps steps pool c w
      = (Return settled, mkWorld (trace w ++ es) (clockReads w)).
Proof.
  induction steps as [|steps IH]; intros [|first others] w Hsteps.
  - exists (inr tt), []. cbn. rewrite app_nil_r. now destruct w.
  - pose proof (callsLeftIn_positive first others). lia.
  - exists (inr tt), []. cbn. rewrite app_nil_r. now destruct w.
  - cbn [Promise_all_steps].
    destruct (completeNext_spec first others c w)
      as (op & before & after & settled & pool & _ & Hnext & _ & Hless).
    rewrite (bind_Return _ _ _ _ _ _ Hnext). cbv beta iota.
    destruct settled as [[e|[]]|].
    + eexists. eexists. reflexivity.
    + destruct (IH pool (mkWorld (trace w ++ completionEffects c op) (clockReads w)))
        as (r & es & ->); [lia|].
      cbn [trace clockReads]. rewrite <- app_assoc. eauto.
    + destruct (IH pool (mkWorld (trace w ++ completionEffects c op) (clockReads w)))
        as (r & es & ->); [lia|].
      cbn [trace clockReads]. rewrite <- app_assoc. eauto.
Qed.

Lemma Promise_all_returns c pool w :
  exists settled es,
    Promise_all pool c w
    = (Return settled, mkWorld (trace w ++ es) (clockReads w)).
Proof. now apply Promise_all_steps_returns. Qed.

(** What is left in flight is settled in the end. *)
Lemma settleAll_steps_returns c steps :
  forall pool w,
    (callsLeftIn pool <= steps)%nat ->
    exists es,
      settleAll_steps steps pool c w
      = (Return tt, mkWorld (trace w ++ es) (clockReads w)).
Proof.
  induction steps as [|steps IH]; intros [|first others] w Hsteps.
  - exists []. cbn. rewrite app_nil_r. now destruct w.
  - pose proof (callsLeftIn_positive first others). lia.
  - exists []. cbn. rewrite app_nil_r. now destruct w.
  - cbn [settleAll_steps].
    destruct (completeNext_spec first others c w)
      as (op & before & after & settled & pool & _ & Hnext & _ & Hless).
    rewrite (bind_Return _ _ _ _ _ _ Hnext). cbv beta iota.
    destruct (IH pool (mkWorld (trace w ++ completionEffects c op) (clockReads w)))
      as (es & ->); [lia|].
    cbn [trace clockReads]. rewrite <- app_assoc. eauto.
Qed.

Lemma settleAll_returns c pool w :
  exists es,
    settleAll pool c w = (Return tt, mkWorld (trace w ++ es) (clockReads w)).
Proof. now apply settleAll_steps_returns. Qed.

Definition isRemoving (op : InFlight) : bool :=
  match op with
  | Removing _ => true
  | Writing _ _ _ => false
  end.

(** The removal awaited by the [catch] block is always settled. *)
Lemma awaitRemoval_steps_returns c steps :
  forall pool w,
    (callsLeftIn pool <= steps)%nat ->
    existsb isRemoving pool = true ->
    exists removed rest es,
      awaitRemoval_steps steps pool c w
      = (Return (removed, rest), mkWorld (trace w ++ es) (clockReads w)).
Proof.
  induction steps as [|steps IH]; intros [|first others] w Hsteps Hrm;
    try discriminate Hrm.
  - pose proof (callsLeftIn_positive first others). lia.
  - cbn [awaitRemoval_steps].
    destruct (completeNext_spec first others c w)
      as (op & before & after & settled & pool & Hpool & Hnext & Hsettled & Hless).
    rewrite (bind_Return _ _ _ _ _ _ Hnext). cbv beta iota.
    rewrite Hpool in Hrm. rewrite existsb_app in Hrm. cbn [existsb] in Hrm.
    destruct op as [fullPath content done|dir].
    + assert (Hrest : existsb isRemoving pool = true).
      { cbn [isRemoving orb] in Hrm.
        destruct (completion c (Writing fullPath content done)) as [e|[next|]];
          destruct Hsettled as [_ ->]; rewrite ?existsb_app;
          apply orb_true_iff in Hrm as [-> | ->];
          rewrite ?orb_true_r; reflexivity. }
      destruct (IH pool (mkWorld (trace w ++ completionEffects c (Writing fullPath content done))
                           (clockReads w)))
        as (r & rest & es & Hrun); [lia | exact Hrest |].
      exists r, rest. eexists.
      destruct settled as [s|]; rewrite Hrun; cbn [trace clockReads];
        rewrite <- app_assoc; reflexivity.
    + cbn [completion] in Hsettled.
      destruct (fs_rm (env c) dir); destruct Hsettled as [-> ->];
        do 3 eexists; reflexivity.
Qed.

Lemma awaitRemoval_returns c pool dir w :
  exists removed rest es,
    awaitRemoval (pool ++ [Removing dir]) c w
    = (Return (removed, rest), mkWorld (trace w ++ es) (clockReads w)).
Proof.
  apply awaitRemoval_steps_returns; [reflexivity|].
  rewrite existsb_app. cbn. apply orb_true_r.
Qed.

(** With nothing else in flight the removal is the call that completes. *)
Lemma awaitRemoval_alone c dir w :
  awaitRemoval [Removing dir] c w
  = (Return (match fs_rm (env c) dir with
             | inr _ => inr tt
             | inl msg => inl (Error ("Falha ao remover diretório: " ++ msg))
             end, []),
     mkWorld (trace w ++ completionEffects c (Removing dir)) (clockReads w)).
Proof.
  unfold awaitRemoval. cbn [callsLeftIn map list_sum fold_right callsLeft Nat.add
                            awaitRemoval_steps].
  destruct (completeNext_spec (Removing dir) [] c w)
    as (op & before & after & settled & pool & Hpool & Hnext & Hsettled & _).
  assert (Hop : op = Removing dir /\ before = [] /\ after = []).
  { destruct before as [|b before].
    - injection Hpool as <- <-. auto.
    - injection Hpool as _ H. now destruct before. }
  destruct Hop as (-> & -> & ->).
  rewrite (bind_Return _ _ _ _ _ _ Hnext). cbv beta iota.
  cbn [completion] in Hsettled.
  destruct (fs_rm (env c) dir); destruct Hsettled as [-> ->]; reflexivity.
Qed.

Section EmitsInFlight.
Variable P : Effect -> Prop.
Variable c : Ctx.
Hypothesis completions : forall op, Forall P (completionEffects c op).

Lemma emits_completeNext first others : emits P c (completeNext first others).
Proof.
  intros w.
  destruct (completeNext_spec first others c w)
    as (op & before & after & settled & pool & _ & -> & _).
  cbn [snd trace]. eauto.
Qed.

Lemma emits_Promise_all_steps steps :
  forall pool, emits P c (Promise_all_steps steps pool).
Proof.
  induction steps as [|steps IH]; intros [|first others]; cbn [Promise_all_steps];
    auto with emits.
  apply emits_bind; [apply emits_completeNext | intros [[op settled] pool]].
  destruct settled as [[e|[]]|]; auto with emits.
Qed.

Lemma emits_awaitRemoval_steps steps :
  forall pool, emits P c (awaitRemoval_steps steps pool).
Proof.
  induction steps as [|steps IH]; intros [|first others]; cbn [awaitRemoval_steps];
    auto with emits.
  apply emits_bind; [apply emits_completeNext | intros [[op settled] pool]].
  destruct op, settled; auto with emits.
Qed.

Lemma emits_settleAll_steps steps :
  forall pool, emits P c (settleAll_steps steps pool).
Proof.
  induction steps as [|steps IH]; intros [|first others]; cbn [settleAll_steps];
    auto with emits.
  apply emits_bind; [apply emits_completeNext | intros [[op settled] pool]].
  apply IH.
Qed.

End EmitsInFlight.

(** The calls of a pool are all writes. *)
Definition writesOnly (pool : list InFlight) : Prop :=
  Forall (fun op => isRemoving op = false) pool.

(** The rejection of [Promise.all] over writes is the error of a
    [writeFileSecure], and what is left in flight are writes. *)
Lemma Promise_all_steps_rejection c steps :
  forall pool w error rest w',
    writesOnly pool ->
    Promise_all_steps steps pool c w = (Return (inl (error, rest)), w') ->
    (exists msg, error = Error ("Falha ao escrever arquivo: " ++ msg)) /\
    writesOnly rest.
Proof.
  induction steps as [|steps IH]; intros [|first others] w error rest w' Hpool;
    cbn [Promise_all_steps]; try discriminate.
  destruct (completeNext_spec first others c w)
    as (op & before & after & settled & pool & Hsplit & Hnext & Hsettled & _).
  rewrite (bind_Return _ _ _ _ _ _ Hnext). cbv beta iota.
  unfold writesOnly in Hpool. rewrite Hsplit in Hpool.
  apply Forall_app in Hpool as [Hbefore Hafter].
  inversion Hafter as [|? ? Hop Hafter']; subst.
  assert (Hrest : writesOnly (before ++ after)) by now apply Forall_app.
  destruct op as [fullPath content [|]|dir]; [| |discriminate Hop];
    cbn [completion] in Hsettled.
  - destruct (fs_writeFile _ _ _) as [msg|]; destruct Hsettled as [-> ->].
    + intros [= <- <- _]. split; [now exists msg | exact Hrest].
    + now apply IH.
  - destruct (fs_mkdir _ _) as [msg|]; destruct Hsettled as [-> ->].
    + intros [= <- <- _]. split; [eexists; reflexivity | exact Hrest].
    + apply IH. unfold writesOnly. rewrite app_assoc.
      apply Forall_app. split; [exact Hrest | now repeat constructor].
Qed.

Lemma startWrites_writesOnly projectDir files :
  writesOnly (startWrites projectDir files).
Proof.
  unfold writesOnly, startWrites. apply Forall_forall. intros op Hop.
  apply in_map_iff in Hop as ([filePath content] & <- & _). reflexivity.
Qed.
Lemma settles_writeFiles projectDir files : settles (writeFiles projectDir files).
Proof.
  intros c w. unfold writeFiles.
  destruct (Promise_all_returns c (startWrites projectDir files) w)
    as (settled & es & H).
  rewrite (bind_Return _ _ _ _ _ _ H).
  destruct settled as [[error rest]|[]]; discriminate.
Qed.

Lemma settles_stage_project projectDir files :
  settles (stage_project projectDir files).
Proof.
  unfold stage_project.
  pose proof settles_route_logger. pose proof settles_ensureDirectory.
  pose proof settles_writeFiles. pose proof settles_getDirectorySize.
  auto 10 with settles.
Qed.

Lemma settles_check_project_size projectSize :
  settles (check_project_size projectSize).
Proof.
  unfold check_project_size. pose proof settles_route_logger.
  auto 10 with settles.
Qed.

Lemma settles_accept_request req : settles (accept_request req).
Proof.
  unfold accept_request.
  apply settles_bind; [apply settles_route_logger | intros _].
  apply settles_bind; [apply settles_checkDiskSpace | intros diskSpace].
  apply settles_bind; [destruct diskSpace; auto with settles | intros _].
  apply settles_bind; [apply settles_ask | intros c].
  apply settles_bind.
  { destruct (Validation.buildPayloadSchema_validate _); auto with settles. }
  intros files. apply settles_bind.
  { destruct (Validation.validateProjectStructure files); auto with settles. }
  intros _. auto with settles.
Qed.

(** Line 83 throws: [id] is not bound there. *)
Lemma run_and_respond_throws req startTime projectId projectDir fileCount
    projectSize c w :
  run_and_respond req startTime projectId projectDir fileCount projectSize c w
  = (Throw (ReferenceError "id"), w).
Proof. reflexivity. Qed.

Lemma build_project_fails req startTime projectId projectDir files fileCount :
  fails (build_project req startTime projectId projectDir files fileCount).
Proof.
  unfold build_project.
  apply fails_bind_r; [apply settles_stage_project | intros projectSize].
  apply fails_bind_r; [apply settles_check_project_size | intros _].
  intros c w. rewrite run_and_respond_throws. now eexists.
Qed.

(** The records the [catch] block leaves when [projectDir] is set: the
    removal, and what is logged after it. *)
Definition cleanupEffects (c : Ctx) (dir : string) : list Effect :=
  match fs_rm (env c) dir with
  | inr _ =>
      [ Sys (Rm dir) true;
        Log "FileSystem" Debug ("Diretório removido: " ++ dir);
        Log "BuildRoute" Debug "Diretório de projeto removido após erro" ]
  | inl _ =>
      [ Sys (Rm dir) false;
        Log "FileSystem" Err ("Erro ao remover diretório " ++ dir ++ ":");
        Log "BuildRoute" Err "Erro ao limpar diretório após falha:" ]
  end.

Definition errorLog : Effect := Log "BuildRoute" Err "Erro durante build:".

Lemma on_error_unassigned startTime error c w :
  on_error startTime None None [] error c w
  = (Return (Next error),
     mkWorld (trace w ++ [errorLog]) (S (clockReads w))).
Proof. reflexivity. Qed.

(** Lines 123-131 with nothing else in flight. *)
Lemma cleanup_alone dir c w :
  (awaited <- awaitRemoval [Removing dir] ;;
   let '(removed, inFlight) := awaited in
   match removed with
   | inr _ => logger Debug "Diretório de projeto removido após erro"
   | inl cleanupError => logger Err "Erro ao limpar diretório após falha:"
   end ;;
   ret inFlight) c w
  = (Return [], mkWorld (trace w ++ cleanupEffects c dir) (clockReads w)).
Proof.
  rewrite (bind_Return _ _ _ _ _ _ (awaitRemoval_alone c dir w)).
  unfold cleanupEffects, completionEffects.
  destruct (fs_rm (env c) dir);
    cbv beta iota zeta delta [logger bind emit ret trace clockReads];
    rewrite <- app_assoc; reflexivity.
Qed.

Lemma clean_up_alone startTime projectId dir c w :
  clean_up startTime (Some projectId) (Some dir) [] c w
  = (Return [],
     mkWorld (trace w ++ errorLog :: cleanupEffects c dir) (S (clockReads w))).
Proof.
  unfold clean_up.
  rewrite (bind_Return now _ c w _ _ eq_refl).
  rewrite (bind_Return (logger Err _) _ c _ tt _ eq_refl).
  cbn [app trace clockReads].
  rewrite (cleanup_alone dir c _).
  cbn [trace clockReads].
  unfold errorLog. rewrite <- app_assoc. reflexivity.
Qed.

(** With nothing in flight, the removal and the record of its outcome are
    the last things the [catch] block leaves. *)
Lemma on_error_assigned startTime projectId dir error c w :
  on_error startTime (Some projectId) (Some dir) [] error c w
  = (Return (Next error),
     mkWorld (trace w ++ errorLog :: cleanupEffects c dir) (S (clockReads w))).
Proof.
  unfold on_error.
  now rewrite (bind_Return _ _ _ _ _ _ (clean_up_alone startTime projectId dir c w)).
Qed.

(** Whatever is in flight, the [catch] block ends by passing the error it
    caught to [next]. *)
Lemma clean_up_returns startTime projectId projectDir inFlight c w :
  exists rest w', clean_up startTime projectId projectDir inFlight c w
                  = (Return rest, w').
Proof.
  unfold clean_up.
  rewrite (bind_Return now _ c w _ _ eq_refl).
  rewrite (bind_Return (logger Err _) _ c _ tt _ eq_refl).
  destruct projectDir as [dir|]; [|eexists; eexists; reflexivity].
  destruct (awaitRemoval_returns c inFlight dir
              (mkWorld (trace (mkWorld (trace w) (S (clockReads w))) ++ [errorLog])
                 (clockReads (mkWorld (trace w) (S (clockReads w))))))
    as (removed & rest & es & Hrun).
  unfold errorLog in Hrun.
  rewrite (bind_Return _ _ _ _ _ _ Hrun). cbv beta iota.
  destruct removed as [e|[]]; eexists; eexists; reflexivity.
Qed.

Lemma on_error_replies startTime projectId projectDir inFlight error c w :
  exists w', on_error startTime projectId projectDir inFlight error c w
             = (Return (Next error), w').
Proof.
  unfold on_error.
  destruct (clean_up_returns startTime projectId projectDir inFlight c w)
    as (rest & w1 & Hrest).
  rewrite (bind_Return _ _ _ _ _ _ Hrest). eexists. reflexivity.
Qed.

(** Followed until everything has settled, the [catch] block still ends
    with the error it caught. *)
Lemma on_error_settled_replies startTime projectId projectDir inFlight error c w :
  exists w', on_error_settled startTime projectId projectDir inFlight error c w
             = (Return (Next error), w').
Proof.
  unfold on_error_settled.
  destruct (clean_up_returns startTime projectId projectDir inFlight c w)
    as (rest & w1 & Hrest).
  rewrite (bind_Return _ _ _ _ _ _ Hrest).
  destruct (settleAll_returns c rest w1) as (es & Hsettle).
  rewrite (bind_Return _ _ _ _ _ _ Hsettle). eexists. reflexivity.
Qed.

(** The world in which the [try] block starts: [startTime] has been read. *)
Definition started : World := mkWorld [] 1.

Definition startTimeOf (c : Ctx) : Z := Date_now (env c) 0.
Definition projectIdOf (c : Ctx) : string := nanoid (env c).
Definition projectDirOf (c : Ctx) : string :=
  Path.join (previewsDir (config c)) (projectIdOf c).

(** A request refused before a project directory is assigned. *)
Lemma post_build_refused req c error w1 :
  accept_request req c started = (Throw error, w1) ->
  run (post_build req) c
  = (Return (Next error), mkWorld (trace w1 ++ [errorLog]) (S (clockReads w1))).
Proof.
  intros H. unfold run, post_build, post_build_with.
  rewrite (bind_Return now _ c initial (startTimeOf c) started eq_refl).
  erewrite bind_Return.
  2:{ erewrite try_catch_Throw by (erewrite bind_Throw by exact H; reflexivity).
      erewrite bind_Return by apply on_error_unassigned. reflexivity. }
  reflexivity.
Qed.

(** A request that gets a project directory goes on with the second half
    of the [try] block under the [catch] block. *)
Lemma post_build_accepted req c files fileCount w1 :
  accept_request req c started = (Return (files, fileCount), w1) ->
  run (post_build req) c
  = try_catch_beside
      (build_project req (startTimeOf c) (projectIdOf c) (projectDirOf c)
         files fileCount)
      (leftInFlight (projectDirOf c) files)
      (on_error (startTimeOf c) (Some (projectIdOf c)) (Some (projectDirOf c)))
      c w1.
Proof.
  intros H. unfold run, post_build, post_build_with.
  rewrite (bind_Return now _ c initial (startTimeOf c) started eq_refl).
  erewrite bind_Return.
  2:{ erewrite try_catch_Return by (erewrite bind_Return by exact H; reflexivity).
      reflexivity. }
  reflexivity.
Qed.

Lemma try_catch_beside_Throw {A} (body : M A) left
    (handler : list InFlight -> JsError -> M A) c w e w' :
  body c w = (Throw e, w') ->
  try_catch_beside body left handler c w = handler (left c w) e c w'.
Proof. unfold try_catch_beside. now intros ->. Qed.

(** Once staging has returned, no write is in flight. *)
Lemma leftInFlight_staged projectDir files c w projectSize w' :
  stage_project projectDir files c w = (Return projectSize, w') ->
  leftInFlight projectDir files c w = [].
Proof.
  unfold stage_project, leftInFlight, writeFiles.
  cbv beta iota zeta delta [bind].
  destruct (logger Info "Iniciando criação do projeto" c w) as [[[]|e|] w0];
    [|reflexivity|reflexivity].
  destruct (FileSystem.ensureDirectory projectDir c w0) as [[[]|e|] w1];
    [|reflexivity|reflexivity].
  destruct (Promise_all (startWrites projectDir files) c w1)
    as [[[[error rest]|[]]|e|] w2]; try reflexivity.
  discriminate.
Qed.

(** What [accept_request] logs: the record of line 20, and the record of
    [checkDiskSpace] when the measurement fails. *)
Definition acceptLogs (c : Ctx) : list Effect :=
  Log "BuildRoute" Info "Nova requisição de build recebida"
  :: match fs_statfs (env c) (previewsDir (config c)) with
     | inl _ => [Log "FileSystem" Err "Erro ao verificar espaço em disco:"]
     | inr _ => []
     end.

Lemma accept_request_world req c w :
  snd (accept_request req c w)
  = mkWorld (trace w ++ acceptLogs c) (clockReads w).
Proof.
  cbv beta iota zeta delta
    [accept_request acceptLogs FileSystem.checkDiskSpace FileSystem.logger
     logger bind try_catch ask observe emit ret throw trace clockReads snd].
  destruct (fs_statfs (env c) (previewsDir (config c))) as [msg|stats];
    rewrite <- ?app_assoc; cbn [app].
  - destruct (Validation.buildPayloadSchema_validate _) as [e|files];
      [reflexivity|].
    destruct (Validation.validateProjectStructure files); [reflexivity|].
    destruct (_ >? maxFiles (config c)); reflexivity.
  - cbn [FileSystem.usagePercent].
    destruct (90 <? _)%float; [reflexivity|].
    destruct (Validation.buildPayloadSchema_validate _) as [e|files];
      [reflexivity|].
    destruct (Validation.validateProjectStructure files); [reflexivity|].
    destruct (_ >? maxFiles (config c)); reflexivity.
Qed.

Lemma acceptLogs_no_sys c call ok : ~ In (Sys call ok) (acceptLogs c).
Proof.
  unfold acceptLogs.
  destruct (fs_statfs _ _); simpl; intros H;
    repeat (destruct H as [H|H]; [discriminate|]); exact H.
Qed.

(** A payload the schema rejects is refused, with status 400, or with
    status 507 when the disk-usage guard of line 28 fires first. *)
Lemma accept_request_invalid req c w e :
  Validation.buildPayloadSchema_validate (body req) = inl e ->
  exists error,
    fst (accept_request req c w) = Throw error /\
    (statusCode error = Some 400 \/ statusCode error = Some 507).
Proof.
  intros He.
  cbv beta iota zeta delta
    [accept_request FileSystem.checkDiskSpace FileSystem.logger
     logger bind try_catch ask observe emit ret throw trace clockReads fst].
  rewrite He.
  destruct (fs_statfs (env c) (previewsDir (config c))) as [msg|stats].
  - eexists. split; [reflexivity | now left].
  - cbn [FileSystem.usagePercent]. destruct (90 <? _)%float.
    + eexists. split; [reflexivity | now right].
    + eexists. split; [reflexivity | now left].
Qed.

(** C1.  The handler of [POST /build] never produces the success response:
    every request ends in [next(error)].  A request that passes validation,
    staging and the size check fails at line 83 with the [ReferenceError] of
    the unbound identifier [id], before [runBuild] is called. *)
Theorem post_build_never_succeeds (c : Ctx) (req : Request) :
  (exists error w, run (post_build req) c = (Return (Next error), w)) /\
  (forall files fileCount w1 projectSize w2 w3,
     accept_request req c started = (Return (files, fileCount), w1) ->
     stage_project (projectDirOf c) files c w1 = (Return projectSize, w2) ->
     check_project_size projectSize c w2 = (Return tt, w3) ->
     exists w,
       run (post_build req) c = (Return (Next (ReferenceError "id")), w)).
Proof.
  split.
  - destruct (accept_request req c started) as [[[files fileCount]|e|] w1] eqn:Ha.
    + rewrite (post_build_accepted _ _ _ _ _ Ha).
      destruct (build_project_fails req (startTimeOf c) (projectIdOf c)
                  (projectDirOf c) files fileCount c w1) as [e He].
      destruct (build_project _ _ _ _ _ _ c w1) as [o w2] eqn:Hb.
      simpl in He. subst o.
      rewrite (try_catch_beside_Throw _ _ _ _ _ _ _ Hb).
      destruct (on_error_replies (startTimeOf c) (Some (projectIdOf c))
                  (Some (projectDirOf c))
                  (leftInFlight (projectDirOf c) files c w1) e c w2) as [w Hw].
      eauto.
    + rewrite (post_build_refused _ _ _ _ Ha). eauto.
    + pose proof (settles_accept_request req c started) as H.
      rewrite Ha in H. now elim H.
  - intros files fileCount w1 projectSize w2 w3 Ha Hs Hc.
    rewrite (post_build_accepted _ _ _ _ _ Ha).
    erewrite try_catch_beside_Throw.
    2:{ unfold build_project. rewrite (bind_Return _ _ _ _ _ _ Hs).
        rewrite (bind_Return _ _ _ _ _ _ Hc). apply run_and_respond_throws. }
    rewrite (leftInFlight_staged _ _ _ _ _ _ Hs), on_error_assigned. eauto.
Qed.

(** C5.  A request whose file set has a key with a parent-directory segment,
    or an absolute key, is rejected by the payload schema, and the handler
    answers it with [next(error)] (status 400, or 507 when the disk-usage
    guard fires first) without a single call that creates a directory or
    writes a file. *)
Theorem unsafe_path_rejected_before_any_write (c : Ctx) (req : Request)
    (members files : list (string * json)) :
  body req = Some (JObject members) ->
  lookup_member "files" members = Some (JObject files) ->
  (exists k v, In (k, v) files /\ ValidationFacts.unsafeKey k = true) ->
  (exists e,
     Validation.buildPayloadSchema_validate (body req)
     = inl e) /\
  exists error w,
    run (post_build req) c = (Return (Next error), w) /\
    (statusCode error = Some 400 \/ statusCode error = Some 507) /\
    forall call ok, ~ In (Sys call ok) (trace w).
Proof.
  intros Hbody Hfiles (k & v & Hin & Hk).
  assert (Hrej : exists e,
             Validation.buildPayloadSchema_validate (body req)
             = inl e).
  { rewrite Hbody.
    apply (ValidationFacts.validate_files_rejected _ _ Hfiles).
    apply ValidationFacts.files_schema_bad_key.
    exists k, v. split; [exact Hin|].
    now apply ValidationFacts.unsafeKey_rejected. }
  split; [exact Hrej|].
  destruct Hrej as [e He].
  destruct (accept_request_invalid req c started e He) as (error & Hthrow & Hstatus).
  pose proof (accept_request_world req c started) as Hw.
  destruct (accept_request req c started) as [o w1] eqn:Ha.
  simpl in Hthrow, Hw. subst o w1.
  eexists. eexists. split; [apply (post_build_refused _ _ _ _ Ha)|].
  split; [exact Hstatus|].
  intros call ok. cbn [trace app]. intros H. apply in_app_or in H as [H|H].
  - now apply (acceptLogs_no_sys c call ok).
  - destruct H as [H|[]]. discriminate.
Qed.

(** [p] is the root or lies below it. *)
Definition within (root p : string) : bool :=
  (p =? root)%string || String.prefix (root ++ "/") p.

Section Containment.
Local Open Scope string_scope.

(** A key accepted by the key rule, joined to a directory given by a
    normalised path without a trailing Path.slash, other than [.], stays in that
    directory. *)
Lemma validated_key_stays_within (dir key : string) :
  Path.normalize dir = dir ->
  Path.endsWithSlash dir = false ->
  dir <> "." ->
  Validation.key_schema key = true ->
  within dir (Path.join dir key) = true.
Proof.
  intros Hnorm Hslash Hdot Hkey.
  pose proof (ValidationFacts.key_schema_no_parent key Hkey) as Hplain.
  assert (Hkey_ne : (key =? "")%string = false).
  { unfold Validation.key_schema in Hkey. apply andb_true_iff in Hkey as [H _].
    now apply negb_true_iff in H. }
  assert (Hdir_ne : dir <> "").
  { intros ->. cbn in Hnorm. discriminate. }
  assert (Hdir_eqb : (dir =? "")%string = false) by now apply String.eqb_neq.
  set (above := negb (Path.isAbsolute dir)) in *.
  set (lead := if Path.isAbsolute dir then "/" else "").
  set (root := Path.normalizeSegments above (JsString.split "/" dir) []) in *.
  assert (Hdir : dir = lead ++ JsString.join "/" (rev root)
                 /\ (JsString.join "/" (rev root) =? "") = false).
  { unfold Path.normalize in Hnorm. rewrite Hdir_eqb, Hslash in Hnorm.
    unfold Path.normalizeString, Path.slash in Hnorm. fold above root in Hnorm.
    unfold lead.
    destruct (JsString.join "/" (rev root) =? "") eqn:E.
    - destruct (Path.isAbsolute dir); subst dir; [discriminate | now elim Hdot].
    - destruct (Path.isAbsolute dir); split; solve [now symmetry | reflexivity]. }
  destruct Hdir as [Hdir Hbody].
  assert (Hroot : rev root <> []).
  { intros Hnil. rewrite Hnil in Hbody. discriminate. }
  unfold Path.join. rewrite Hdir_eqb, Hkey_ne.
  assert (Hne : (dir ++ "/" ++ key =? "")%string = false)
    by (destruct dir; [now elim Hdir_ne | reflexivity]).
  rewrite Hne. unfold Path.normalize. rewrite Hne.
  rewrite (PathFacts.isAbsolute_append dir ("/" ++ key) Hdir_ne). fold above.
  unfold Path.normalizeString, Path.slash.
  change ("/" ++ key) with (String "/" key).
  rewrite PathFacts.split_append, PathFacts.normalizeSegments_app. fold root.
  rewrite (PathFacts.normalizeSegments_plain above _ root Hplain).
  rewrite rev_app_distr, rev_involutive.
  set (tail := if Path.endsWithSlash (dir ++ String "/" key) then "/" else "").
  assert (Htail : forall body, (if Path.endsWithSlash (dir ++ String "/" key)
                                then body ++ "/" else body) = body ++ tail).
  { intros body. unfold tail.
    destruct (Path.endsWithSlash (dir ++ String "/" key));
      [reflexivity | now rewrite PathFacts.append_empty_r]. }
  rewrite Htail.
  set (inner := JsString.join "/" (filter PathFacts.kept (JsString.split "/" key))).
  assert (Hjoin : JsString.join "/" (rev root ++ filter PathFacts.kept (JsString.split "/" key))
                  = JsString.join "/" (rev root)
                    ++ (if (inner =? "")%string then "" else "/" ++ inner)).
  { destruct (filter PathFacts.kept (JsString.split "/" key)) as [|k keys] eqn:Ek.
    - subst inner. rewrite app_nil_r. cbn. now rewrite PathFacts.append_empty_r.
    - destruct (String.eqb_spec inner "") as [Hi|_].
      + exfalso. revert Hi. subst inner. apply PathFacts.join_not_empty; [discriminate|].
        intros s Hs. apply PathFacts.kept_not_empty. rewrite <- Ek in Hs.
        now apply filter_In in Hs.
      + subst inner. now rewrite (PathFacts.join_append _ _ Hroot) by discriminate. }
  rewrite Hjoin.
  assert (Htail' : tail = "" \/ tail = "/")
    by (unfold tail; destruct (Path.endsWithSlash (dir ++ String "/" key)); auto).
  assert (Hlead : (if Path.isAbsolute dir then "/" ++ JsString.join "/" (rev root)
                   else JsString.join "/" (rev root)) = dir).
  { unfold lead in Hdir. destruct (Path.isAbsolute dir); now symmetry. }
  clearbody tail inner root above lead.
  destruct (JsString.join "/" (rev root)) as [|c body]; [discriminate|].
  cbn [append String.eqb].
  set (suffix := if (inner =? "")%string then "" else String "/" inner).
  assert (Hpath : (if Path.isAbsolute dir
                   then String "/" (String c ((body ++ suffix) ++ tail))
                   else String c ((body ++ suffix) ++ tail))
                  = dir ++ suffix ++ tail).
  { rewrite <- Hlead at 2. destruct (Path.isAbsolute dir); cbn [append];
      now rewrite !PathFacts.append_assoc. }
  rewrite Hpath. clear Hpath Hlead Hdir. subst suffix.
  unfold within. apply orb_true_iff.
  destruct (inner =? "")%string.
  - destruct Htail' as [-> | ->].
    + left. cbn [append]. rewrite !PathFacts.append_empty_r. apply String.eqb_refl.
    + right. apply (PathFacts.prefix_of_append _ _ "").
      cbn [append]. now rewrite !PathFacts.append_empty_r.
  - right. apply (PathFacts.prefix_of_append _ _ (inner ++ tail)).
    change (String "/" inner) with ("/" ++ inner).
    now rewrite !PathFacts.append_assoc.
Qed.

End Containment.

(** What staging one entry leaves when the two calls succeed. *)
Definition stagingEffects (c : Ctx) (projectDir : string)
    (entry : string * json) : list Effect :=
  let fullPath := Path.join projectDir (fst entry) in
  [ Sys (Mkdir (Path.dirname fullPath)) true;
    Log "FileSystem" Debug ("Diretório criado/verificado: " ++ Path.dirname fullPath);
    Sys (WriteFile fullPath (FileSystem.fileContent (env c) (snd entry))) true;
    Log "FileSystem" Debug ("Arquivo escrito: " ++ fullPath) ].

(** C6 helper: what the promise of a write still leaves when every call
    succeeds. *)
Definition remainingEffects (c : Ctx) (op : InFlight) : list Effect :=
  match op with
  | Writing fullPath content mkdirDone =>
      ((if mkdirDone then []
        else [ Sys (Mkdir (Path.dirname fullPath)) true;
               Log "FileSystem" Debug
                 ("Diretório criado/verificado: " ++ Path.dirname fullPath) ])
       ++ [ Sys (WriteFile fullPath (FileSystem.fileContent (env c) content)) true;
            Log "FileSystem" Debug ("Arquivo escrito: " ++ fullPath) ])%list
  | Removing _ => []
  end.

(** The parent directory of a write whose [fs.writeFile] is in flight has
    been created. *)
Definition parentCreated (created : list string) (op : InFlight) : Prop :=
  match op with
  | Writing fullPath _ true => In (Path.dirname fullPath) created
  | _ => True
  end.

(** In [es], every file is written after its parent directory was
    created. *)
Definition createdBeforeWritten (es : list Effect) : Prop :=
  forall before p data after,
    es = (before ++ Sys (WriteFile p data) true :: after)%list ->
    In (Sys (Mkdir (Path.dirname p)) true) before.

Lemma perm_completed (s fb fa es : list Effect) :
  Permutation es (fb ++ fa) -> Permutation (s ++ es) (fb ++ s ++ fa).
Proof. intros ->. apply Permutation_app_swap_app. Qed.

Lemma perm_continued (s1 s2 fb fa es : list Effect) :
  Permutation es (fb ++ fa ++ s2) ->
  Permutation (s1 ++ es) (fb ++ (s1 ++ s2) ++ fa).
Proof.
  intros ->. rewrite Permutation_app_swap_app. apply Permutation_app_head.
  rewrite <- app_assoc. apply Permutation_app_head. apply Permutation_app_comm.
Qed.

Section Success.
Variable c : Ctx.
Hypothesis mkdir_succeeds : forall p, fs_mkdir (env c) p = inr tt.
Hypothesis writeFile_succeeds : forall p data, fs_writeFile (env c) p data = inr tt.

Lemma Promise_all_steps_success steps :
  forall pool w created,
    (callsLeftIn pool <= steps)%nat ->
    writesOnly pool ->
    Forall (parentCreated created) pool ->
    exists es,
      Promise_all_steps steps pool c w
      = (Return (inr tt), mkWorld (trace w ++ es) (clockReads w)) /\
      Permutation es (flat_map (remainingEffects c) pool) /\
      forall before p data after,
        es = (before ++ Sys (WriteFile p data) true :: after)%list ->
        In (Path.dirname p) created \/
        In (Sys (Mkdir (Path.dirname p)) true) before.
Proof.
  induction steps as [|steps IH]; intros [|first others] w created Hsteps Hpool Hcreated.
  - exists []. cbn. rewrite app_nil_r. split; [now destruct w|].
    split; [constructor|]. intros [|? ?]; discriminate.
  - pose proof (callsLeftIn_positive first others). lia.
  - exists []. cbn. rewrite app_nil_r. split; [now destruct w|].
    split; [constructor|]. intros [|? ?]; discriminate.
  - cbn [Promise_all_steps].
    destruct (completeNext_spec first others c w)
      as (op & before & after & settled & pool & Hsplit & Hnext & Hsettled & Hless).
    rewrite (bind_Return _ _ _ _ _ _ Hnext). cbv beta iota.
    rewrite Hsplit in *. clear Hsplit.
    unfold writesOnly in Hpool.
    apply Forall_app in Hpool as [Hbefore Hafter].
    inversion Hafter as [|? ? Hop Hafter']; subst.
    apply Forall_app in Hcreated as [Cbefore Cafter].
    inversion Cafter as [|? ? Cop Cafter']; subst.
    rewrite flat_map_app. cbn [flat_map].
    destruct op as [fullPath content [|]|dir]; [| |discriminate Hop];
      cbn [completion completionEffects remainingEffects app parentCreated] in *.
    + rewrite writeFile_succeeds in *. destruct Hsettled as [-> ->].
      destruct (IH (before ++ after)%list
                  (mkWorld (trace w ++ [Sys (WriteFile fullPath (FileSystem.fileContent (env c) content)) true;
                                        Log "FileSystem" Debug ("Arquivo escrito: " ++ fullPath)])
                     (clockReads w)) created)
        as (es & Hrun & Hperm & Horder).
      * lia.
      * now apply Forall_app.
      * now apply Forall_app.
      * eexists. split; [|split].
        -- rewrite Hrun. cbn [trace clockReads]. rewrite <- app_assoc. reflexivity.
        -- rewrite flat_map_app in Hperm.
           exact (perm_completed [_; _] _ _ _ Hperm).
        -- intros pre p data post Hes.
           destruct pre as [|e1 pre]; cbn [app] in Hes.
           { injection Hes as <- _ _. now left. }
           injection Hes as <- Hes.
           destruct pre as [|e2 pre]; cbn [app] in Hes; [discriminate Hes|].
           injection Hes as <- Hes.
           destruct (Horder _ _ _ _ Hes) as [H|H]; [now left|].
           right. now do 2 right.
    + rewrite mkdir_succeeds in *. destruct Hsettled as [-> ->].
      destruct (IH (before ++ after ++ [Writing fullPath content true])%list
                  (mkWorld (trace w ++ [Sys (Mkdir (Path.dirname fullPath)) true;
                                        Log "FileSystem" Debug
                                          ("Diretório criado/verificado: " ++ Path.dirname fullPath)])
                     (clockReads w))
                  (Path.dirname fullPath :: created))
        as (es & Hrun & Hperm & Horder).
      * lia.
      * unfold writesOnly. rewrite app_assoc. apply Forall_app.
        split; [now apply Forall_app | now repeat constructor].
      * assert (Hmore : forall op, parentCreated created op ->
                                   parentCreated (Path.dirname fullPath :: created) op).
        { intros [? ? [|]|?]; cbn; auto. }
        rewrite app_assoc. apply Forall_app. split.
        -- apply Forall_app. split; eapply Forall_impl; eauto.
        -- constructor; [now left | constructor].
      * eexists. split; [|split].
        -- rewrite Hrun. cbn [trace clockReads]. rewrite <- app_assoc. reflexivity.
        -- rewrite !flat_map_app in Hperm. cbn [flat_map remainingEffects app] in Hperm.
           rewrite ?app_nil_r in Hperm.
           exact (perm_continued [_; _] [_; _] _ _ _ Hperm).
        -- intros pre p data post Hes.
           destruct pre as [|e1 pre]; cbn [app] in Hes; [discriminate Hes|].
           injection Hes as <- Hes.
           destruct pre as [|e2 pre]; cbn [app] in Hes; [discriminate Hes|].
           injection Hes as <- Hes.
           destruct (Horder _ _ _ _ Hes) as [[H|H]|H].
           ++ right. left. now rewrite H.
           ++ now left.
           ++ right. now do 2 right.
Qed.

End Success.

Lemma remainingEffects_startWrites c projectDir files :
  flat_map (remainingEffects c) (startWrites projectDir files)
  = flat_map (stagingEffects c projectDir) files.
Proof.
  induction files as [|[filePath content] rest IH]; [reflexivity|].
  cbn [startWrites map flat_map]. fold (startWrites projectDir rest).
  now rewrite IH.
Qed.

(** C6 (as amended).  For every entry of the file set, staging joins the key
    to the project directory, creates the parent directory of the joined
    path and writes the content there; the joined path is not examined, so
    where creating and writing succeed every entry is written, whatever its
    key.  The writes go on side by side: what they leave is, in some order,
    what each entry leaves, each file written after its parent directory
    was created.  That the joined path stays in the project directory
    follows from the payload validation alone: it does for every key the
    key rule of the schema accepts (the project directory being given by a
    normalised path). *)
Theorem staging_writes_every_joined_path (c : Ctx) (projectDir : string)
    (files : FileSet) (w : World) :
  (forall p, fs_mkdir (env c) p = inr tt) ->
  (forall p data, fs_writeFile (env c) p data = inr tt) ->
  (exists es,
     writeFiles projectDir files c w
     = (Return tt, mkWorld (trace w ++ es) (clockReads w)) /\
     Permutation es (flat_map (stagingEffects c projectDir) files) /\
     createdBeforeWritten es) /\
  (Path.normalize projectDir = projectDir ->
   Path.endsWithSlash projectDir = false ->
   projectDir <> "." ->
   forall k v, In (k, v) files -> Validation.key_schema k = true ->
               within projectDir (Path.join projectDir k) = true).
Proof.
  intros Hmkdir Hwrite. split.
  - destruct (Promise_all_steps_success c Hmkdir Hwrite
                (callsLeftIn (startWrites projectDir files))
                (startWrites projectDir files) w [])
      as (es & Hrun & Hperm & Horder).
    + reflexivity.
    + apply startWrites_writesOnly.
    + unfold startWrites. apply Forall_forall. intros op Hop.
      apply in_map_iff in Hop as ([filePath content] & <- & _). exact I.
    + exists es. split; [|split].
      * unfold writeFiles, Promise_all. now rewrite (bind_Return _ _ _ _ _ _ Hrun).
      * now rewrite <- remainingEffects_startWrites.
      * intros before p data after Hes.
        destruct (Horder _ _ _ _ Hes) as [[]|H]. exact H.
  - intros Hnorm Hslash Hdot k v _ Hk.
    now apply validated_key_stays_within.
Qed.



(** C9 (as amended).  The size computation never fails.  An error in the
    scan of the workspace directory itself (it cannot be listed, or the
    [stat] of one of its own entries throws) makes the result 0, and 0 passes
    the check of the staged size for every configured maximum that is not
    negative.  An error inside a subdirectory makes that subdirectory count
    for 0 and no more: the result is the sum over the entries of the
    workspace directory, each file for its size and each subdirectory for
    the result of the call on it. *)
Theorem size_error_counts_as_zero (c : Ctx) (dirPath : string) (w : World) :
  (exists n, fst (FileSystem.getDirectorySize dirPath c w) = Return n) /\
  (topLevelError (fs_scan (env c) dirPath) = true ->
   fst (FileSystem.getDirectorySize dirPath c w) = Return 0) /\
  (0 <= maxProjectSize (config c) ->
   fst (check_project_size 0 c w) = Return tt) /\
  (forall files,
     fs_scan (env c) dirPath = Directory (inr files) ->
     directStatError files = false ->
     fst (FileSystem.getDirectorySize dirPath c w)
     = Return (sumZ (map (entrySize dirPath) files))).
Proof.
  rewrite getDirectorySize_value. repeat split.
  - eauto.
  - intros H. now rewrite getDirectorySize_at_top_level_error.
  - intros H. unfold check_project_size, bind, ask, logger, emit, ret, throw.
    destruct (Z.gtb_spec 0 (maxProjectSize (config c))); [lia | reflexivity].
  - intros files Hscan H. rewrite Hscan. now rewrite getDirectorySize_at_sum.
Qed.

Import FileSystem BuildRoute.

Lemma raises_writeFiles P c projectDir files :
  (forall msg, P (Error ("Falha ao escrever arquivo: " ++ msg))) ->
  raises P c (writeFiles projectDir files).
Proof.
  intros HP w e. unfold writeFiles.
  destruct (Promise_all_returns c (startWrites projectDir files) w)
    as (settled & es & H).
  rewrite (bind_Return _ _ _ _ _ _ H).
  destruct settled as [[error rest]|[]]; [|discriminate].
  cbn. intros [= <-].
  destruct (Promise_all_steps_rejection _ _ _ _ _ _ _
              (startWrites_writesOnly projectDir files) H) as [[msg ->] _].
  apply HP.
Qed.

(** The messages of lines 46 and 73. *)
Definition tooManyFilesMessage (fileCount maxFiles : Z) : string :=
  "Muitos arquivos: " ++ JsString.of_Z fileCount
  ++ ". Máximo permitido: " ++ JsString.of_Z maxFiles.

Definition tooLargeMessage (projectSize maxProjectSize : Z) : string :=
  "Projeto muito grande: " ++ JsString.of_Z (megabytes projectSize)
  ++ "MB. Máximo: " ++ JsString.of_Z (megabytes maxProjectSize) ++ "MB".

(** The errors a build request can end with. *)
Inductive buildError (c : Ctx) : JsError -> Prop :=
| DiskFull :
    diskFull c = true ->
    buildError c (AppError "Espaço em disco insuficiente" 507)
| InvalidPayload (e : Validation.JoiError) :
    buildError c (AppError ("Erro de validação: " ++ Validation.joi_message e) 400)
| BadStructure (files : FileSet) (msg : string) :
    Validation.validateProjectStructure files = inl msg ->
    buildError c (Error msg)
| TooManyFiles (fileCount : Z) :
    1 <= fileCount <= 100 -> fileCount > maxFiles (config c) ->
    buildError c (AppError (tooManyFilesMessage fileCount (maxFiles (config c))) 400)
| CannotCreate (msg : string) :
    buildError c (Error ("Falha ao criar diretório: " ++ msg))
| CannotWrite (msg : string) :
    buildError c (Error ("Falha ao escrever arquivo: " ++ msg))
| TooLarge (projectSize : Z) :
    projectSize > maxProjectSize (config c) ->
    buildError c (AppError (tooLargeMessage projectSize (maxProjectSize (config c))) 413)
| UnboundIdentifier :
    buildError c (ReferenceError "id").

Lemma pattern_members_length label members vs :
  Validation.pattern_members label members = inr (vs, []) ->
  List.length vs = List.length members.
Proof.
  revert vs. induction members as [|[k v] rest IH]; intros vs; cbn [Validation.pattern_members].
  - now intros [= <-].
  - destruct (Validation.key_schema k).
    + destruct (Validation.content_schema v) as [code|v']; [discriminate|].
      destruct (Validation.pattern_members label rest) as [e|[vs' unknown]];
        [discriminate|].
      intros [= <- ->]. cbn [List.length]. now rewrite (IH vs' eq_refl).
    + destruct (Validation.pattern_members label rest) as [e|[vs' unknown]];
        discriminate.
Qed.

Lemma validate_file_count body files :
  Validation.buildPayloadSchema_validate body = inr files ->
  1 <= Z.of_nat (List.length files) <= 100.
Proof.
  unfold Validation.buildPayloadSchema_validate.
  destruct body as [b|]; [|discriminate].
  destruct (Validation.object_schema b) as [members|]; [|discriminate].
  destruct (lookup_member "files" members) as [f|]; [|discriminate].
  unfold Validation.files_schema.
  destruct (Validation.object_schema f) as [fileMembers|]; [|discriminate].
  destruct (Validation.pattern_members "files" fileMembers)
    as [e|[vs [|k unknown]]] eqn:Hp; try discriminate.
  destruct (Z.ltb_spec (Z.of_nat (List.length fileMembers)) 1); [discriminate|].
  destruct (Z.ltb_spec 100 (Z.of_nat (List.length fileMembers))); [discriminate|].
  destruct (Validation.first_other_key "files" members); [discriminate|].
  intros [= <-]. rewrite (pattern_members_length _ _ _ Hp). lia.
Qed.

Lemma raises_accept_request c req : raises (buildError c) c (accept_request req).
Proof.
  unfold accept_request.
  apply raises_bind; [apply raises_emit | intros _].
  apply (raises_bind_value _ _ _ _ (diskSnapshot c)); [apply checkDiskSpace_value|].
  apply raises_bind.
  { pose proof (DiskFull c) as Hfull. unfold diskFull in Hfull.
    destruct (diskSnapshot c) as [snapshot|]; [|apply raises_ret].
    destruct (90 <? usagePercent snapshot)%float;
      [apply raises_throw; now apply Hfull | apply raises_ret]. }
  intros _. apply (raises_bind_value _ _ _ _ c); [reflexivity|].
  apply raises_bind_from.
  { destruct (Validation.buildPayloadSchema_validate _);
      [apply raises_throw, InvalidPayload | apply raises_ret]. }
  intros files [w Hfiles].
  assert (Hcount : 1 <= Z.of_nat (List.length files) <= 100).
  { destruct (Validation.buildPayloadSchema_validate (body req))
      as [e|files'] eqn:Hv; [discriminate Hfiles|].
    injection Hfiles as <-. exact (validate_file_count _ _ Hv). }
  apply raises_bind.
  { destruct (Validation.validateProjectStructure files) eqn:Hs;
      [apply raises_throw; now apply (BadStructure c files) | apply raises_ret]. }
  intros _.
  destruct (Z.gtb_spec (Z.of_nat (List.length files)) (maxFiles (config c)));
    [|apply raises_ret].
  apply raises_throw. apply TooManyFiles; [exact Hcount | lia].
Qed.

Lemma raises_build_project c req startTime projectId projectDir files fileCount :
  raises (buildError c) c
    (build_project req startTime projectId projectDir files fileCount).
Proof.
  unfold build_project, stage_project.
  apply raises_bind.
  { apply raises_bind; [apply raises_emit | intros _].
    apply raises_bind; [apply raises_ensureDirectory, CannotCreate | intros _].
    apply raises_bind; [apply raises_writeFiles, CannotWrite | intros _].
    apply raises_getDirectorySize. }
  intros projectSize. apply raises_bind.
  { unfold check_project_size.
    apply (raises_bind_value _ _ _ _ c); [reflexivity|].
    apply raises_bind; [|intros _; apply raises_emit].
    destruct (Z.gtb_spec projectSize (maxProjectSize (config c)));
      [|apply raises_ret].
    apply raises_throw. apply TooLarge. lia. }
  intros _ w e. rewrite run_and_respond_throws. intros [= <-].
  apply UnboundIdentifier.
Qed.

(** Every build request ends with [next(error)], for one of the errors
    above. *)
Lemma post_build_error req c :
  exists error w,
    run (post_build req) c = (Return (Next error), w) /\ buildError c error.
Proof.
  destruct (accept_request req c started) as [[[files fileCount]|e|] w1] eqn:Ha.
  - destruct (build_project_fails req (startTimeOf c) (projectIdOf c)
                (projectDirOf c) files fileCount c w1) as [e He].
    destruct (build_project _ _ _ _ _ _ c w1) as [o w2] eqn:Hb.
    cbn [fst] in He. subst o.
    destruct (on_error_replies (startTimeOf c) (Some (projectIdOf c))
                (Some (projectDirOf c))
                (leftInFlight (projectDirOf c) files c w1) e c w2) as [w Hw].
    exists e, w. split.
    + rewrite (post_build_accepted _ _ _ _ _ Ha).
      now rewrite (try_catch_beside_Throw _ _ _ _ _ _ _ Hb).
    + eapply raises_build_project. now rewrite Hb.
  - exists e. eexists. split; [apply (post_build_refused _ _ _ _ Ha)|].
    eapply raises_accept_request. now rewrite Ha.
  - pose proof (settles_accept_request req c started) as H.
    rewrite Ha in H. now elim H.
Qed.

Lemma accept_request_full_disk req c w :
  diskFull c = true ->
  fst (accept_request req c w)
  = Throw (AppError "Espaço em disco insuficiente" 507).
Proof.
  unfold diskFull, diskSnapshot. intros Hfull.
  cbv beta iota zeta delta
    [accept_request logger checkDiskSpace try_catch bind ask observe ret emit throw].
  destruct (fs_statfs (env c) (previewsDir (config c))) as [msg|stats];
    [discriminate Hfull|].
  cbn [usagePercent] in *. now rewrite Hfull.
Qed.

Lemma post_build_full_disk req c :
  diskFull c = true ->
  exists w,
    run (post_build req) c
    = (Return (Next (AppError "Espaço em disco insuficiente" 507)), w).
Proof.
  intros Hfull.
  pose proof (accept_request_full_disk req c started Hfull) as Ha.
  destruct (accept_request req c started) as [o w1] eqn:Hacc.
  cbn [fst] in Ha. subst o. eexists. apply (post_build_refused _ _ _ _ Hacc).
Qed.

(** X10.  With the configured maximum at 100 files or more, the check of
    line 45 never fires: the schema has already refused a larger file set,
    so no request ends with the error about too many files. *)
Theorem file_count_guard_is_unreachable (req : Request) (c : Ctx)
    (error : JsError) (w : World) :
  100 <= maxFiles (config c) ->
  run (post_build req) c = (Return (Next error), w) ->
  String.prefix "Muitos arquivos: " (message error) = false.
Proof.
  intros Hmax Hrun.
  destruct (post_build_error req c) as (error' & w' & Hrun' & Herror).
  rewrite Hrun in Hrun'. injection Hrun' as <- _.
  destruct Herror as [| |files msg Hs| | | | |]; try reflexivity.
  - unfold Validation.validateProjectStructure in Hs.
    destruct (negb _); [now injection Hs as <-|].
    destruct (find _ _); [now injection Hs as <-|discriminate].
  - lia.
Qed.

(** X11.  A project staged above the configured maximum size is refused
    with status 413 and a message giving both sizes in megabytes, after the
    files were written: the [catch] block then removes the project
    directory, which is the last thing the request does. *)
Theorem oversized_project_is_removed (req : Request) (c : Ctx)
    (files : FileSet) (fileCount : Z) (w1 : World) (projectSize : Z) (w2 : World) :
  accept_request req c started = (Return (files, fileCount), w1) ->
  stage_project (projectDirOf c) files c w1 = (Return projectSize, w2) ->
  projectSize > maxProjectSize (config c) ->
  run (post_build req) c
  = (Return (Next (AppError (tooLargeMessage projectSize (maxProjectSize (config c)))
                     413)),
     mkWorld (trace w2 ++ errorLog :: cleanupEffects c (projectDirOf c))
       (S (clockReads w2))).
Proof.
  intros Ha Hs Hsize.
  rewrite (post_build_accepted _ _ _ _ _ Ha).
  erewrite try_catch_beside_Throw.
  { rewrite (leftInFlight_staged _ _ _ _ _ _ Hs). apply on_error_assigned. }
  unfold build_project. rewrite (bind_Return _ _ _ _ _ _ Hs).
  erewrite bind_Throw; [reflexivity|].
  unfold check_project_size.
  cbv beta iota zeta delta [bind ask throw].
  now rewrite (proj2 (Z.gtb_gt _ _)) by lia.
Qed.

(** Effects other than the start of a process. *)
Definition noSpawn (e : Effect) : Prop :=
  match e with
  | Sys (Spawn _ _ _) _ => False
  | _ => True
  end.

Lemma emits_ensureDirectory c dirPath : emits noSpawn c (ensureDirectory dirPath).
Proof.
  unfold ensureDirectory.
  apply emits_try_catch.
  - apply emits_bind; [now apply emits_perform | intros _]. now apply emits_emit.
  - intros e. apply emits_bind; [now apply emits_emit | intros _]. apply emits_throw.
Qed.

Lemma emits_writeFileSecure c filePath content :
  emits noSpawn c (writeFileSecure filePath content).
Proof.
  unfold writeFileSecure.
  apply emits_try_catch.
  - apply emits_bind; [apply emits_ensureDirectory | intros _].
    apply emits_bind; [apply emits_ask | intros c'].
    apply emits_bind; [now apply emits_perform | intros _]. now apply emits_emit.
  - intros e. apply emits_bind; [now apply emits_emit | intros _]. apply emits_throw.
Qed.

Lemma completionEffects_noSpawn c op : Forall noSpawn (completionEffects c op).
Proof.
  destruct op as [fullPath content [|]|dir]; cbn [completionEffects].
  - destruct (fs_writeFile _ _ _); repeat constructor.
  - destruct (fs_mkdir _ _); repeat constructor.
  - destruct (fs_rm _ _); repeat constructor.
Qed.

Lemma emits_writeFiles c projectDir files :
  emits noSpawn c (writeFiles projectDir files).
Proof.
  unfold writeFiles.
  apply emits_bind.
  - apply emits_Promise_all_steps, completionEffects_noSpawn.
  - intros [[error rest]|[]]; auto with emits.
Qed.

Lemma emits_on_error c startTime projectId projectDir inFlight error :
  emits noSpawn c (on_error startTime projectId projectDir inFlight error).
Proof.
  unfold on_error, clean_up.
  apply emits_bind; [|intros rest; apply emits_ret].
  apply emits_bind; [apply emits_now | intros finished].
  apply emits_bind; [now apply emits_emit | intros _].
  destruct projectDir as [dir|]; [|apply emits_ret].
  apply emits_bind.
  - apply emits_awaitRemoval_steps, completionEffects_noSpawn.
  - intros [[e|[]] rest];
      (apply emits_bind; [now apply emits_emit | intros _; apply emits_ret]).
Qed.

Lemma sumEntries_noSpawn dirPath files :
  Forall (fun entry =>
            forall p, Forall noSpawn (snd (getDirectorySize_at p (snd entry)))) files ->
  forall totalSize logs,
    Forall noSpawn logs ->
    match sumEntries getDirectorySize_at dirPath files totalSize logs with
    | inl logs' => Forall noSpawn logs'
    | inr (_, logs') => Forall noSpawn logs'
    end.
Proof.
  induction 1 as [|[fileName file] rest Hfile _ IH]; intros totalSize logs Hlogs.
  - exact Hlogs.
  - cbn [sumEntries]. cbn [snd] in Hfile.
    destruct file as [listing|[msg|fileSize]].
    + specialize (Hfile (Path.join dirPath fileName)).
      destruct (getDirectorySize_at (Path.join dirPath fileName) (Directory listing))
        as [sub subLogs]. cbn [snd] in Hfile.
      apply IH. apply Forall_app. now split.
    + exact Hlogs.
    + now apply IH.
Qed.

Lemma getDirectorySize_at_noSpawn node :
  forall p, Forall noSpawn (snd (getDirectorySize_at p node)).
Proof.
  induction node as [st|msg|files IH] using FsNode_nested_ind; intros p.
  - repeat constructor.
  - repeat constructor.
  - cbn [getDirectorySize_at].
    pose proof (sumEntries_noSpawn p files IH 0 [] (Forall_nil _)) as H.
    destruct (sumEntries getDirectorySize_at p files 0 []) as [logs|[n logs]];
      cbn [snd]; [|exact H].
    apply Forall_app. split; [exact H | repeat constructor].
Qed.

Lemma emits_getDirectorySize c dirPath : emits noSpawn c (getDirectorySize dirPath).
Proof.
  unfold getDirectorySize.
  apply emits_bind; [apply emits_ask | intros c'].
  pose proof (getDirectorySize_at_noSpawn (fs_scan (env c') dirPath) dirPath) as H.
  destruct (getDirectorySize_at dirPath (fs_scan (env c') dirPath)) as [n logs].
  apply emits_bind; [now apply emits_emit_all | intros _; apply emits_ret].
Qed.

Lemma emits_build_project c req startTime projectId projectDir files fileCount :
  emits noSpawn c (build_project req startTime projectId projectDir files fileCount).
Proof.
  unfold build_project.
  apply emits_bind.
  { unfold stage_project.
    apply emits_bind; [now apply emits_emit | intros _].
    apply emits_bind; [apply emits_ensureDirectory | intros _].
    apply emits_bind; [apply emits_writeFiles | intros _].
    apply emits_getDirectorySize. }
  intros projectSize. apply emits_bind.
  { unfold check_project_size.
    apply emits_bind; [apply emits_ask | intros c'].
    apply emits_bind; [|intros _; now apply emits_emit].
    apply emits_if; [apply emits_throw | apply emits_ret]. }
  intros _. apply emits_nothing. intros w. now rewrite run_and_respond_throws.
Qed.

(** X25.  No build request starts a process: the handler fails before it
    reaches [runBuild], so nothing a request does is the start of a
    command. *)
Theorem build_request_spawns_nothing (req : Request) (c : Ctx) :
  Forall noSpawn (trace (snd (run (post_build req) c))).
Proof.
  pose proof (accept_request_world req c started) as Hworld.
  assert (Hlogs : Forall noSpawn (acceptLogs c)).
  { unfold acceptLogs. destruct (fs_statfs _ _); repeat constructor. }
  destruct (accept_request req c started) as [[[files fileCount]|e|] w1] eqn:Ha;
    cbn [snd] in Hworld; subst w1.
  - rewrite (post_build_accepted _ _ _ _ _ Ha).
    destruct (emits_build_project c req (startTimeOf c) (projectIdOf c)
                (projectDirOf c) files fileCount
                (mkWorld (trace started ++ acceptLogs c) (clockReads started)))
      as [es [Htrace Hes]].
    destruct (build_project_fails req (startTimeOf c) (projectIdOf c)
                (projectDirOf c) files fileCount c
                (mkWorld (trace started ++ acceptLogs c) (clockReads started)))
      as [e He].
    destruct (build_project _ _ _ _ _ _ c _) as [o w2] eqn:Hb.
    cbn [fst snd] in He, Htrace. subst o.
    rewrite (try_catch_beside_Throw _ _ _ _ _ _ _ Hb).
    destruct (emits_on_error c (startTimeOf c) (Some (projectIdOf c))
                (Some (projectDirOf c))
                (leftInFlight (projectDirOf c) files c
                   (mkWorld (trace started ++ acceptLogs c) (clockReads started)))
                e w2) as [es' [Htrace' Hes']].
    rewrite Htrace', Htrace. cbn [trace started app].
    repeat (apply Forall_app; split); assumption.
  - rewrite (post_build_refused _ _ _ _ Ha). cbn [snd trace started app].
    apply Forall_app. split; [exact Hlogs | repeat constructor].
  - pose proof (settles_accept_request req c started) as H.
    rewrite Ha in H. now elim H.
Qed.

End BuildRouteFacts.

(** ** The build service *)

Module BuildServiceFacts.
Import Js JsFacts BuildService.
Local Open Scope js_scope.

(** The events that end a child: [close] and [error]. *)
Definition ends (ev : ChildEvent) : bool :=
  match ev with
  | Close _ | ErrorEvent _ => true
  | StdoutData _ | StderrData _ => false
  end.

(** The process ids signalled, in order. *)
Definition kills (es : list Effect) : list Z :=
  flat_map (fun e => match e with Sys (Kill p) _ => [p] | _ => [] end) es.

(** Reads the fields of an explicit state. *)
Ltac fields :=
  cbn [settled effects timerArmed isTimedOut stdout stderr].

Lemma kills_app (a b : list Effect) : kills (a ++ b) = (kills a ++ kills b)%list.
Proof. apply flat_map_app. Qed.

Lemma existsb_first {A} (f : A -> bool) (l : list A) :
  existsb f l = true ->
  exists pre x post,
    l = (pre ++ x :: post)%list /\
    forallb (fun a => negb (f a)) pre = true /\ f x = true.
Proof.
  induction l as [|a l IH]; [discriminate|]. cbn [existsb].
  destruct (f a) eqn:Ha.
  - intros _. now exists [], a, l.
  - intros H. destruct (IH H) as (pre & x & post & -> & Hpre & Hx).
    exists (a :: pre), x, post. cbn [forallb]. now rewrite Ha, Hpre.
Qed.

Lemma timeout_is_not_exit cmd args timeoutMs code out err :
  timeoutMessage cmd args timeoutMs <> exitMessage code out err.
Proof. unfold timeoutMessage, exitMessage. cbn [append]. discriminate. Qed.

Lemma timeout_is_not_spawn_error cmd args timeoutMs msg :
  timeoutMessage cmd args timeoutMs <> "Erro ao executar comando: " ++ msg.
Proof. unfold timeoutMessage. cbn [append]. discriminate. Qed.

Section Supervision.

Variables (cmd : string) (args : list string) (timeoutMs : Z) (childPid : Z).

Definition timedOut : Settlement :=
  Rejected (Error (timeoutMessage cmd args timeoutMs)).

(** The state while the child runs: the timer is scheduled and nothing has
    been decided. *)
Definition running (st : ChildState) : Prop :=
  timerArmed st = true /\ isTimedOut st = false /\ settled st = None /\
  kills (effects st) = [].

(** The state once the timer is cleared: the promise is settled, otherwise
    than by the timeout, and no signal has been sent. *)
Definition completed (st : ChildState) : Prop :=
  timerArmed st = false /\
  (exists s, settled st = Some s /\ s <> timedOut) /\
  kills (effects st) = [].

(** The state once the timer has fired. *)
Definition expired (st : ChildState) : Prop :=
  timerArmed st = false /\ isTimedOut st = true /\
  settled st = Some timedOut /\ kills (effects st) = [childPid].

Lemma running_initial : running initialChildState.
Proof. now repeat split. Qed.

Lemma running_output ev st :
  ends ev = false -> running st -> running (onChildEvent cmd ev st).
Proof.
  intros Hev (Ht & Hi & Hs & Hk).
  destruct ev; try discriminate; cbn [onChildEvent];
    unfold onStdout, onStderr, record, running; fields;
    rewrite kills_app, Hk; now repeat split.
Qed.

Lemma running_deliver evs st :
  forallb (fun ev => negb (ends ev)) evs = true ->
  running st -> running (deliver cmd evs st).
Proof.
  revert st. induction evs as [|ev evs IH]; intros st H Hst; [exact Hst|].
  cbn [forallb] in H. apply andb_true_iff in H as [Hev Hevs].
  apply negb_true_iff in Hev. cbn [deliver fold_left].
  apply IH; [exact Hevs | now apply running_output].
Qed.

Lemma running_end ev st :
  ends ev = true -> running st -> completed (onChildEvent cmd ev st).
Proof.
  intros Hev (Ht & Hi & Hs & Hk).
  destruct ev as [data|data|code|msg]; try discriminate.
  - cbn [onChildEvent]. unfold onClose, clearTimeout. fields.
    rewrite Hi. destruct code as [[|p|p]|];
      unfold settle, record, completed; fields; rewrite Hs; fields;
      rewrite kills_app, Hk;
      (split; [reflexivity|]; split; [|reflexivity]);
      eexists; (split; [reflexivity|]); unfold timedOut;
      try discriminate;
      intros [= H]; now apply timeout_is_not_exit in H.
  - cbn [onChildEvent]. unfold onError, clearTimeout, settle, record, completed.
    fields. rewrite Hs. fields. rewrite kills_app, Hk.
    split; [reflexivity|]. split; [|reflexivity].
    eexists. split; [reflexivity|]. unfold timedOut.
    intros [= H]; symmetry in H; now apply timeout_is_not_spawn_error in H.
Qed.

Lemma completed_event ev st :
  completed st -> completed (onChildEvent cmd ev st).
Proof.
  intros (Ht & (s & Hs & Hne) & Hk).
  destruct ev as [data|data|code|msg]; cbn [onChildEvent].
  - unfold onStdout, record, completed. fields.
    rewrite kills_app, Hk. repeat split; eauto.
  - unfold onStderr, record, completed. fields.
    rewrite kills_app, Hk. repeat split; eauto.
  - unfold onClose, clearTimeout. fields.
    destruct (isTimedOut st).
    + unfold completed. fields. repeat split; eauto.
    + destruct code as [[|p|p]|];
        unfold settle, record, completed; fields; rewrite Hs; fields;
        rewrite kills_app, Hk; repeat split; eauto.
  - unfold onError, clearTimeout, settle, record, completed.
    fields. rewrite Hs. fields. rewrite kills_app, Hk.
    repeat split; eauto.
Qed.

Lemma completed_deliver evs st :
  completed st -> completed (deliver cmd evs st).
Proof.
  revert st. induction evs as [|ev evs IH]; intros st Hst; [exact Hst|].
  cbn [deliver fold_left]. apply IH. now apply completed_event.
Qed.

Lemma running_timer st :
  running st -> expired (timerDue cmd args timeoutMs childPid st).
Proof.
  intros (Ht & Hi & Hs & Hk). unfold timerDue. rewrite Ht.
  unfold onTimeout, settle, record, expired. fields.
  rewrite Hs. fields. rewrite kills_app, Hk. now repeat split.
Qed.

Lemma completed_timer st :
  completed st -> timerDue cmd args timeoutMs childPid st = st.
Proof. intros (Ht & _). unfold timerDue. now rewrite Ht. Qed.

Lemma expired_event ev st :
  expired st -> expired (onChildEvent cmd ev st).
Proof.
  intros (Ht & Hi & Hs & Hk).
  destruct ev as [data|data|code|msg]; cbn [onChildEvent].
  - unfold onStdout, record, expired. fields.
    rewrite kills_app, Hk. now repeat split.
  - unfold onStderr, record, expired. fields.
    rewrite kills_app, Hk. now repeat split.
  - unfold onClose, clearTimeout. fields. rewrite Hi.
    unfold expired. fields. now repeat split.
  - unfold onError, clearTimeout, settle, record, expired.
    fields. rewrite Hs. fields. rewrite kills_app, Hk. now repeat split.
Qed.

Lemma expired_deliver evs st :
  expired st -> expired (deliver cmd evs st).
Proof.
  revert st. induction evs as [|ev evs IH]; intros st Hst; [exact Hst|].
  cbn [deliver fold_left]. apply IH. now apply expired_event.
Qed.

Lemma deliver_app evs1 evs2 st :
  deliver cmd (evs1 ++ evs2) st = deliver cmd evs2 (deliver cmd evs1 st).
Proof. apply fold_left_app. Qed.

(** A command that has not ended when the timer is due is timed out. *)
Lemma supervise_expired script :
  forallb (fun ev => negb (ends ev)) (beforeDeadline script) = true ->
  expired (supervise cmd args timeoutMs childPid script).
Proof.
  intros H. unfold supervise. apply expired_deliver, running_timer.
  apply running_deliver; [exact H | apply running_initial].
Qed.

(** A command that ends before the timer is due is never timed out. *)
Lemma supervise_completed script :
  existsb ends (beforeDeadline script) = true ->
  completed (supervise cmd args timeoutMs childPid script).
Proof.
  intros H. unfold supervise.
  destruct (existsb_first _ _ H) as (pre & ev & post & -> & Hpre & Hev).
  apply completed_deliver.
  rewrite deliver_app. cbn [deliver fold_left].
  fold (deliver cmd post (onChildEvent cmd ev (deliver cmd pre initialChildState))).
  assert (Hdone : completed
            (deliver cmd post (onChildEvent cmd ev (deliver cmd pre initialChildState)))).
  { apply completed_deliver, running_end; [exact Hev|].
    apply running_deliver; [exact Hpre | apply running_initial]. }
  now rewrite completed_timer.
Qed.

(** The promise is always settled. *)
Lemma supervise_settled script :
  settled (supervise cmd args timeoutMs childPid script) <> None.
Proof.
  destruct (existsb ends (beforeDeadline script)) eqn:H.
  - destruct (supervise_completed script H) as (_ & (s & -> & _) & _).
    discriminate.
  - assert (H' : forallb (fun ev => negb (ends ev)) (beforeDeadline script) = true).
    { clear -H. induction (beforeDeadline script) as [|ev evs IH]; [reflexivity|].
      cbn [existsb forallb] in *. apply orb_false_iff in H as [-> H].
      now rewrite IH. }
    destruct (supervise_expired script H') as (_ & _ & -> & _). discriminate.
Qed.

(** The callbacks leave only log records and signals. *)
Definition logOrKill (e : Effect) : Prop :=
  match e with
  | Log _ _ _ => True
  | Sys (Kill _) _ => True
  | Sys _ _ => False
  end.

Lemma logOrKill_event ev st :
  Forall logOrKill (effects st) ->
  Forall logOrKill (effects (onChildEvent cmd ev st)).
Proof.
  intros H.
  destruct ev as [data|data|code|msg]; cbn [onChildEvent].
  - unfold onStdout, record. fields. apply Forall_app. split; [exact H|].
    now repeat constructor.
  - unfold onStderr, record. fields. apply Forall_app. split; [exact H|].
    now repeat constructor.
  - unfold onClose, clearTimeout. fields. destruct (isTimedOut st); [exact H|].
    destruct code as [[|p|p]|]; unfold settle, record; fields;
      destruct (settled st); fields;
      (apply Forall_app; split; [exact H | now repeat constructor]).
  - unfold onError, clearTimeout, settle, record. fields.
    destruct (settled st); fields;
      (apply Forall_app; split; [exact H | now repeat constructor]).
Qed.

Lemma logOrKill_deliver evs st :
  Forall logOrKill (effects st) ->
  Forall logOrKill (effects (deliver cmd evs st)).
Proof.
  revert st. induction evs as [|ev evs IH]; intros st H; [exact H|].
  cbn [deliver fold_left]. apply IH. now apply logOrKill_event.
Qed.

Lemma logOrKill_timer st :
  Forall logOrKill (effects st) ->
  Forall logOrKill (effects (timerDue cmd args timeoutMs childPid st)).
Proof.
  intros H. unfold timerDue. destruct (timerArmed st); [|exact H].
  unfold onTimeout, settle, record. fields.
  destruct (settled st); fields;
    (apply Forall_app; split; [exact H | now repeat constructor]).
Qed.

Lemma logOrKill_supervise script :
  Forall logOrKill (effects (supervise cmd args timeoutMs childPid script)).
Proof.
  unfold supervise. apply logOrKill_deliver, logOrKill_timer, logOrKill_deliver.
  constructor.
Qed.

(** A callback of the script: it keeps a settled promise as it is and only
    adds records. *)
Definition callback (f : ChildState -> ChildState) : Prop :=
  forall st,
    (forall s, settled st = Some s -> settled (f st) = Some s) /\
    (exists es, effects (f st) = (effects st ++ es)%list).

Lemma callback_event ev : callback (onChildEvent cmd ev).
Proof.
  intros st. split.
  - intros s Hs.
    destruct ev as [data|data|code|msg]; cbn [onChildEvent].
    + unfold onStdout, record; fields; exact Hs.
    + unfold onStderr, record; fields; exact Hs.
    + unfold onClose, clearTimeout; fields.
      destruct (isTimedOut st); fields; [exact Hs|].
      destruct code as [[| |]|]; unfold settle, record; fields; now rewrite Hs.
    + unfold onError, clearTimeout, settle, record; fields; now rewrite Hs.
  - destruct ev as [data|data|code|msg]; cbn [onChildEvent].
    + unfold onStdout, record; fields; eauto.
    + unfold onStderr, record; fields; eauto.
    + unfold onClose, clearTimeout; fields.
      destruct (isTimedOut st); fields; [exists []; now rewrite app_nil_r|].
      destruct code as [[| |]|]; unfold settle, record; fields;
        destruct (settled st); fields; eauto.
    + unfold onError, clearTimeout, settle, record; fields.
      destruct (settled st); fields; eauto.
Qed.

Lemma callback_timer : callback (timerDue cmd args timeoutMs childPid).
Proof.
  intros st. unfold timerDue. destruct (timerArmed st).
  - unfold onTimeout, settle, record. fields. split.
    + intros s Hs. now rewrite Hs.
    + destruct (settled st); fields; eauto.
  - split; [auto | exists []; now rewrite app_nil_r].
Qed.

Lemma callbacks_callback script :
  Forall callback (callbacks cmd args timeoutMs childPid script).
Proof.
  unfold callbacks. apply Forall_app. split; [|constructor].
  - apply Forall_forall. intros f Hf. apply in_map_iff in Hf as (ev & <- & _).
    apply callback_event.
  - apply callback_timer.
  - apply Forall_forall. intros f Hf. apply in_map_iff in Hf as (ev & <- & _).
    apply callback_event.
Qed.

Lemma deliver_callbacks evs st :
  fold_left (fun st f => f st) (map (onChildEvent cmd) evs) st = deliver cmd evs st.
Proof.
  revert st. induction evs as [|ev evs IH]; intros st; [reflexivity|].
  cbn [map fold_left deliver]. apply IH.
Qed.

Lemma supervise_callbacks script :
  supervise cmd args timeoutMs childPid script
  = fold_left (fun st f => f st) (callbacks cmd args timeoutMs childPid script)
      initialChildState.
Proof.
  unfold supervise, callbacks.
  rewrite fold_left_app. cbn [fold_left].
  now rewrite !deliver_callbacks.
Qed.

Lemma fold_callbacks_settled fs st s :
  Forall callback fs -> settled st = Some s ->
  settled (fold_left (fun st f => f st) fs st) = Some s.
Proof.
  intros Hfs. revert st. induction Hfs as [|f fs Hf _ IH]; intros st Hs; [exact Hs|].
  cbn [fold_left]. apply IH. now apply Hf.
Qed.

Lemma fold_callbacks_effects fs st :
  Forall callback fs ->
  exists es, effects (fold_left (fun st f => f st) fs st) = (effects st ++ es)%list.
Proof.
  intros Hfs. revert st. induction Hfs as [|f fs Hf _ IH]; intros st.
  - exists []. now rewrite app_nil_r.
  - cbn [fold_left]. destruct (IH (f st)) as [es ->].
    destruct (proj2 (Hf st)) as [es' ->]. rewrite <- app_assoc. eauto.
Qed.

(** The promise is settled by the first callback that settles it, and the
    records written by then are the first of those of the whole script. *)
Lemma untilSettled_fold fs st :
  Forall callback fs ->
  settled (untilSettled fs st) = settled (fold_left (fun st f => f st) fs st) /\
  (exists es,
     effects (fold_left (fun st f => f st) fs st)
     = (effects (untilSettled fs st) ++ es)%list).
Proof.
  intros Hfs. revert st. induction Hfs as [|f fs Hf Hfs IH]; intros st.
  - assert (Hnil : untilSettled [] st = st) by (cbn; now destruct (settled st)).
    rewrite Hnil. cbn [fold_left].
    split; [reflexivity | exists (@nil Effect); now rewrite app_nil_r].
  - destruct (settled st) as [s|] eqn:Hs.
    + assert (Hst : untilSettled (f :: fs) st = st) by (cbn; now rewrite Hs).
      rewrite Hst. cbn [fold_left]. split.
      * rewrite Hs. symmetry. apply fold_callbacks_settled; [exact Hfs|].
        now apply Hf.
      * destruct (fold_callbacks_effects fs (f st) Hfs) as [es ->].
        destruct (proj2 (Hf st)) as [es' ->]. rewrite <- app_assoc. eauto.
    + assert (Hst : untilSettled (f :: fs) st = untilSettled fs (f st))
        by (cbn; now rewrite Hs).
      rewrite Hst. cbn [fold_left]. apply IH.
Qed.

Lemma atSettlement_settled script :
  settled (atSettlement cmd args timeoutMs childPid script)
  = settled (supervise cmd args timeoutMs childPid script).
Proof.
  unfold atSettlement. rewrite supervise_callbacks.
  apply untilSettled_fold, callbacks_callback.
Qed.

Lemma atSettlement_effects script :
  exists es,
    effects (supervise cmd args timeoutMs childPid script)
    = (effects (atSettlement cmd args timeoutMs childPid script) ++ es)%list.
Proof.
  unfold atSettlement. rewrite supervise_callbacks.
  apply untilSettled_fold, callbacks_callback.
Qed.

Lemma logOrKill_atSettlement script :
  Forall logOrKill (effects (atSettlement cmd args timeoutMs childPid script)).
Proof.
  destruct (atSettlement_effects script) as [es Hes].
  pose proof (logOrKill_supervise script) as H. rewrite Hes in H.
  now apply Forall_app in H.
Qed.

Lemma kills_atSettlement script :
  kills (effects (supervise cmd args timeoutMs childPid script)) = [] ->
  kills (effects (atSettlement cmd args timeoutMs childPid script)) = [].
Proof.
  destruct (atSettlement_effects script) as [es ->].
  rewrite kills_app. intros H. now apply app_eq_nil in H.
Qed.

End Supervision.

(** C7 (as amended).  A command still running when its timer is due is sent
    SIGKILL, the one signal of the run, addressed to the child process
    itself, and its promise is rejected with the timeout message, which no
    exit failure carries.  A command that has ended before that ([close] or
    [error]) has its timer cleared by the handler of the event: the promise
    is settled otherwise than by the timeout and no signal is ever sent,
    whatever comes later. *)
Theorem timeout_kills_child_and_is_distinct
    (cmd : string) (args : list string) (timeoutMs : Z) (script : ChildScript) :
  let st := supervise cmd args timeoutMs (pid script) script in
  (forallb (fun ev => negb (ends ev)) (beforeDeadline script) = true ->
   settled st = Some (Rejected (Error (timeoutMessage cmd args timeoutMs))) /\
   kills (effects st) = [pid script]) /\
  (forall code out err,
     timeoutMessage cmd args timeoutMs <> exitMessage code out err) /\
  (existsb ends (beforeDeadline script) = true ->
   timerArmed st = false /\
   kills (effects st) = [] /\
   exists s, settled st = Some s
             /\ s <> Rejected (Error (timeoutMessage cmd args timeoutMs))).
Proof.
  cbv zeta. split; [|split].
  - intros H.
    destruct (supervise_expired cmd args timeoutMs (pid script) script H)
      as (_ & _ & Hs & Hk).
    now split.
  - intros code out err. apply timeout_is_not_exit.
  - intros H.
    destruct (supervise_completed cmd args timeoutMs (pid script) script H)
      as (Ht & Hs & Hk).
    now repeat split.
Qed.

(** The commands started, in order. *)
Definition spawns (es : list Effect) : list (string * list string) :=
  flat_map (fun e => match e with Sys (Spawn cmd args _) _ => [(cmd, args)] | _ => [] end) es.

Lemma spawns_app a b : spawns (a ++ b) = (spawns a ++ spawns b)%list.
Proof. apply flat_map_app. Qed.

Lemma spawns_logOrKill es : Forall logOrKill es -> spawns es = [].
Proof.
  induction 1 as [|e es He _ IH]; [reflexivity|].
  cbn [spawns flat_map]. fold (spawns es). rewrite IH.
  destruct e as [? ? ?|[]]; try reflexivity; now elim He.
Qed.

(** How the promise of a command ends on the host of [c]. *)
Definition settlement (c : Ctx) (cmd : string) (args : list string)
    (dir : string) (timeoutMs : Z) : option Settlement :=
  let script := child_process (env c) cmd args dir in
  settled (supervise cmd args timeoutMs (pid script) script).

(** What the callbacks of a command leave. *)
Definition callbackEffects (c : Ctx) (cmd : string) (args : list string)
    (dir : string) (timeoutMs : Z) : list Effect :=
  let script := child_process (env c) cmd args dir in
  effects (atSettlement cmd args timeoutMs (pid script) script).

(** What one [runCommand] call leaves. *)
Definition commandEffects (c : Ctx) (cmd : string) (args : list string)
    (dir : string) (timeoutMs : Z) : list Effect :=
  logger Info ("Executando comando: " ++ commandLine cmd args)
  :: Sys (Spawn cmd args dir) true
  :: callbackEffects c cmd args dir timeoutMs.

Definition outcomeOf (s : option Settlement) : Outcome (string * string) :=
  match s with
  | Some (Resolved out err) => Return (out, err)
  | Some (Rejected e) => Throw e
  | None => Pending
  end.

Lemma runCommand_eq cmd args dir timeoutMs c w :
  runCommand cmd args dir timeoutMs c w
  = (outcomeOf (settlement c cmd args dir timeoutMs),
     mkWorld (trace w ++ commandEffects c cmd args dir timeoutMs) (clockReads w)).
Proof.
  unfold runCommand, settlement, commandEffects, callbackEffects, outcomeOf.
  cbv zeta. rewrite <- atSettlement_settled.
  cbv beta iota zeta delta [bind emit emit_all ask ret throw pending trace clockReads].
  destruct (settled _) as [[out err|e]|]; rewrite <- !app_assoc; reflexivity.
Qed.

Lemma runCommandDefault_eq cmd args dir c w :
  runCommandDefault cmd args dir c w
  = (outcomeOf (settlement c cmd args dir (buildTimeoutMs (config c))),
     mkWorld (trace w ++ commandEffects c cmd args dir (buildTimeoutMs (config c)))
       (clockReads w)).
Proof. unfold runCommandDefault, bind, ask. apply runCommand_eq. Qed.

Lemma settlement_settled c cmd args dir timeoutMs :
  settlement c cmd args dir timeoutMs <> None.
Proof. apply supervise_settled. Qed.

Lemma spawns_commandEffects c cmd args dir timeoutMs :
  spawns (commandEffects c cmd args dir timeoutMs) = [(cmd, args)].
Proof.
  unfold commandEffects. cbn [spawns flat_map app logger].
  fold (spawns (callbackEffects c cmd args dir timeoutMs)).
  unfold callbackEffects. now rewrite (spawns_logOrKill _ (logOrKill_atSettlement _ _ _ _ _)).
Qed.

(** The command succeeded. *)
Definition resolved (s : option Settlement) : bool :=
  match s with Some (Resolved _ _) => true | _ => false end.


(** The error [installDependencies] throws for an error caught. *)
Definition wrapInstallError (e : JsError) : JsError :=
  Error ("Falha na instalação de dependências: " ++ message e).

(** Splits the trace of a finished run and reads its commands. *)
Ltac split_trace :=
  cbn [fst snd trace clockReads]; rewrite <- ?app_assoc;
  eexists; split; [reflexivity|];
  rewrite ?spawns_app, ?spawns_commandEffects; cbn [spawns flat_map app logger];
  split; reflexivity.

Lemma installDependencies_pnpm (c : Ctx) (dir : string) (w : World) :
  packageManager (config c) = "pnpm" ->
  let limit := buildTimeoutMs (config c) in
  let probed := resolved (settlement c "which" ["pnpm"] dir 5000) in
  let primary := probed && resolved (settlement c "pnpm" ["install"] dir limit) in
  let r := installDependencies dir c w in
  exists es,
    snd r = mkWorld (trace w ++ es) (clockReads w) /\
    spawns es
    = (("which", ["pnpm"])
       :: (if probed then [("pnpm", ["install"])] else [])
       ++ (if primary then [] else [("npm", ["install"; "--silent"])]))%list /\
    fst r
    = if primary then Return tt
      else match settlement c "npm" ["install"; "--silent"] dir limit with
           | Some (Resolved _ _) => Return tt
           | Some (Rejected e) => Throw (wrapInstallError e)
           | None => Pending
           end.
Proof.
  intros Hpm. cbv zeta.
  unfold installDependencies.
  cbv beta iota zeta delta [bind try_catch ask emit ret throw].
  rewrite Hpm. cbn [String.eqb Ascii.eqb Bool.eqb].
  rewrite runCommand_eq.
  pose proof (settlement_settled c "which" ["pnpm"] dir 5000) as Hprobe.
  pose proof (settlement_settled c "pnpm" ["install"] dir (buildTimeoutMs (config c))) as Hprimary.
  destruct (settlement c "which" ["pnpm"] dir 5000) as [[out err|e]|];
    [| |now elim Hprobe]; cbn [outcomeOf resolved andb].
  - rewrite runCommandDefault_eq.
    destruct (settlement c "pnpm" ["install"] dir (buildTimeoutMs (config c)))
      as [[out' err'|e]|]; [| |now elim Hprimary]; cbn [outcomeOf resolved].
    + split_trace.
    + rewrite runCommandDefault_eq.
      destruct (settlement c "npm" ["install"; "--silent"] dir _) as [[o2 e2|e2]|];
        cbn [outcomeOf]; split_trace.
  - rewrite runCommandDefault_eq.
    destruct (settlement c "npm" ["install"; "--silent"] dir _) as [[o2 e2|e2]|];
      cbn [outcomeOf]; split_trace.
Qed.

(** Effects other than the start of the build command. *)
Definition notBuild (e : Effect) : Prop :=
  match e with
  | Sys (Spawn cmd args _) _ => (cmd, args) <> ("npm", ["run"; "build"])
  | _ => True
  end.

Lemma notBuild_spawns es :
  Forall notBuild es -> ~ In ("npm", ["run"; "build"]) (spawns es).
Proof.
  induction 1 as [|e es He _ IH]; [intros []|].
  cbn [spawns flat_map]. fold (spawns es). intros H.
  apply in_app_or in H as [H|H]; [|now apply IH].
  destruct e as [? ? ?|[] ?]; cbn in H; try (now destruct H);
    destruct H as [H|[]]; now apply He.
Qed.

Lemma logOrKill_notBuild es : Forall logOrKill es -> Forall notBuild es.
Proof.
  apply Forall_impl. intros [? ? ?|[] ?]; cbn; try tauto.
Qed.

Lemma emits_runCommand c cmd args dir timeoutMs :
  (cmd, args) <> ("npm", ["run"; "build"]) ->
  emits notBuild c (runCommand cmd args dir timeoutMs).
Proof.
  intros H w. rewrite runCommand_eq. eexists. split; [reflexivity|].
  unfold commandEffects. repeat constructor; [exact H|].
  apply logOrKill_notBuild, logOrKill_atSettlement.
Qed.

Lemma emits_runCommandDefault c cmd args dir :
  (cmd, args) <> ("npm", ["run"; "build"]) ->
  emits notBuild c (runCommandDefault cmd args dir).
Proof.
  intros H. unfold runCommandDefault.
  apply emits_bind; [apply emits_ask | intros c']. now apply emits_runCommand.
Qed.

Lemma emits_log P c lvl msg :
  (forall context lvl msg, P (Log context lvl msg)) ->
  emits P c (emit (logger lvl msg)).
Proof. intros H. apply emits_emit, H. Qed.

Lemma emits_fileExists P c filePath : emits P c (FileSystem.fileExists filePath).
Proof. unfold FileSystem.fileExists. auto 10 with emits. Qed.

Lemma emits_directoryExists P c dirPath :
  emits P c (FileSystem.directoryExists dirPath).
Proof. unfold FileSystem.directoryExists. auto 10 with emits. Qed.

Lemma emits_detectProjectType c projectDir :
  emits notBuild c (detectProjectType projectDir).
Proof.
  assert (Hlog : forall lvl msg, emits notBuild c (emit (logger lvl msg)))
    by (intros; now apply emits_emit).
  pose proof (emits_fileExists notBuild c) as Hfile.
  unfold detectProjectType.
  apply emits_bind; [apply Hfile | intros hasManifest].
  apply emits_bind.
  { destruct hasManifest; [|apply emits_ret].
    apply emits_try_catch; [|intros e; auto with emits].
    apply emits_bind; [apply emits_observe | intros text].
    apply emits_bind; [apply emits_ask | intros c'].
    apply emits_bind.
    { destruct (JSON_parse (env c') text); auto with emits. }
    intros packageJson.
    apply emits_bind.
    { unfold lift. destruct (getProperty packageJson _); auto with emits. }
    intros dependencies. apply emits_bind; [|auto with emits].
    unfold lift. destruct (getProperty packageJson _); auto with emits. }
  intros [projectType|]; [apply emits_ret|].
  unfold orM. auto 15 with emits.
Qed.

Lemma emits_installDependencies c projectDir :
  emits notBuild c (installDependencies projectDir).
Proof.
  assert (Hlog : forall lvl msg, emits notBuild c (emit (logger lvl msg)))
    by (intros; now apply emits_emit).
  unfold installDependencies.
  apply emits_bind; [apply Hlog | intros _].
  apply emits_try_catch; [|intros e; auto with emits].
  apply emits_bind; [apply emits_ask | intros c'].
  apply emits_bind; [|intros _; apply Hlog].
  apply emits_try_catch.
  - destruct (packageManager (config c') =? "pnpm")%string.
    + apply emits_bind; [now apply emits_runCommand | intros _].
      apply emits_bind; [|auto with emits].
      apply emits_runCommandDefault.
      destruct (_ =? "npm")%string; intros H; inversion H.
    + apply emits_bind; [|auto with emits].
      apply emits_runCommandDefault.
      destruct (_ =? "npm")%string; intros H; inversion H.
  - intros e. destruct (packageManager (config c') =? "pnpm")%string;
      [|apply emits_throw].
    apply emits_bind; [apply Hlog | intros _].
    apply emits_bind; [|auto with emits].
    now apply emits_runCommandDefault.
Qed.

(** While the install phase does not return, [runBuild] never starts the
    build command. *)
Lemma runBuild_waits_for_install c projectDir :
  (forall w a, fst (installDependencies projectDir c w) <> Return a) ->
  emits notBuild c (runBuild projectDir).
Proof.
  intros Hinstall.
  assert (Hlog : forall lvl msg, emits notBuild c (emit (logger lvl msg)))
    by (intros; now apply emits_emit).
  unfold runBuild.
  apply emits_bind; [apply Hlog | intros _].
  apply emits_try_catch; [|intros e; auto with emits].
  apply emits_bind; [apply emits_detectProjectType | intros projectType].
  apply emits_bind; [apply Hlog | intros _].
  apply emits_bind; [now apply emits_runCommand | intros _].
  apply emits_bind; [now apply emits_runCommand | intros _].
  apply emits_bind_stop; [apply emits_installDependencies | exact Hinstall].
Qed.

(** The arguments of the install command (line 139). *)
Definition installArgs (packageManager : string) : list string :=
  if (packageManager =? "npm")%string then ["install"; "--silent"] else ["install"].

Lemma installDependencies_other (c : Ctx) (dir : string) (w : World) :
  packageManager (config c) <> "pnpm" ->
  let manager := packageManager (config c) in
  let r := installDependencies dir c w in
  fst r = match settlement c manager (installArgs manager) dir
                  (buildTimeoutMs (config c)) with
          | Some (Resolved _ _) => Return tt
          | Some (Rejected e) => Throw (wrapInstallError e)
          | None => Pending
          end /\
  exists es,
    snd r = mkWorld (trace w ++ es) (clockReads w) /\
    spawns es = [(manager, installArgs manager)].
Proof.
  intros Hpm. cbv zeta. unfold installDependencies, installArgs.
  cbv beta iota zeta delta [bind try_catch ask emit ret throw].
  rewrite (proj2 (String.eqb_neq _ _) Hpm).
  rewrite runCommandDefault_eq.
  destruct (settlement c (packageManager (config c)) _ dir _) as [[out err|e]|];
    cbn [outcomeOf fst snd trace clockReads]; rewrite <- ?app_assoc;
    (split; [reflexivity|]); eexists; (split; [reflexivity|]);
    rewrite ?spawns_app, ?spawns_commandEffects; reflexivity.
Qed.

(** [runBuild], started in [w], does not start the build command. *)
Definition buildNotStarted (c : Ctx) (dir : string) (w : World) : Prop :=
  exists es,
    trace (snd (runBuild dir c w)) = (trace w ++ es)%list /\
    ~ In ("npm", ["run"; "build"]) (spawns es).

Lemma buildNotStarted_without_install c dir w :
  (forall w' a, fst (installDependencies dir c w') <> Return a) ->
  buildNotStarted c dir w.
Proof.
  intros Hinstall.
  destruct (runBuild_waits_for_install c dir Hinstall w) as (es & Hes & Hall).
  exists es. split; [exact Hes | now apply notBuild_spawns].
Qed.

(** C2 (as amended).  With pnpm as the configured package manager: when the
    probe [which pnpm] or [pnpm install] fails, for whatever reason,
    [npm install --silent] is started, once; the install phase returns
    normally exactly when the probe and [pnpm install] succeed or the npm
    attempt does; when the npm attempt fails too, the error thrown carries
    the message of the npm attempt.  With any other package manager one
    command is started, the manager with [install] ([install --silent] for
    npm), and nothing else: the install phase returns normally exactly when
    that command succeeds, and otherwise throws its error, prefixed as a
    failure of the installation.  In either case [runBuild] does not start
    the build command while the install phase has not returned. *)
Theorem install_falls_back_for_pnpm_only (c : Ctx) (dir : string) (w : World) :
  let limit := buildTimeoutMs (config c) in
  let manager := packageManager (config c) in
  let probed := resolved (settlement c "which" ["pnpm"] dir 5000) in
  let primary := probed && resolved (settlement c "pnpm" ["install"] dir limit) in
  let fallback := settlement c "npm" ["install"; "--silent"] dir limit in
  let only := settlement c manager (installArgs manager) dir limit in
  let r := installDependencies dir c w in
  (manager = "pnpm" ->
   (exists es,
      snd r = mkWorld (trace w ++ es) (clockReads w) /\
      spawns es
      = (("which", ["pnpm"])
         :: (if probed then [("pnpm", ["install"])] else [])
         ++ (if primary then [] else [("npm", ["install"; "--silent"])]))%list /\
      fst r
      = if primary then Return tt
        else match fallback with
             | Some (Resolved _ _) => Return tt
             | Some (Rejected e) => Throw (wrapInstallError e)
             | None => Pending
             end) /\
   (primary = false -> resolved fallback = false -> buildNotStarted c dir w)) /\
  (manager <> "pnpm" ->
   (exists es,
      snd r = mkWorld (trace w ++ es) (clockReads w) /\
      spawns es = [(manager, installArgs manager)] /\
      fst r
      = match only with
        | Some (Resolved _ _) => Return tt
        | Some (Rejected e) => Throw (wrapInstallError e)
        | None => Pending
        end) /\
   (resolved only = false -> buildNotStarted c dir w)).
Proof.
  cbv zeta. split; intros Hpm.
  - split; [now apply installDependencies_pnpm|].
    intros Hprimary Hfallback. apply buildNotStarted_without_install.
    intros w' a.
    destruct (installDependencies_pnpm c dir w' Hpm) as (_ & _ & _ & ->).
    rewrite Hprimary.
    destruct (settlement c "npm" _ dir _) as [[out err|e]|]; discriminate.
  - split.
    + destruct (installDependencies_other c dir w Hpm) as (Hfst & es & Hsnd & Hspawns).
      exists es. now repeat split.
    + intros Honly. apply buildNotStarted_without_install.
      intros w' a.
      destruct (installDependencies_other c dir w' Hpm) as (-> & _).
      destruct (settlement c (packageManager (config c)) _ dir _) as [[out err|e]|];
        discriminate.
Qed.

Import FileSystemFacts.

(** What the chunks of a stream add up to. *)
Definition stdoutOf (evs : list ChildEvent) : string :=
  fold_right (fun ev acc => match ev with StdoutData data => data ++ acc | _ => acc end)
    "" evs.

Definition stderrOf (evs : list ChildEvent) : string :=
  fold_right (fun ev acc => match ev with StderrData data => data ++ acc | _ => acc end)
    "" evs.

(** How the first [close] or [error] event settles a command that is still
    running. *)
Definition settlementOf (ev : ChildEvent) (out err : string) : option Settlement :=
  match ev with
  | Close (Some 0) => Some (Resolved (JsString.trim out) (JsString.trim err))
  | Close code => Some (Rejected (Error (exitMessage code out err)))
  | ErrorEvent msg => Some (Rejected (Error ("Erro ao executar comando: " ++ msg)))
  | _ => None
  end.

Section Output.
Variables (cmd : string) (args : list string) (timeoutMs : Z) (childPid : Z).

Lemma deliver_chunks (chunks : list ChildEvent) (st : ChildState) :
  forallb (fun ev => negb (ends ev)) chunks = true ->
  let st' := deliver cmd chunks st in
  stdout st' = stdout st ++ stdoutOf chunks /\
  stderr st' = stderr st ++ stderrOf chunks /\
  isTimedOut st' = isTimedOut st /\
  timerArmed st' = timerArmed st /\
  settled st' = settled st /\
  kills (effects st') = kills (effects st).
Proof.
  revert st. induction chunks as [|ev chunks IH]; intros st H; cbv zeta.
  - cbn. now rewrite !PathFacts.append_empty_r.
  - cbn [forallb] in H. apply andb_true_iff in H as [Hev Hrest].
    change (deliver cmd (ev :: chunks) st)
      with (deliver cmd chunks (onChildEvent cmd ev st)).
    destruct (IH (onChildEvent cmd ev st) Hrest) as (H1 & H2 & H3 & H4 & H5 & H6).
    rewrite H1, H2, H3, H4, H5, H6.
    destruct ev as [data|data|code|msg]; try discriminate Hev;
      cbn [onChildEvent stdoutOf stderrOf fold_right];
      unfold onStdout, onStderr, record;
      fields; rewrite ?kills_app, ?PathFacts.append_assoc;
      cbn [kills flat_map logger app]; rewrite ?app_nil_r;
      repeat split; reflexivity.
Qed.

Lemma settled_event (ev : ChildEvent) (st : ChildState) (s : Settlement) :
  settled st = Some s ->
  settled (onChildEvent cmd ev st) = Some s.
Proof.
  intros Hs.
  destruct ev as [data|data|code|msg]; cbn [onChildEvent].
  - unfold onStdout, record; fields; exact Hs.
  - unfold onStderr, record; fields; exact Hs.
  - unfold onClose, clearTimeout; fields.
    destruct (isTimedOut st); fields; [exact Hs|].
    destruct code as [[| |]|]; unfold settle, record; fields; now rewrite Hs.
  - unfold onError, clearTimeout, settle, record; fields; now rewrite Hs.
Qed.

Lemma settled_deliver (evs : list ChildEvent) (st : ChildState) (s : Settlement) :
  settled st = Some s -> settled (deliver cmd evs st) = Some s.
Proof.
  revert st. induction evs as [|ev evs IH]; intros st Hs; [exact Hs|].
  apply IH. now apply settled_event.
Qed.

Lemma settled_timer (st : ChildState) (s : Settlement) :
  settled st = Some s ->
  settled (timerDue cmd args timeoutMs childPid st) = Some s.
Proof.
  intros Hs. unfold timerDue. destruct (timerArmed st); [|exact Hs].
  unfold onTimeout, settle, record. fields. now rewrite Hs.
Qed.

Lemma first_end_settles (chunks : list ChildEvent) (ev : ChildEvent)
    (later : list ChildEvent) (script : ChildScript) :
  beforeDeadline script = (chunks ++ ev :: later)%list ->
  forallb (fun ev => negb (ends ev)) chunks = true ->
  ends ev = true ->
  settled (supervise cmd args timeoutMs childPid script)
  = settlementOf ev (stdoutOf chunks) (stderrOf chunks).
Proof.
  intros Hscript Hchunks Hev. unfold supervise. rewrite Hscript.
  rewrite deliver_app.
  change (deliver cmd (ev :: later) ?st)
    with (deliver cmd later (onChildEvent cmd ev st)).
  destruct (deliver_chunks chunks initialChildState Hchunks)
    as (H1 & H2 & H3 & H4 & H5 & _).
  cbn [initialChildState stdout stderr isTimedOut timerArmed settled append] in *.
  set (st := deliver cmd chunks initialChildState) in *.
  assert (Hsettled : settled (onChildEvent cmd ev st)
                     = settlementOf ev (stdoutOf chunks) (stderrOf chunks)).
  { destruct ev as [data|data|code|msg]; try discriminate Hev;
      cbn [onChildEvent settlementOf].
    - unfold onClose, clearTimeout; fields. rewrite H3.
      destruct code as [[| |]|]; unfold settle, record; fields;
        rewrite H5, ?H1, ?H2; reflexivity.
    - unfold onError, clearTimeout, settle, record; fields. now rewrite H5. }
  destruct (settlementOf ev (stdoutOf chunks) (stderrOf chunks)) as [s|] eqn:Hs.
  - apply settled_deliver, settled_timer, settled_deliver. exact Hsettled.
  - destruct ev as [data|data|[[| |]|]|msg]; discriminate.
Qed.

End Output.

(** X12.  A command whose child ends before the deadline is settled by the
    first [close] or [error] event, on the output collected until then: exit
    code 0 resolves with the trimmed output; any other code, [null]
    included, rejects with a message made of the trimmed [stderr] or, when
    that is empty, of the trimmed [stdout]; an [error] event rejects with
    its message.  The child is not signalled. *)
Theorem command_settles_on_first_end (cmd : string) (args : list string)
    (dir : string) (timeoutMs : Z) (c : Ctx) (w : World)
    (chunks : list ChildEvent) (ev : ChildEvent) (later : list ChildEvent) :
  beforeDeadline (child_process (env c) cmd args dir) = (chunks ++ ev :: later)%list ->
  forallb (fun ev => negb (ends ev)) chunks = true ->
  ends ev = true ->
  let r := runCommand cmd args dir timeoutMs c w in
  fst r = outcomeOf (settlementOf ev (stdoutOf chunks) (stderrOf chunks)) /\
  exists es, snd r = mkWorld (trace w ++ es) (clockReads w) /\ kills es = [].
Proof.
  intros Hscript Hchunks Hev. cbv zeta. rewrite runCommand_eq. cbn [fst snd].
  split.
  - unfold settlement. cbv zeta.
    now rewrite (first_end_settles cmd args timeoutMs _ chunks ev later _ Hscript Hchunks Hev).
  - eexists. split; [reflexivity|].
    unfold commandEffects, callbackEffects. cbv zeta.
    cbn [kills flat_map logger app].
    fold (kills (effects (atSettlement cmd args timeoutMs
                            (pid (child_process (env c) cmd args dir))
                            (child_process (env c) cmd args dir)))).
    assert (Hends : existsb ends (beforeDeadline (child_process (env c) cmd args dir)) = true).
    { rewrite Hscript, existsb_app. cbn [existsb]. rewrite Hev. now rewrite orb_true_r. }
    destruct (supervise_completed cmd args timeoutMs
                (pid (child_process (env c) cmd args dir)) _ Hends) as (_ & _ & Hk).
    now apply kills_atSettlement.
Qed.

(** The elements of a list up to and including the first that satisfies
    [f]. *)
Fixpoint upToFirst {A} (f : A -> bool) (l : list A) : list A :=
  match l with
  | [] => []
  | x :: rest => if f x then [x] else x :: upToFirst f rest
  end.

(** A tool that [which] does not find. *)
Definition missing (c : Ctx) (cwd tool : string) : bool :=
  negb (resolved (settlement c "which" [tool] cwd 5000)).

Definition probe (tool : string) : string * list string := ("which", [tool]).

Lemma probeTools_outcome c cwd tools w :
  let r := probeTools cwd tools c w in
  fst r = match find (missing c cwd) tools with
          | Some tool =>
              Throw (Error ("Ferramenta necessária não encontrada: " ++ tool))
          | None => Return tt
          end /\
  exists es,
    snd r = mkWorld (trace w ++ es) (clockReads w) /\
    spawns es = map probe (upToFirst (missing c cwd) tools).
Proof.
  revert w. induction tools as [|tool rest IH]; intros w; cbv zeta.
  - cbn. split; [reflexivity|]. exists []. now rewrite app_nil_r; destruct w.
  - cbn [probeTools find upToFirst]. unfold missing at 1 3.
    cbv beta iota zeta delta [bind try_catch emit throw].
    rewrite runCommand_eq.
    pose proof (settlement_settled c "which" [tool] cwd 5000) as Hs.
    destruct (settlement c "which" [tool] cwd 5000) as [[out err|e]|];
      [| |now elim Hs]; cbn [outcomeOf resolved negb trace clockReads].
    + destruct (IH (mkWorld
                      ((trace w ++ commandEffects c "which" [tool] cwd 5000)
                       ++ [logger Debug ("Ferramenta encontrada: " ++ tool)])
                      (clockReads w))) as [Hfst [es [Hsnd Hspawns]]].
      split; [exact Hfst|].
      eexists. rewrite Hsnd. cbn [trace clockReads]. rewrite <- !app_assoc.
      split; [reflexivity|].
      rewrite !spawns_app, spawns_commandEffects, Hspawns. reflexivity.
    + split; [reflexivity|]. eexists. cbn [fst snd]. split; [reflexivity|].
      now rewrite spawns_commandEffects.
Qed.

(** X13.  [checkBuildTools] looks for node, npm and then the configured
    package manager when it is pnpm or yarn, in that order, with one [which]
    each; it stops at the first tool that is not found, which its error
    names, and returns [true] when all are found. *)
Theorem build_tools_probed_in_order (c : Ctx) (cwd : string) (w : World) :
  let tools := requiredTools (packageManager (config c)) in
  let r := checkBuildTools cwd c w in
  fst r = match find (missing c cwd) tools with
          | Some tool =>
              Throw (Error ("Ferramenta necessária não encontrada: " ++ tool))
          | None => Return true
          end /\
  exists es,
    snd r = mkWorld (trace w ++ es) (clockReads w) /\
    spawns es = map probe (upToFirst (missing c cwd) tools).
Proof.
  cbv zeta. unfold checkBuildTools.
  cbv beta iota zeta delta [bind ask ret].
  destruct (probeTools_outcome c cwd (requiredTools (packageManager (config c))) w)
    as [Hfst [es [Hsnd Hspawns]]].
  destruct (probeTools cwd _ c w) as [[[]|e|] w1]; cbn [fst snd] in *.
  - destruct (find _ _); [discriminate|]. split; [reflexivity|]. now exists es.
  - destruct (find _ _); [|discriminate]. injection Hfst as ->.
    split; [reflexivity|]. now exists es.
  - destruct (find _ _); discriminate.
Qed.

(** X14.  With a package manager other than pnpm, [installDependencies]
    runs one command, the manager with [install] ([install --silent] for
    npm), and its failure, prefixed once, is the failure of the install:
    nothing else is attempted. *)
Theorem other_manager_installs_once (c : Ctx) (dir : string) (w : World) :
  packageManager (config c) <> "pnpm" ->
  let manager := packageManager (config c) in
  let r := installDependencies dir c w in
  fst r = match settlement c manager (installArgs manager) dir
                  (buildTimeoutMs (config c)) with
          | Some (Resolved _ _) => Return tt
          | Some (Rejected e) => Throw (wrapInstallError e)
          | None => Pending
          end /\
  exists es,
    snd r = mkWorld (trace w ++ es) (clockReads w) /\
    spawns es = [(manager, installArgs manager)].
Proof. intros Hpm. exact (installDependencies_other c dir w Hpm). Qed.

Definition projectTypes : list string :=
  ["astro"; "vite"; "react"; "vue"; "svelte"; "generic"].

(** The type the configuration files give (lines 96-107). *)
Definition typeFromConfigFiles (c : Ctx) (projectDir : string) : string :=
  if isFileAt c (Path.join projectDir "astro.config.mjs")
     || isFileAt c (Path.join projectDir "astro.config.js") then "astro"
  else if isFileAt c (Path.join projectDir "vite.config.js")
          || isFileAt c (Path.join projectDir "vite.config.ts") then "vite"
  else "generic".

Lemma configFiles_eq c projectDir w :
  (isAstro <- orM (FileSystem.fileExists (Path.join projectDir "astro.config.mjs"))
                  (FileSystem.fileExists (Path.join projectDir "astro.config.js")) ;;
   if isAstro then ret "astro"
   else
     isVite <- orM (FileSystem.fileExists (Path.join projectDir "vite.config.js"))
                   (FileSystem.fileExists (Path.join projectDir "vite.config.ts")) ;;
     if isVite then ret "vite" else ret "generic") c w
  = (Return (typeFromConfigFiles c projectDir), w).
Proof.
  unfold typeFromConfigFiles, orM.
  cbv beta iota zeta delta [bind]. rewrite !fileExists_eq.
  destruct (isFileAt c (Path.join projectDir "astro.config.mjs")); [reflexivity|].
  cbv beta iota zeta delta [bind]. rewrite !fileExists_eq.
  destruct (isFileAt c (Path.join projectDir "astro.config.js")); [reflexivity|].
  cbv beta iota zeta delta [bind ret orb]. rewrite !fileExists_eq.
  destruct (isFileAt c (Path.join projectDir "vite.config.js")); [reflexivity|].
  cbv beta iota zeta delta [bind ret orb]. rewrite !fileExists_eq.
  now destruct (isFileAt c (Path.join projectDir "vite.config.ts")).
Qed.

Lemma classifyDependencies_type dependencies devDependencies :
  In (classifyDependencies dependencies devDependencies) projectTypes.
Proof.
  unfold classifyDependencies, projectTypes.
  repeat match goal with
         | |- context [if ?b then _ else _] => destruct b
         end; cbn; tauto.
Qed.

Lemma typeFromConfigFiles_type c projectDir :
  In (typeFromConfigFiles c projectDir) projectTypes.
Proof.
  unfold typeFromConfigFiles, projectTypes.
  repeat match goal with
         | |- context [if ?b then _ else _] => destruct b
         end; cbn; tauto.
Qed.

(** [v[k]] where reading it does not throw. *)
Definition member (v : json) (k : string) : option json :=
  match getProperty v k with
  | inr m => m
  | inl _ => None
  end.

Definition warning : Effect := logger Warn "Erro ao ler package.json:".

(** The parsed [package.json] of a project, where it is a file that can be
    read and parsed and is not [null]. *)
Definition manifest (c : Ctx) (projectDir : string) : option json :=
  let packageJsonPath := Path.join projectDir "package.json" in
  if isFileAt c packageJsonPath then
    match fs_readFile (env c) packageJsonPath with
    | inr text =>
        match JSON_parse (env c) text with
        | Some JNull => None
        | parsed => parsed
        end
    | inl _ => None
    end
  else None.

Definition classified (packageJson : json) : string :=
  classifyDependencies (member packageJson "dependencies")
    (member packageJson "devDependencies").

Lemma detectProjectType_eq (c : Ctx) (projectDir : string) (w : World) :
  detectProjectType projectDir c w
  = match manifest c projectDir with
    | Some packageJson => (Return (classified packageJson), w)
    | None =>
        (Return (typeFromConfigFiles c projectDir),
         if isFileAt c (Path.join projectDir "package.json")
         then mkWorld (trace w ++ [warning]) (clockReads w) else w)
    end.
Proof.
  unfold detectProjectType, manifest, classified.
  erewrite bind_Return by apply fileExists_eq.
  destruct (isFileAt c (Path.join projectDir "package.json")).
  - destruct (fs_readFile (env c) (Path.join projectDir "package.json"))
      as [msg|text] eqn:Hread.
    + erewrite bind_Return
        by (cbv beta iota zeta delta [try_catch bind observe emit ret];
            rewrite Hread; reflexivity).
      apply configFiles_eq.
    + destruct (JSON_parse (env c) text) as [packageJson|] eqn:Hparse.
      * destruct packageJson;
          erewrite bind_Return
            by (cbv beta iota zeta delta
                  [try_catch bind observe ask ret lift getProperty throw emit];
                rewrite Hread, Hparse; reflexivity);
          try reflexivity.
        apply configFiles_eq.
      * erewrite bind_Return
          by (cbv beta iota zeta delta [try_catch bind observe ask ret throw emit];
              rewrite Hread, Hparse; reflexivity).
        apply configFiles_eq.
  - erewrite bind_Return by reflexivity. apply configFiles_eq.
Qed.

(** X15.  A [package.json] that is a file, can be read and parses to
    something other than [null] decides the project type alone, by the first
    of astro, vite (or its React plugin), react, vue and svelte among its
    dependencies, and is generic without any of them: the configuration
    files of the project are not looked at, and nothing is logged. *)
Theorem manifest_decides_alone (c : Ctx) (projectDir : string) (w : World)
    (packageJson : json) :
  manifest c projectDir = Some packageJson ->
  detectProjectType projectDir c w = (Return (classified packageJson), w).
Proof. intros H. now rewrite detectProjectType_eq, H. Qed.

(** X16.  [detectProjectType] never throws: whatever is on disk, it
    returns one of six project types; without a usable [package.json] the
    type is that of the configuration files, astro before vite. *)
Theorem project_type_is_always_known (c : Ctx) (projectDir : string) (w : World) :
  (exists projectType,
     fst (detectProjectType projectDir c w) = Return projectType /\
     In projectType projectTypes) /\
  (manifest c projectDir = None ->
   fst (detectProjectType projectDir c w)
   = Return (typeFromConfigFiles c projectDir)).
Proof.
  rewrite detectProjectType_eq. split.
  - destruct (manifest c projectDir); eexists; (split; [reflexivity|]).
    + apply classifyDependencies_type.
    + apply typeFromConfigFiles_type.
  - now intros ->.
Qed.

Lemma findDistDir_eq projectDir dirs c w :
  findDistDir projectDir dirs c w
  = (Return (find (fun dir => isDirectoryAt c (Path.join projectDir dir)) dirs), w).
Proof.
  induction dirs as [|dir rest IH]; [reflexivity|].
  cbn [findDistDir find]. erewrite bind_Return by apply directoryExists_at.
  destruct (isDirectoryAt c (Path.join projectDir dir)); [reflexivity | exact IH].
Qed.

Lemma outcomeOf_Return s out err :
  outcomeOf s = Return (out, err) -> s = Some (Resolved out err).
Proof. destruct s as [[o e|e]|]; cbn; congruence. Qed.

Lemma spawns_log context lvl msg es :
  spawns (Log context lvl msg :: es) = spawns es.
Proof. reflexivity. Qed.

Definition buildCommand : string * list string := ("npm", ["run"; "build"]).

(** X17.  A build that succeeds has probed node and npm, installed, and
    then run [npm run build], once and last, whatever the configured package
    manager; the directory it reports is the first of dist, build, out and
    .next that exists, and its project type is one of the six. *)
Theorem build_result_shape (c : Ctx) (projectDir : string) (w w' : World)
    (result : BuildResult) :
  runBuild projectDir c w = (Return result, w') ->
  find (fun dir => isDirectoryAt c (Path.join projectDir dir)) possibleDistDirs
  = Some (distDir result) /\
  In (projectType result) projectTypes /\
  resolved (settlement c "npm" ["run"; "build"] projectDir (buildTimeoutMs (config c)))
  = true /\
  exists es install,
    trace w' = (trace w ++ es)%list /\
    spawns es
    = (("which", ["node"]) :: ("which", ["npm"]) :: install ++ [buildCommand])%list /\
    ~ In buildCommand install.
Proof.
  unfold runBuild. intros H.
  apply bind_Return_inv in H as (u0 & w0 & Hlog & H).
  injection Hlog as _ <-.
  apply try_catch_Return_inv in H.
  2:{ intros e c0 w1. exists e. reflexivity. }
  apply bind_Return_inv in H as (projectType & w1 & Hdetect & H).
  rewrite detectProjectType_eq in Hdetect.
  apply bind_Return_inv in H as (u2 & w2 & Hlog2 & H). injection Hlog2 as _ <-.
  apply bind_Return_inv in H as ([out1 err1] & w3 & Hnode & H).
  rewrite runCommand_eq in Hnode. injection Hnode as _ <-.
  apply bind_Return_inv in H as ([out2 err2] & w4 & Hnpm & H).
  rewrite runCommand_eq in Hnpm. injection Hnpm as _ <-.
  apply bind_Return_inv in H as ([] & w5 & Hinstall & H).
  apply bind_Return_inv in H as ([out3 err3] & w6 & Hbuild & H).
  rewrite runCommandDefault_eq in Hbuild. injection Hbuild as Hbuilt <-.
  apply bind_Return_inv in H as (found & w7 & Hfind & H).
  rewrite findDistDir_eq in Hfind.
  set (chosen := find (fun dir => isDirectoryAt c (Path.join projectDir dir))
                   possibleDistDirs) in *.
  injection Hfind as <- <-.
  destruct chosen as [dir|] eqn:Hdir; [|unfold throw in H; discriminate H].
  apply bind_Return_inv in H as (u8 & w8 & Hlog3 & H). injection Hlog3 as _ <-.
  injection H as <- <-.
  cbn [distDir BuildService.projectType].
  split; [reflexivity|]. split.
  { destruct (manifest c projectDir); injection Hdetect as <- _.
    - apply classifyDependencies_type.
    - apply typeFromConfigFiles_type. }
  split.
  { now rewrite (outcomeOf_Return _ _ _ Hbuilt). }
  match type of Hinstall with
  | installDependencies _ _ ?w0 = _ =>
      destruct (emits_installDependencies c projectDir w0) as [mid [Htrace Hmid]]
  end.
  rewrite Hinstall in Htrace. cbn [snd trace clockReads] in Htrace.
  assert (Hw1 : exists pre, trace w1
                            = (trace w ++ logger Info "Iniciando processo de build..." :: pre)%list
                            /\ spawns pre = []).
  { destruct (manifest c projectDir); injection Hdetect as _ <-.
    - exists []. cbn [trace]. split; reflexivity.
    - destruct (isFileAt c _); cbn [trace].
      + exists [warning]. rewrite <- app_assoc. split; reflexivity.
      + exists []. split; reflexivity. }
  destruct Hw1 as [pre [Hw1 Hpre]].
  cbn [trace clockReads]. rewrite Htrace, Hw1.
  eexists. exists (spawns mid).
  rewrite <- !app_assoc. cbn [app]. rewrite <- ?app_assoc.
  split; [reflexivity|].
  split.
  - unfold logger, buildCommand.
    repeat (rewrite spawns_log || rewrite spawns_app
            || rewrite spawns_commandEffects).
    rewrite Hpre. reflexivity.
  - now apply notBuild_spawns.
Qed.

Definition buildErrorLog : Effect := logger Err "Erro durante o processo de build:".

Lemma detectProjectType_world c projectDir w :
  exists projectType pre,
    detectProjectType projectDir c w
    = (Return projectType, mkWorld (trace w ++ pre) (clockReads w)) /\
    spawns pre = [].
Proof.
  rewrite detectProjectType_eq.
  destruct (manifest c projectDir).
  - eexists. exists []. rewrite app_nil_r. split; [now destruct w | reflexivity].
  - destruct (isFileAt c _).
    + eexists. exists [warning]. split; reflexivity.
    + eexists. exists []. rewrite app_nil_r. split; [now destruct w | reflexivity].
Qed.

(** X18.  The probes come first and their errors are passed on as they
    are: when [which node] or [which npm] is rejected, [runBuild] throws
    that very error, after logging it, and has spawned nothing else. *)
Theorem build_stops_at_missing_tool (c : Ctx) (projectDir : string) (w : World)
    (e : JsError) :
  let node := settlement c "which" ["node"] projectDir 5000 in
  let npm := settlement c "which" ["npm"] projectDir 5000 in
  (node = Some (Rejected e) \/ resolved node = true /\ npm = Some (Rejected e)) ->
  exists es,
    runBuild projectDir c w
    = (Throw e, mkWorld (trace w ++ es ++ [buildErrorLog]) (clockReads w)) /\
    spawns es
    = if resolved node then [("which", ["node"]); ("which", ["npm"])]
      else [("which", ["node"])].
Proof.
  cbv zeta. intros Hcase.
  destruct (detectProjectType_world c projectDir
              (mkWorld (trace w ++ [logger Info "Iniciando processo de build..."])
                 (clockReads w))) as (projectType & pre & Hdetect & Hpre).
  cbn [trace clockReads] in Hdetect.
  set (typeLog := logger Info ("Tipo de projeto detectado: " ++ projectType)).
  set (node := commandEffects c "which" ["node"] projectDir 5000).
  set (npm := commandEffects c "which" ["npm"] projectDir 5000).
  exists (logger Info "Iniciando processo de build..." :: pre ++ typeLog :: node
          ++ if resolved (settlement c "which" ["node"] projectDir 5000)
             then npm else [])%list.
  split.
  - unfold runBuild.
    erewrite bind_Return by reflexivity.
    destruct Hcase as [Hnode|[Hnode Hnpm]].
    + erewrite try_catch_Throw.
      2:{ erewrite bind_Return by exact Hdetect.
          erewrite bind_Return by reflexivity.
          erewrite bind_Throw; [reflexivity|].
          rewrite runCommand_eq, Hnode. reflexivity. }
      cbv beta iota zeta delta [bind emit throw]. cbn [trace clockReads].
      rewrite Hnode. cbn [resolved]. fold typeLog node. unfold buildErrorLog.
      rewrite ?app_nil_r.
      repeat (rewrite <- app_assoc || rewrite <- app_comm_cons). reflexivity.
    + destruct (settlement c "which" ["node"] projectDir 5000) as [[out err|e0]|] eqn:Hn;
        try discriminate Hnode.
      erewrite try_catch_Throw.
      2:{ erewrite bind_Return by exact Hdetect.
          erewrite bind_Return by reflexivity.
          erewrite bind_Return by (rewrite runCommand_eq, Hn; reflexivity).
          erewrite bind_Throw; [reflexivity|].
          rewrite runCommand_eq, Hnpm. reflexivity. }
      cbv beta iota zeta delta [bind emit throw]. cbn [trace clockReads resolved].
      fold typeLog node npm. unfold buildErrorLog.
      rewrite ?app_nil_r.
      repeat (rewrite <- app_assoc || rewrite <- app_comm_cons). reflexivity.
  - unfold typeLog, node, npm, logger.
    destruct (resolved _);
      repeat (rewrite spawns_log || rewrite spawns_app
              || rewrite spawns_commandEffects);
      rewrite Hpre; reflexivity.
Qed.

End BuildServiceFacts.

(** ** The error handler *)

Module ErrorHandlerFacts.
Import Js JsFacts FileSystem FileSystemFacts BuildRoute BuildRouteFacts.
Local Open Scope js_scope.







(** X21.  Outside development the response of [errorHandler] carries no
    stack trace, whatever value is caught. *)
Theorem stack_is_sent_in_development_only (nodeEnv : string) (err : ErrorHandler.Caught)
    (requestId : string) (c : Ctx) (w w' : World) (response : ErrorHandler.Response) :
  nodeEnv <> "development" ->
  ErrorHandler.errorHandler nodeEnv err requestId c w = (Return response, w') ->
  ErrorHandler.body_stack (ErrorHandler.error response) = None.
Proof.
  intros Henv. unfold ErrorHandler.errorHandler.
  rewrite (proj2 (String.eqb_neq _ _) Henv).
  cbv beta iota zeta delta [bind ErrorHandler.logger emit ret throw].
  destruct (ErrorHandler.isJoi err); [destruct (ErrorHandler.details err)|];
    try discriminate; now intros [= <- _].
Qed.

End ErrorHandlerFacts.

(** ** The health route *)

Module HealthRouteFacts.
Import Js JsFacts FileSystem FileSystemFacts BuildService BuildServiceFacts
  BuildRouteFacts HealthRoute.
Local Open Scope js_scope.

Section Health.
Variables (nodeEnv logsDir cwd : string) (memUsage : MemoryUsage).
Variables (process_uptime os_uptime : Q).

(** What the health check finds on the host. *)
Definition toolsFound (c : Ctx) : bool :=
  match find (missing c cwd) (requiredTools (packageManager (config c))) with
  | Some _ => false
  | None => true
  end.

(** The disk is below the ceiling of line 67, or could not be measured. *)
Definition diskBelow (c : Ctx) : bool :=
  match diskSnapshot c with
  | Some snapshot => (usagePercent snapshot <? 95)%float
  | None => true
  end.

Definition healthy (c : Ctx) : bool :=
  isDirectoryAt c (previewsDir (config c)) && isDirectoryAt c logsDir
  && toolsFound c && diskBelow c.

Lemma checkBuildTools_found c w :
  exists w',
    try_catch
      (checkBuildTools cwd ;; ret (mkBuildTools true None))
      (fun error => ret (mkBuildTools false (Some (message error)))) c w
    = (Return (mkBuildTools (toolsFound c)
                 (match find (missing c cwd) (requiredTools (packageManager (config c))) with
                  | Some tool => Some ("Ferramenta necessária não encontrada: " ++ tool)
                  | None => None
                  end)), w').
Proof.
  unfold toolsFound, checkBuildTools.
  destruct (probeTools_outcome c cwd (requiredTools (packageManager (config c))) w)
    as [Hfst _].
  cbv beta iota zeta delta [try_catch bind ask ret].
  destruct (probeTools cwd _ c w) as [o w1]. cbn [fst] in Hfst. subst o.
  destruct (find _ _); eexists; reflexivity.
Qed.

Lemma respond_if (b : bool) (body : HealthBody) c w :
  (if b then ret (Respond 200 body) else ret (Respond 503 body)) c w
  = (Return (Respond (if b then 200 else 503) body), w).
Proof. now destruct b. Qed.

Lemma get_health_reply c w :
  exists body w',
    get_health nodeEnv logsDir cwd memUsage process_uptime os_uptime c w
    = (Return (Respond (if healthy c then 200 else 503) body), w') /\
    healthStatus body = (if healthy c then "healthy" else "degraded") /\
    directories (checks body)
    = mkDirectories (isDirectoryAt c (previewsDir (config c))) (isDirectoryAt c logsDir) /\
    diskSpace (checks body) = diskSnapshot c /\
    available (buildTools (checks body)) = toolsFound c.
Proof.
  unfold get_health.
  destruct (checkDiskSpace_eq c (mkWorld (trace w) (S (clockReads w)))) as [w1 Hdisk].
  destruct (checkBuildTools_found c w1) as [w2 Htools].
  eexists. eexists. split.
  - erewrite try_catch_Return; [reflexivity|].
    erewrite bind_Return by reflexivity.
    erewrite bind_Return by reflexivity.
    erewrite bind_Return by apply directoryExists_at.
    erewrite bind_Return by apply directoryExists_at.
    erewrite bind_Return by exact Hdisk.
    erewrite bind_Return by exact Htools.
    erewrite bind_Return by reflexivity.
    cbn [available].
    fold (diskBelow c). fold (healthy c).
    rewrite respond_if. reflexivity.
  - cbn [healthStatus checks directories diskSpace buildTools available].
    repeat split; reflexivity.
Qed.

(** X22.  [GET /health] always answers and never calls [next]: with 200
    and [healthy] when both directories exist, every required tool is found
    and the disk usage is below 95 percent or unknown, as the checks of the
    body report them; with 503 and [degraded] otherwise. *)
Theorem health_check_always_answers (c : Ctx) (w : World) :
  exists body w',
    get_health nodeEnv logsDir cwd memUsage process_uptime os_uptime c w
    = (Return (Respond (if healthy c then 200 else 503) body), w') /\
    healthStatus body = (if healthy c then "healthy" else "degraded") /\
    (healthy c = true <->
     previews (directories (checks body)) = true /\
     logs (directories (checks body)) = true /\
     available (buildTools (checks body)) = true /\
     match diskSpace (checks body) with
     | Some snapshot => (usagePercent snapshot <? 95)%float = true
     | None => True
     end).
Proof.
  destruct (get_health_reply c w)
    as (body & w' & Hrun & Hstatus & Hdirs & Hdisk & Htools).
  exists body, w'. split; [exact Hrun|]. split; [exact Hstatus|].
  rewrite Hdirs, Hdisk, Htools. cbn [previews logs].
  unfold healthy, diskBelow. rewrite !andb_true_iff.
  destruct (diskSnapshot c); tauto.
Qed.

(** X23.  The two disk ceilings differ: with the disk measured above 90
    and below 95 percent on an otherwise sound host, [GET /health] answers
    200 [healthy] while every build request is refused with status 507. *)
Theorem build_refused_while_health_is_good (c : Ctx) (req : BuildRoute.Request)
    (snapshot : DiskSnapshot) :
  diskSnapshot c = Some snapshot ->
  (90 <? usagePercent snapshot)%float = true ->
  (usagePercent snapshot <? 95)%float = true ->
  isDirectoryAt c (previewsDir (config c)) = true ->
  isDirectoryAt c logsDir = true ->
  toolsFound c = true ->
  (exists body w,
     run (get_health nodeEnv logsDir cwd memUsage process_uptime os_uptime) c
     = (Return (Respond 200 body), w) /\
     healthStatus body = "healthy") /\
  (exists w,
     run (BuildRoute.post_build req) c
     = (Return (BuildRoute.Next (AppError "Espaço em disco insuficiente" 507)), w)).
Proof.
  intros Hdisk Habove Hbelow Hpreviews Hlogs Htools. split.
  - destruct (get_health_reply c initial) as (body & w' & Hrun & Hstatus & _).
    assert (Hhealthy : healthy c = true).
    { unfold healthy, diskBelow.
      now rewrite Hpreviews, Hlogs, Htools, Hdisk, Hbelow. }
    rewrite Hhealthy in *. now exists body, w'.
  - apply post_build_full_disk. unfold diskFull. now rewrite Hdisk.
Qed.

End Health.

End HealthRouteFacts.

(** ** Runs on concrete inputs *)

Module ScenarioFacts.
Import Js BuildRoute BuildRouteFacts Scenario.

(** Finds a given element in an explicit list. *)
Ltac find_member := repeat (first [left; reflexivity | right]).

Lemma post_build_never_succeeds_witness :
  exists w,
    run (post_build (requestWith smallProject)) quiet
    = (Return (Next (ReferenceError "id")), w).
Proof.
  eapply (proj2 (post_build_never_succeeds quiet (requestWith smallProject))).
  - vm_compute. reflexivity.
  - vm_compute. reflexivity.
  - vm_compute. reflexivity.
Defined.

Lemma unsafe_path_rejected_before_any_write_witness :
  exists error w,
    run (post_build (requestWith escapingProject)) quiet
    = (Return (Next error), w) /\
    (statusCode error = Some 400 \/ statusCode error = Some 507) /\
    forall call ok, ~ In (Sys call ok) (trace w).
Proof.
  refine (proj2 (unsafe_path_rejected_before_any_write quiet
                   (requestWith escapingProject)
                   [("files", JObject escapingProject)] escapingProject
                   eq_refl eq_refl _)).
  exists "../../../etc/cron.d/job", (JString "* * * * * root true").
  split; [right; left; reflexivity | reflexivity].
Defined.

(** C6 (counterexample).  Staging has no check of its own: handed a key
    that climbs out of the project directory, it writes the file outside
    it. *)
Lemma staging_escapes_project_directory :
  let dir := projectDirOf quiet in
  let r := writeFiles dir escapingProject quiet initial in
  fst r = Return tt /\
  In (Sys (WriteFile "/etc/cron.d/job" "* * * * * root true") true)
     (trace (snd r)) /\
  within dir "/etc/cron.d/job" = false.
Proof.
  vm_compute. split; [reflexivity|]. split; [|reflexivity].
  find_member.
Qed.

Lemma staging_writes_every_joined_path_witness :
  (exists es,
     writeFiles (projectDirOf quiet) smallProject quiet initial
     = (Return tt, mkWorld (trace initial ++ es) (clockReads initial)) /\
     Permutation es
       (flat_map (stagingEffects quiet (projectDirOf quiet)) smallProject) /\
     createdBeforeWritten es) /\
  within (projectDirOf quiet) (Path.join (projectDirOf quiet) "src/main.jsx")
  = true.
Proof.
  destruct (staging_writes_every_joined_path quiet (projectDirOf quiet)
              smallProject initial (fun _ => eq_refl) (fun _ _ => eq_refl))
    as [Hwritten Hwithin].
  split; [exact Hwritten|].
  apply (Hwithin eq_refl eq_refl) with (v := JString "import React from 'react'");
    [discriminate | find_member | reflexivity].
Defined.

(** C9 (counterexample).  The scan meets an error in a subdirectory, logs
    it, and still returns the 2,048 bytes counted elsewhere; with a maximum
    of 1,024 bytes the request is refused with status 413. *)
Lemma unmeasured_subdirectory_fails_quota :
  0 < maxProjectSize (config smallQuota) /\
  fst (FileSystem.getDirectorySize (projectDirOf smallQuota) smallQuota initial)
  = Return 2048 /\
  exists msg w,
    run (post_build (requestWith smallProject)) smallQuota
    = (Return (Next (AppError msg 413)), w) /\
    In (FileSystem.sizeErrorLog
          (Path.join (projectDirOf smallQuota) "node_modules")) (trace w).
Proof.
  split; [reflexivity|]. split; [reflexivity|].
  eexists. eexists. split; [vm_compute; reflexivity|].
  vm_compute. find_member.
Qed.

Lemma size_error_counts_as_zero_witness :
  fst (FileSystem.getDirectorySize (projectDirOf unlistable) unlistable initial)
  = Return 0 /\
  fst (check_project_size 0 unlistable initial) = Return tt /\
  fst (FileSystem.getDirectorySize (projectDirOf smallQuota) smallQuota initial)
  = Return (FileSystemFacts.sumZ
              (map (FileSystemFacts.entrySize (projectDirOf smallQuota))
                 [ ("bundle.js", NotDirectory (inr 2048));
                   ("node_modules", Directory (inl "EACCES: permission denied")) ])).
Proof.
  destruct (size_error_counts_as_zero unlistable (projectDirOf unlistable) initial)
    as (_ & Hzero & Hpass & _).
  destruct (size_error_counts_as_zero smallQuota (projectDirOf smallQuota) initial)
    as (_ & _ & _ & Hsum).
  split; [apply Hzero; reflexivity|].
  split; [apply Hpass; discriminate|].
  apply Hsum; reflexivity.
Defined.

(** C2 (counterexample).  With yarn configured, a failing [yarn install]
    is the only command started: npm is not tried, and the error is that of
    yarn. *)
Lemma yarn_failure_has_no_fallback :
  let r := run (BuildService.installDependencies "/srv/previews/p1") yarnFails in
  BuildServiceFacts.spawns (trace (snd r)) = [("yarn", ["install"])] /\
  fst r = Throw (Error "Falha na instalação de dependências: Comando falhou (código 1): error An unexpected error occurred").
Proof. vm_compute. split; reflexivity. Qed.

Lemma install_falls_back_for_pnpm_only_witness :
  ((exists es,
      snd (BuildService.installDependencies "/srv/previews/p1" registryDown initial)
      = mkWorld (trace initial ++ es) (clockReads initial) /\
      BuildServiceFacts.spawns es
      = [ ("which", ["pnpm"]); ("pnpm", ["install"]);
          ("npm", ["install"; "--silent"]) ] /\
      fst (BuildService.installDependencies "/srv/previews/p1" registryDown initial)
      = Throw (Error "Falha na instalação de dependências: Comando falhou (código 1): npm ERR! network request failed")) /\
   BuildServiceFacts.buildNotStarted registryDown "/srv/previews/p1" initial) /\
  ((exists es,
      snd (BuildService.installDependencies "/srv/previews/p1" yarnFails initial)
      = mkWorld (trace initial ++ es) (clockReads initial) /\
      BuildServiceFacts.spawns es = [("yarn", ["install"])] /\
      fst (BuildService.installDependencies "/srv/previews/p1" yarnFails initial)
      = Throw (Error "Falha na instalação de dependências: Comando falhou (código 1): error An unexpected error occurred")) /\
   BuildServiceFacts.buildNotStarted yarnFails "/srv/previews/p1" initial).
Proof.
  destruct (BuildServiceFacts.install_falls_back_for_pnpm_only registryDown
              "/srv/previews/p1" initial) as [Hpnpm _].
  destruct (BuildServiceFacts.install_falls_back_for_pnpm_only yarnFails
              "/srv/previews/p1" initial) as [_ Hother].
  destruct (Hpnpm eq_refl) as [Hinstall Hbuild].
  destruct (Hother ltac:(discriminate)) as [Hinstall' Hbuild'].
  split; split.
  - exact Hinstall.
  - exact (Hbuild eq_refl eq_refl).
  - exact Hinstall'.
  - exact (Hbuild' eq_refl).
Defined.

(** C7 (counterexample).  The timer of a hung build fires: the shell is
    signalled and the promise rejected, and the bundler, a member of the
    same process group, is still alive. *)
Lemma timeout_leaves_group_member_alive :
  let st := BuildService.supervise "npm" ["run"; "build"] 300000
              (pid stuckBuild) stuckBuild in
  BuildService.settled st
  = Some (BuildService.Rejected
            (Error "Comando expirou após 300000ms: npm run build")) /\
  BuildServiceFacts.kills (BuildService.effects st) = [4242] /\
  survivors 4242 (afterEffects (BuildService.effects st) buildProcesses) = [4243].
Proof. vm_compute. repeat split; reflexivity. Qed.

Lemma timeout_kills_child_and_is_distinct_witness :
  (let st := BuildService.supervise "npm" ["run"; "build"] 300000
               (pid stuckBuild) stuckBuild in
   BuildService.settled st
   = Some (BuildService.Rejected
             (Error (BuildService.timeoutMessage "npm" ["run"; "build"] 300000))) /\
   BuildServiceFacts.kills (BuildService.effects st) = [pid stuckBuild]) /\
  (let st := BuildService.supervise "npm" ["run"; "build"] 300000
               (pid (exits 0 "")) (exits 0 "") in
   BuildService.timerArmed st = false /\
   BuildServiceFacts.kills (BuildService.effects st) = [] /\
   exists s, BuildService.settled st = Some s /\
             s <> BuildService.Rejected
                    (Error (BuildService.timeoutMessage "npm" ["run"; "build"] 300000))).
Proof.
  split.
  - exact (proj1 (BuildServiceFacts.timeout_kills_child_and_is_distinct
                    "npm" ["run"; "build"] 300000 stuckBuild) eq_refl).
  - exact (proj2 (proj2 (BuildServiceFacts.timeout_kills_child_and_is_distinct
                           "npm" ["run"; "build"] 300000 (exits 0 ""))) eq_refl).
Defined.

(** C4 (counterexample).  The sweep removes one directory, the one
    untouched for twenty-five hours, and what it returns is [undefined], not
    the count 1. *)
Lemma sweep_returns_no_count :
  let r := run FileSystem.cleanupOldPreviews sweepHost in
  FileSystemFacts.removals (trace (snd r)) = ["/srv/previews/stale"] /\
  fst r = Return Undefined /\
  fst r <> Return (Number 1).
Proof.
  vm_compute. split; [reflexivity|]. split; [reflexivity | discriminate].
Qed.

Lemma sweep_removes_overage_directories_witness :
  let r := run FileSystem.cleanupOldPreviews sweepHost in
  fst r = Return Undefined /\
  FileSystemFacts.removals (trace (snd r)) = ["/srv/previews/stale"] /\
  FileSystemFacts.removalAttempts (trace (snd r))
  = FileSystemFacts.removals (trace (snd r)) /\
  In (Log "FileSystem" Info "Limpeza concluída: 1 previews removidos")
     (trace (snd r)).
Proof.
  destruct (FileSystemFacts.sweep_removes_overage_directories sweepHost
              (mkStats true false 4096 (sweepTime - 3600000))
              [ mkDirent "fresh" true; mkDirent "stale" true;
                mkDirent ".gitkeep" false ]
              eq_refl eq_refl eq_refl eq_refl)
    as (Hret & Hrem & Hatt & Hlog).
  split; [exact Hret|]. split; [exact Hrem|]. split; [exact Hatt|].
  exact (Hlog eq_refl).
Defined.

(** C3 (counterexample).  The removal of the first over-age directory fails:
    the second, as old, is neither visited nor removed. *)
Lemma removal_error_ends_sweep :
  let r := run FileSystem.cleanupOldPreviews lockedHost in
  FileSystemFacts.overAge lockedHost sweepTime (mkDirent "stale" true) = true /\
  FileSystemFacts.removalAttempts (trace (snd r)) = ["/srv/previews/locked"] /\
  FileSystemFacts.removals (trace (snd r)) = [] /\
  fst r = Return Undefined.
Proof. vm_compute. repeat split; reflexivity. Qed.

Lemma sweep_stops_at_removal_error_witness :
  let r := run FileSystem.cleanupOldPreviews lockedHost in
  fst r = Return Undefined /\
  In (Log "FileSystem" Err "Erro ao remover diretório /srv/previews/locked:")
     (trace (snd r)) /\
  In (Log "FileSystem" Err "Erro durante limpeza automática:") (trace (snd r)) /\
  FileSystemFacts.removals (trace (snd r)) = [] /\
  FileSystemFacts.removalAttempts (trace (snd r)) = ["/srv/previews/locked"].
Proof.
  exact (FileSystemFacts.sweep_stops_at_removal_error lockedHost
           (mkStats true false 4096 (sweepTime - 3600000))
           [] (mkDirent "locked" true) [mkDirent "stale" true]
           "EBUSY: resource busy or locked"
           eq_refl eq_refl eq_refl eq_refl eq_refl eq_refl).
Defined.

(** Further runs: the properties beyond the build request, at explicit
    inputs. *)

Lemma project_structure_verdict_witness :
  Validation.validateProjectStructure looseFiles
  = inl ValidationFacts.missingConfigMessage /\
  Validation.validateProjectStructure
    [ ("package.json", JString "{}"); ("deploy.sh", JString "rm -rf dist") ]
  = inl "Extensão de arquivo não permitida: .sh".
Proof.
  split.
  - apply (proj1 (ValidationFacts.project_structure_verdict looseFiles)).
    intros k [<-|[<-|[]]] H; vm_compute in H; intuition discriminate.
  - apply (proj2 (proj2 (ValidationFacts.project_structure_verdict
                           [ ("package.json", JString "{}");
                             ("deploy.sh", JString "rm -rf dist") ]))
             ["package.json"] "deploy.sh" []).
    + exists "package.json". split; [left; reflexivity | left; reflexivity].
    + reflexivity.
    + intros b [<-|[]]. vm_compute. reflexivity.
    + vm_compute. reflexivity.
Defined.

Lemma extension_check_reads_last_suffix_witness :
  Validation.validateFileExtension "src/App.JSX" = true.
Proof.
  apply (ValidationFacts.extension_check_reads_last_suffix "src/App" "JSX").
  - discriminate.
  - reflexivity.
  - discriminate.
  - reflexivity.
Defined.

Lemma size_of_readable_tree_witness :
  FileSystem.getDirectorySize "/srv/previews/p1" nested initial
  = (Return 500, initial).
Proof.
  exact (FileSystemFacts.size_of_readable_tree "/srv/previews/p1" nested initial
           _ eq_refl eq_refl).
Defined.

Lemma size_never_overcounts_witness :
  exists n,
    fst (FileSystem.getDirectorySize "/srv/previews/p1" smallQuota initial) = Return n /\
    0 <= n <= 2048.
Proof.
  exact (FileSystemFacts.size_never_overcounts "/srv/previews/p1" smallQuota initial
           eq_refl).
Defined.

Lemma sweep_never_rejects_witness :
  FileSystem.cleanupOldPreviews quiet initial = (Return Undefined, initial).
Proof.
  apply (proj2 (FileSystemFacts.sweep_never_rejects quiet initial)).
  intros stats H. discriminate H.
Defined.

Lemma sweep_touches_only_overage_directories_witness :
  exists entries entry,
    fs_readdir (env sweepHost) (previewsDir (config sweepHost)) = inr entries /\
    In entry entries /\
    FileSystemFacts.overAge sweepHost (Date_now (env sweepHost) 0) entry = true /\
    Rm "/srv/previews/stale" = Rm (FileSystemFacts.entryPath sweepHost entry).
Proof.
  apply (FileSystemFacts.sweep_touches_only_overage_directories sweepHost
           (Rm "/srv/previews/stale") true).
  vm_compute. left. reflexivity.
Defined.

Lemma file_count_guard_is_unreachable_witness :
  exists error w,
    run (post_build (requestWith smallProject)) quiet = (Return (Next error), w) /\
    String.prefix "Muitos arquivos: " (message error) = false.
Proof.
  exists (ReferenceError "id").
  exists (snd (run (post_build (requestWith smallProject)) quiet)).
  assert (Hrun : run (post_build (requestWith smallProject)) quiet
                 = (Return (Next (ReferenceError "id")),
                    snd (run (post_build (requestWith smallProject)) quiet))).
  { vm_compute. reflexivity. }
  split; [exact Hrun|].
  apply (BuildRouteFacts.file_count_guard_is_unreachable (requestWith smallProject)
           quiet (ReferenceError "id") _ ltac:(vm_compute; discriminate) Hrun).
Defined.

Lemma oversized_project_is_removed_witness :
  exists w,
    run (post_build (requestWith smallProject)) smallQuota
    = (Return (Next (AppError "Projeto muito grande: 0MB. Máximo: 0MB" 413)), w) /\
    In (Sys (Rm "/srv/previews/V1StGXR8_Z5jdHi6B-myT") true) (trace w).
Proof.
  eexists. split.
  - apply (BuildRouteFacts.oversized_project_is_removed (requestWith smallProject)
             smallQuota smallProject 3
             (snd (accept_request (requestWith smallProject) smallQuota started))
             2048
             (snd (stage_project (projectDirOf smallQuota) smallProject smallQuota
                     (snd (accept_request (requestWith smallProject) smallQuota started))))).
    + vm_compute. reflexivity.
    + vm_compute. reflexivity.
    + vm_compute. reflexivity.
  - vm_compute. repeat (first [left; reflexivity | right]).
Defined.

Lemma command_settles_on_first_end_witness :
  fst (BuildService.runCommand "yarn" ["install"] "/srv/previews/p1" 300000
         yarnFails initial)
  = Throw (Error "Comando falhou (código 1): error An unexpected error occurred").
Proof.
  apply (BuildServiceFacts.command_settles_on_first_end "yarn" ["install"]
           "/srv/previews/p1" 300000 yarnFails initial
           [StderrData "error An unexpected error occurred"] (Close (Some 1)) []);
    reflexivity.
Defined.

Lemma other_manager_installs_once_witness :
  fst (BuildService.installDependencies "/srv/previews/p1" yarnFails initial)
  = Throw (Error "Falha na instalação de dependências: Comando falhou (código 1): error An unexpected error occurred") /\
  exists es,
    snd (BuildService.installDependencies "/srv/previews/p1" yarnFails initial)
    = mkWorld (trace initial ++ es) (clockReads initial) /\
    BuildServiceFacts.spawns es = [("yarn", ["install"])].
Proof.
  apply (BuildServiceFacts.other_manager_installs_once yarnFails "/srv/previews/p1"
           initial).
  discriminate.
Defined.

Lemma manifest_decides_alone_witness :
  FileSystemFacts.isFileAt reactProject "/srv/previews/p1/astro.config.mjs" = true /\
  BuildService.detectProjectType "/srv/previews/p1" reactProject initial
  = (Return "vite", initial).
Proof.
  split; [reflexivity|].
  apply (BuildServiceFacts.manifest_decides_alone reactProject "/srv/previews/p1"
           initial reactManifest).
  reflexivity.
Defined.

Lemma project_type_is_always_known_witness :
  fst (BuildService.detectProjectType "/srv/previews/p1" quiet initial)
  = Return "generic".
Proof.
  apply (proj2 (BuildServiceFacts.project_type_is_always_known quiet
                  "/srv/previews/p1" initial)).
  reflexivity.
Defined.

Lemma build_result_shape_witness :
  find (fun dir => FileSystemFacts.isDirectoryAt builtHost
                     (Path.join "/srv/previews/p1" dir))
    BuildService.possibleDistDirs = Some "dist" /\
  In "generic" BuildServiceFacts.projectTypes /\
  BuildServiceFacts.resolved
    (BuildServiceFacts.settlement builtHost "npm" ["run"; "build"]
       "/srv/previews/p1" 300000) = true /\
  exists es install,
    trace (snd (BuildService.runBuild "/srv/previews/p1" builtHost initial))
    = (trace initial ++ es)%list /\
    BuildServiceFacts.spawns es
    = (("which", ["node"]) :: ("which", ["npm"]) :: install
       ++ [BuildServiceFacts.buildCommand])%list /\
    ~ In BuildServiceFacts.buildCommand install.
Proof.
  apply (BuildServiceFacts.build_result_shape builtHost "/srv/previews/p1" initial
           (snd (BuildService.runBuild "/srv/previews/p1" builtHost initial))
           (BuildService.mkBuildResult "generic" "dist")).
  vm_compute. reflexivity.
Defined.

Lemma build_stops_at_missing_tool_witness :
  exists es,
    BuildService.runBuild "/srv/previews/p1" nodeMissing initial
    = (Throw (Error "Comando falhou (código 1): "),
       mkWorld (trace initial ++ es ++ [BuildServiceFacts.buildErrorLog])
         (clockReads initial)) /\
    BuildServiceFacts.spawns es = [("which", ["node"])].
Proof.
  apply (BuildServiceFacts.build_stops_at_missing_tool nodeMissing "/srv/previews/p1"
           initial (Error "Comando falhou (código 1): ")).
  left. reflexivity.
Defined.


Lemma stack_is_sent_in_development_only_witness :
  let err := ErrorHandler.mkCaught "ENOSPC: no space left on device" None None
               (Some "Error: ENOSPC: no space left on device") false None false
               None false (Some "ENOSPC") in
  let r := ErrorHandler.errorHandler "production" err "k3j9x2m1q" quiet initial in
  exists response,
    fst r = Return response /\
    ErrorHandler.status response = 507 /\
    ErrorHandler.body_stack (ErrorHandler.error response) = None.
Proof.
  cbv zeta. eexists. split; [vm_compute; reflexivity|]. split; [reflexivity|].
  apply (ErrorHandlerFacts.stack_is_sent_in_development_only "production"
           (ErrorHandler.mkCaught "ENOSPC: no space left on device" None None
              (Some "Error: ENOSPC: no space left on device") false None false
              None false (Some "ENOSPC"))
           "k3j9x2m1q" quiet initial
           (mkWorld [Log "ErrorHandler" Err "Erro capturado:"] 0)).
  - discriminate.
  - vm_compute. reflexivity.
Defined.

Lemma build_refused_while_health_is_good_witness :
  (exists body w,
     run (HealthRoute.get_health "production" "/srv/logs" "/srv/app"
            (HealthRoute.mkMemoryUsage 52428800 20971520 15728640 1048576)
            (7 # 2) (86400 # 1)) nearlyFull
     = (Return (HealthRoute.Respond 200 body), w) /\
     HealthRoute.healthStatus body = "healthy") /\
  (exists w,
     run (post_build (requestWith smallProject)) nearlyFull
     = (Return (Next (AppError "Espaço em disco insuficiente" 507)), w)).
Proof.
  apply (HealthRouteFacts.build_refused_while_health_is_good "production" "/srv/logs"
           "/srv/app" (HealthRoute.mkMemoryUsage 52428800 20971520 15728640 1048576)
           (7 # 2)%Q (86400 # 1)%Q nearlyFull (requestWith smallProject)
           (FileSystem.mkDiskSnapshot 327680 4096000 3768320 92)%float).
  - vm_compute. reflexivity.
  - vm_compute. reflexivity.
  - vm_compute. reflexivity.
  - reflexivity.
  - reflexivity.
  - reflexivity.
Defined.


End ScenarioFacts.
